(** * CodeGrinder: commit sessions, problem signatures, step whitelists and
      the client-side file gatherer

    A shallow embedding of the Go sources
      - [src/codegrinder/commits.go]  (the commit session manager),
      - [types/problem.go]            (normalisation, signature, whitelists),
      - the [gather] function of the grind client,
    together with the properties the specification states about them.

    Conventions of the embedding.
      - Go's [int]/[int64] values are [Z]; none of the modelled code does
        arithmetic on them apart from comparison, so no wrap-around occurs.
      - [time.Time] is an instant in nanoseconds relative to the Unix epoch
        ([Z]); [time.Duration] is an [int64] count of nanoseconds and
        [Time.Sub] saturates exactly as Go's does.
      - [map[string]T] is [gmap string T]; tables of the relational store are
        lists of rows, with the primary-key discipline stated as [wf_db].
      - Types declared outside the given sources ([ReportCard],
        [EventMessage]) are section variables; library functions whose
        results are only passed along (float and time formatting, trimming,
        the markdown and HTML engines, base64, HMAC) are fields of the class
        [Runtime].
      - [log.Printf] lines are kept where a property speaks of them (the
        gatherer), and left out elsewhere. *)

From Stdlib Require Import ZArith String Ascii List Bool Lia.
From stdpp Require Import base option list gmap strings pretty fin_maps sorting.

#[local] Set Warnings "-clear-no-such-hyp".

Local Open Scope string_scope.
Local Open Scope list_scope.
Local Open Scope Z_scope.

(** ** Go library functions used by the sources *)

Module Go.

(** [time.Time] and [time.Duration]. *)
Definition Time := Z.
Definition Duration := Z.

Definition minDuration : Duration := - 2 ^ 63.
Definition maxDuration : Duration := 2 ^ 63 - 1.
Definition Nanosecond : Duration := 1.
Definition Second : Duration := 1000000000.
Definition Minute : Duration := 60 * Second.

(** [t.Sub(u)]: the difference, saturated to the range of [Duration]. *)
Definition Sub (t u : Time) : Duration :=
  if t - u <? minDuration then minDuration
  else if maxDuration <? t - u then maxDuration
  else t - u.

Definition Before (t u : Time) : bool := t <? u.
Definition After (t u : Time) : bool := u <? t.

(** [t.Round(d)] for a positive [d]: halfway values round up. *)
Definition Round (t : Time) (d : Duration) : Time :=
  let r := t mod d in
  if r + r <? d then t - r else t + (d - r).

(** [strconv.Atoi] on a 64-bit platform: an optional sign, then at least one
    decimal digit and nothing else; the value must fit an [int64]. *)
Definition digit_of (c : ascii) : option Z :=
  let n := Z.of_nat (nat_of_ascii c) in
  if (48 <=? n) && (n <=? 57) then Some (n - 48) else None.

Fixpoint parse_digits (acc : Z) (s : string) : option Z :=
  match s with
  | EmptyString => Some acc
  | String c rest =>
      match digit_of c with
      | Some d => parse_digits (acc * 10 + d) rest
      | None => None
      end
  end.

Definition parse_unsigned (s : string) : option Z :=
  match s with
  | EmptyString => None
  | _ => parse_digits 0 s
  end.

Definition in_int64 (n : Z) : bool := (- 2 ^ 63 <=? n) && (n <=? 2 ^ 63 - 1).

Definition Atoi (s : string) : option Z :=
  let signed :=
    match s with
    | String "-" rest => Z.opp <$> parse_unsigned rest
    | String "+" rest => parse_unsigned rest
    | _ => parse_unsigned s
    end in
  n ← signed; if in_int64 n then Some n else None.

(** HTTP status codes of [net/http]. *)
Definition StatusOK : Z := 200.
Definition StatusBadRequest : Z := 400.
Definition StatusNotFound : Z := 404.
Definition StatusInternalServerError : Z := 500.

End Go.

(** ** The commit session manager ([src/codegrinder/commits.go]) *)

Module Commits.
Import Go.

Definition transcriptEventCountLimit : Z := 500.
Definition transcriptDataLimit : Z := 100000.
Definition openCommitTimeout : Duration := 20 * Minute.

Section WithPayloadTypes.

(** Payload types that the handler stores and never inspects. *)
Context {Float64 ReportCard EventMessage : Type}.

Record Commit := mkCommit {
  ID : Z;
  AssignmentID : Z;
  ProblemStepNumber : Z;
  UserID : Z;
  Action : string;
  Closed : bool;
  Comment : string;
  Score : Float64;
  ReportCard_ : option ReportCard;
  Submission : gmap string string;
  Transcript : list EventMessage;
  CreatedAt : Time;
  UpdatedAt : Time
}.

Definition set_ID (v : Z) (c : Commit) : Commit :=
  mkCommit v (AssignmentID c) (ProblemStepNumber c) (UserID c) (Action c)
    (Closed c) (Comment c) (Score c) (ReportCard_ c) (Submission c)
    (Transcript c) (CreatedAt c) (UpdatedAt c).
Definition set_AssignmentID (v : Z) (c : Commit) : Commit :=
  mkCommit (ID c) v (ProblemStepNumber c) (UserID c) (Action c)
    (Closed c) (Comment c) (Score c) (ReportCard_ c) (Submission c)
    (Transcript c) (CreatedAt c) (UpdatedAt c).
Definition set_UserID (v : Z) (c : Commit) : Commit :=
  mkCommit (ID c) (AssignmentID c) (ProblemStepNumber c) v (Action c)
    (Closed c) (Comment c) (Score c) (ReportCard_ c) (Submission c)
    (Transcript c) (CreatedAt c) (UpdatedAt c).
Definition set_Closed (v : bool) (c : Commit) : Commit :=
  mkCommit (ID c) (AssignmentID c) (ProblemStepNumber c) (UserID c) (Action c)
    v (Comment c) (Score c) (ReportCard_ c) (Submission c)
    (Transcript c) (CreatedAt c) (UpdatedAt c).
Definition set_CreatedAt (v : Time) (c : Commit) : Commit :=
  mkCommit (ID c) (AssignmentID c) (ProblemStepNumber c) (UserID c) (Action c)
    (Closed c) (Comment c) (Score c) (ReportCard_ c) (Submission c)
    (Transcript c) v (UpdatedAt c).
Definition set_UpdatedAt (v : Time) (c : Commit) : Commit :=
  mkCommit (ID c) (AssignmentID c) (ProblemStepNumber c) (UserID c) (Action c)
    (Closed c) (Comment c) (Score c) (ReportCard_ c) (Submission c)
    (Transcript c) (CreatedAt c) v.

(** The columns of the [assignments] table that the handler's query reads. *)
Record Assignment := mkAssignment {
  asg_ID : Z;
  asg_UserID : Z
}.

(** The relational store inside the request's transaction: the two tables
    and the sequence that feeds [commits.id]. *)
Record DB := mkDB {
  assignments : list Assignment;
  commits : list Commit;
  commits_seq : Z
}.

(** Which statement of the request fails with a database error. *)
Record Faults := mkFaults {
  assignment_query_fails : bool;
  open_query_fails : bool;
  update_fails : bool;
  save_fails : bool
}.

Definition no_faults : Faults := mkFaults false false false false.

(** [SELECT * FROM assignments WHERE id = $1 AND user_id = $2] *)
Definition query_assignment (db : DB) (id user : Z) : option Assignment :=
  find (λ a, (asg_ID a =? id) && (asg_UserID a =? user)) (assignments db).

(** [SELECT * FROM commits WHERE NOT closed AND assignment_id = $1 LIMIT 1] *)
Definition is_open_for (a : Z) (c : Commit) : bool :=
  negb (Closed c) && (AssignmentID c =? a).

Definition query_open_commit (db : DB) (a : Z) : option Commit :=
  find (is_open_for a) (commits db).

(** [meddler.Update]: overwrite the row whose primary key is that of [c]. *)
Definition update_row (c r : Commit) : Commit :=
  if ID r =? ID c then c else r.

Definition db_update (db : DB) (c : Commit) : DB :=
  mkDB (assignments db) (map (update_row c) (commits db)) (commits_seq db).

(** [meddler.Insert]: the sequence supplies the primary key, which is also
    written back into the saved value. *)
Definition db_insert (db : DB) (c : Commit) : Commit * DB :=
  let c' := set_ID (commits_seq db) c in
  (c', mkDB (assignments db) (commits db ++ [c']) (commits_seq db + 1)).

(** [meddler.Save]: insert when the primary key is zero, update otherwise. *)
Definition db_save (db : DB) (c : Commit) : Commit * DB :=
  if ID c =? 0 then db_insert db c else (c, db_update db c).

(** What the handler sends back. *)
Inductive Response :=
  | HTTPError (status : Z)
  | JSON (status : Z) (body : Commit).

(** A handler step runs against the store and either returns early with a
    response or continues with a value. *)
Definition Handler (A : Type) : Type := DB → (Response + A) * DB.

Definition ret {A} (x : A) : Handler A := λ db, (inr x, db).
Definition respond {A} (r : Response) : Handler A := λ db, (inl r, db).
Definition bind {A B} (m : Handler A) (k : A → Handler B) : Handler B :=
  λ db, match m db with
        | (inl r, db') => (inl r, db')
        | (inr x, db') => k x db'
        end.
Definition read {A} (f : DB → A) : Handler A := λ db, (inr (f db), db).
Definition write (f : DB → DB) : Handler unit := λ db, (inr tt, f db).

Notation "'let*' x := m 'in' k" := (bind m (λ x, k))
  (at level 10, x name, m at level 100, k at level 200).
Notation "'guard*' m 'in' k" := (bind m (λ _, k))
  (at level 10, m at level 100, k at level 200).

Definition run (m : Handler Response) (db : DB) : Response * DB :=
  match m db with
  | (inl r, db') => (r, db')
  | (inr r, db') => (r, db')
  end.

(** [loggedHTTPErrorf(w, status, ...); return] when [b] holds. *)
Definition error_if (b : bool) (status : Z) : Handler unit :=
  if b then respond (HTTPError status) else ret tt.

(** The close-the-old-commit test of the handler. *)
Definition must_close (now : Time) (openCommit commit : Commit) : bool :=
  (openCommitTimeout <? Sub now (UpdatedAt openCommit))
  || negb (ProblemStepNumber openCommit =? ProblemStepNumber commit).

(** [commit.ReportCard != nil || len(commit.Transcript) > 0] *)
Definition carries_grading (commit : Commit) : bool :=
  bool_decide (ReportCard_ commit ≠ None)
  || bool_decide (Transcript commit ≠ []).

(** [PostUserAssignmentCommit]: add a new commit, or update the open one,
    for the given assignment of the current user. *)
Definition PostUserAssignmentCommit (now : Time) (flt : Faults)
    (currentUser : Z) (params : gmap string string) (commit : Commit)
    : Handler Response :=
  let* assignmentID :=
    match Atoi (default "" (params !! "assignment_id")) with
    | None => respond (HTTPError StatusBadRequest)
    | Some n => ret n
    end in
  guard* error_if (assignment_query_fails flt) StatusInternalServerError in
  let* assignment := read (λ db, query_assignment db assignmentID currentUser) in
  guard* error_if (bool_decide (assignment = None)) StatusNotFound in
  (* TODO: validate commit *)
  guard* error_if (bool_decide (size (Submission commit) = 0%nat))
           StatusBadRequest in
  guard* error_if (open_query_fails flt) StatusInternalServerError in
  let* openCommit := read (λ db, query_open_commit db assignmentID) in
  (* close the old commit? *)
  let* openCommit :=
    match openCommit with
    | Some oc =>
        if must_close now oc commit then
          let oc := set_UpdatedAt now (set_Closed true oc) in
          guard* error_if (update_fails flt) StatusInternalServerError in
          guard* write (λ db, db_update db oc) in
          ret None
        else ret (Some oc)
    | None => ret None
    end in
  (* update an existing commit? *)
  let commit :=
    match openCommit with
    | Some oc => set_CreatedAt (CreatedAt oc) (set_ID (ID oc) commit)
    | None => set_CreatedAt now (set_ID 0 commit)
    end in
  let commit := set_AssignmentID assignmentID commit in
  let commit := set_UserID currentUser commit in
  let commit :=
    if carries_grading commit then set_Closed true commit else commit in
  let commit := set_UpdatedAt now commit in
  guard* error_if (save_fails flt) StatusInternalServerError in
  let* commit := (λ db, let '(c, db') := db_save db commit in (inr c, db')) in
  ret (JSON StatusOK commit).

(** The store discipline the handler relies on: [commits.id] is a primary
    key drawn from a sequence that starts at one. *)
Definition wf_db (db : DB) : Prop :=
  NoDup (map ID (commits db))
  ∧ Forall (λ c, 0 < ID c < commits_seq db) (commits db)
  ∧ 0 < commits_seq db.

(** The open commits of assignment [a], and the session invariant. *)
Definition count_open (a : Z) (cs : list Commit) : nat :=
  length (List.filter (is_open_for a) cs).

Definition at_most_one_open (a : Z) (db : DB) : Prop :=
  (count_open a (commits db) ≤ 1)%nat.

(** A request that passes the handler's checks against [db]. *)
Definition accepted (db : DB) (currentUser : Z) (params : gmap string string)
    (commit : Commit) (a : Z) : Prop :=
  Atoi (default "" (params !! "assignment_id")) = Some a
  ∧ is_Some (query_assignment db a currentUser)
  ∧ size (Submission commit) ≠ 0%nat.

End WithPayloadTypes.

Arguments Commit : clear implicits.
Arguments DB : clear implicits.
Arguments Response : clear implicits.

End Commits.

(** ** Problems, steps, normalisation and signatures ([types/problem.go]) *)

Module Strings.

(** [strings.Split(s, sep)] for a one-byte separator [sep]. *)
Fixpoint Split_go (sep : ascii) (cur : string) (s : string) : list string :=
  match s with
  | EmptyString => [String.rev cur]
  | String c rest =>
      if bool_decide (c = sep)
      then String.rev cur :: Split_go sep EmptyString rest
      else Split_go sep (String c cur) rest
  end.

Definition Split (s : string) (sep : ascii) : list string :=
  Split_go sep EmptyString s.

(** A name is root-level when it holds no path separator. *)
Definition root_level (name : string) : Prop :=
  "/"%char ∉ list_ascii_of_string name.

(** [strings.HasPrefix] and [strings.HasSuffix]. *)
Definition HasPrefix (s pre : string) : bool := String.prefix pre s.

Definition HasSuffix (s suf : string) : bool :=
  String.prefix (String.rev suf) (String.rev s).

(** [strings.Contains(s, sub)]. *)
Fixpoint Contains (s sub : string) : bool :=
  String.prefix sub s ||
  match s with
  | EmptyString => false
  | String _ rest => Contains rest sub
  end.

(** [strings.Replace(s, old, new, -1)] for a non-empty [old]: every
    non-overlapping occurrence, scanning from the left.  [skip] counts the
    bytes of a matched occurrence that are still to be dropped. *)
Fixpoint Replace_go (old new : string) (skip : nat) (s : string) : string :=
  match s with
  | EmptyString => EmptyString
  | String c rest =>
      match skip with
      | S k => Replace_go old new k rest
      | O =>
          if String.prefix old s
          then new +:+ Replace_go old new (String.length old - 1) rest
          else String c (Replace_go old new O rest)
      end
  end.

Definition Replace (s old new : string) : string := Replace_go old new O s.

(** [s[:len(s)-1]] *)
Definition drop_last (s : string) : string :=
  String.substring 0 (String.length s - 1) s.

Definition CR : ascii := ascii_of_nat 13.
Definition LF : ascii := ascii_of_nat 10.
Definition crlf : string := String CR (String LF EmptyString).
Definition lf : string := String LF EmptyString.
Definition space_lf : string := String " " lf.
Definition lf_lf : string := String LF lf.

(** [url.QueryEscape]: letters, digits and [-_.~] are kept, a space becomes
    [+], every other byte becomes [%XX] in upper-case hexadecimal. *)
Definition is_unreserved (c : ascii) : bool :=
  let n := nat_of_ascii c in
  ((97 <=? n) && (n <=? 122))%nat || ((65 <=? n) && (n <=? 90))%nat
  || ((48 <=? n) && (n <=? 57))%nat
  || bool_decide (c = "-"%char) || bool_decide (c = "_"%char)
  || bool_decide (c = "."%char) || bool_decide (c = "~"%char).

Definition upperhex (n : nat) : ascii :=
  match n with
  | 0 => "0" | 1 => "1" | 2 => "2" | 3 => "3" | 4 => "4" | 5 => "5"
  | 6 => "6" | 7 => "7" | 8 => "8" | 9 => "9" | 10 => "A" | 11 => "B"
  | 12 => "C" | 13 => "D" | 14 => "E" | _ => "F"
  end%char%nat.

Definition escape_byte (c : ascii) : string :=
  if bool_decide (c = " "%char) then "+"
  else if is_unreserved c then String c EmptyString
  else String "%" (String (upperhex (nat_of_ascii c / 16))
                     (String (upperhex (nat_of_ascii c mod 16)) EmptyString)).

Fixpoint QueryEscape (s : string) : string :=
  match s with
  | EmptyString => EmptyString
  | String c rest => escape_byte c +:+ QueryEscape rest
  end.

(** [sort.Strings]: ascending byte-wise order. *)
Definition sort_Strings (l : list string) : list string :=
  merge_sort String.le l.

(** *** Decoders used to show that the encodings can be read back *)

(** The inverse of [QueryEscape]. *)
Definition unhex (c : ascii) : nat :=
  match c with
  | "0" => 0 | "1" => 1 | "2" => 2 | "3" => 3 | "4" => 4 | "5" => 5
  | "6" => 6 | "7" => 7 | "8" => 8 | "9" => 9 | "A" => 10 | "B" => 11
  | "C" => 12 | "D" => 13 | "E" => 14 | "F" => 15 | _ => 0
  end%char%nat.

Fixpoint unescape (s : string) : string :=
  match s with
  | EmptyString => EmptyString
  | String "+" r => String " " (unescape r)
  | String "%" (String h (String l r)) =>
      String (ascii_of_nat (16 * unhex h + unhex l)) (unescape r)
  | String c r => String c (unescape r)
  end.

(** Does the byte [d] occur in [s]? *)
Fixpoint has_byte (d : ascii) (s : string) : bool :=
  match s with
  | EmptyString => false
  | String c r => bool_decide (c = d) || has_byte d r
  end.

(** Cut [s] at the first occurrence of the byte [d]. *)
Fixpoint break (d : ascii) (s : string) : string * option string :=
  match s with
  | EmptyString => (EmptyString, None)
  | String c r =>
      if bool_decide (c = d) then (EmptyString, Some r)
      else let '(p, q) := break d r in (String c p, q)
  end.

(** What is left of [k] after the prefix [pre], if [k] starts with it. *)
Fixpoint strip_prefix (pre k : string) : option string :=
  match pre with
  | EmptyString => Some k
  | String a pre' =>
      match k with
      | String b k' => if bool_decide (a = b) then strip_prefix pre' k'
                       else None
      | EmptyString => None
      end
  end.

(** A first byte followed by the longest run of decimal digits. *)
Definition is_digit (c : ascii) : bool :=
  let n := nat_of_ascii c in ((48 <=? n) && (n <=? 57))%nat.

Fixpoint all_digits (s : string) : bool :=
  match s with
  | EmptyString => true
  | String c r => is_digit c && all_digits r
  end.

Fixpoint span_digits (s : string) : string * string :=
  match s with
  | EmptyString => (EmptyString, EmptyString)
  | String c r =>
      if is_digit c then let '(d, q) := span_digits r in (String c d, q)
      else (EmptyString, s)
  end.

Definition split_number (s : string) : string * string :=
  match s with
  | EmptyString => (EmptyString, EmptyString)
  | String c r => let '(d, q) := span_digits r in (String c d, q)
  end.

End Strings.

Module Html.

(** The parse tree of [golang.org/x/net/html]: a node with its attributes
    and its children in document order. *)
Inductive NodeType :=
  | ErrorNode | TextNode | DocumentNode | ElementNode | CommentNode
  | DoctypeNode.

Record Attribute := mkAttribute {
  Namespace : string;
  Key : string;
  Val : string
}.

#[warnings="-register-all"]
Inductive Node :=
  | mkNode (type : NodeType) (data : string) (attr : list Attribute)
      (children : list Node).

End Html.

Module Problems.
Import Go Strings Html.

(** Library functions whose results the sources only pass along: float
    formatting and comparison, time formatting, Unicode-aware trimming,
    UTF-8 validation, the markdown and HTML engines, base64 and HMAC. *)
Class Runtime := {
  Float64 : Type;
  (** [w <= 0.0] and the constant [1.0] *)
  float64_le_zero : Float64 → bool;
  float64_one : Float64;
  (** [strconv.FormatFloat(w, 'g', -1, 64)] *)
  FormatFloat : Float64 → string;
  (** [t.UTC().Format(time.RFC3339)] *)
  FormatRFC3339 : Time → string;
  (** [strings.TrimSpace], which leaves the empty string empty *)
  TrimSpace : string → string;
  TrimSpace_empty : TrimSpace "" = "";
  (** [utf8.ValidString] *)
  ValidString : string → bool;
  (** [blackfriday.Markdown] with the renderer and extensions of the source *)
  Markdown : string → string;
  (** [html.Parse]: an error, a nil document, or a document *)
  html_Parse : string → string + option Node;
  (** [html.Render] into a buffer *)
  html_Render : Node → string + string;
  (** [base64.StdEncoding.EncodeToString] *)
  base64_encode : string → string;
  (** HMAC-SHA256 of a message under a key *)
  hmac_sha256 : string → string → string
}.

(** [BeginningOfTime]: 2016-01-01 00:00:00 UTC. *)
Definition BeginningOfTime : Time := 1451606400 * Second.

(** [url.Values]: each key maps to a list of values. *)
Abbreviation Values := (gmap string (list string)).

Section WithRuntime.
Context `{Runtime}.

Record Problem := mkProblem {
  ID : Z;
  Unique : string;
  Note : string;
  ProblemType : string;
  Tags : list string;
  Options : list string;
  CreatedAt : Time;
  UpdatedAt : Time
}.

(** A single step of a problem; [Step] is one-based. *)
Record ProblemStep := mkProblemStep {
  ProblemID : Z;
  Step : Z;
  StepNote : string;
  Instructions : string;
  Weight : Float64;
  Files : gmap string string
}.

(** The errors the functions of this file return. *)
Inductive Error :=
  | ErrUniqueEmpty
  | ErrUniqueNotURLFriendly (unique escaped : string)
  | ErrNoteEmpty
  | ErrNoSteps
  | ErrCreatedAtInvalid (t : Time)
  | ErrUpdatedAtInvalid (t : Time)
  | ErrMissingStepNote (n : Z)
  | ErrBuildingInstructions (n : Z) (cause : Error)
  | ErrNoDocumentation
  | ErrInvalidUTF8
  | ErrHtmlParse (msg : string)
  | ErrNilDocument
  | ErrUnknownImageType (val : string)
  | ErrImageNotFound (val : string)
  | ErrHtmlRender (msg : string).

(** problem files in these directories do not have line endings cleaned up *)
Definition ProblemStepDirectoryWhitelist : gmap string bool :=
  {[ "in" := true; "out" := true; "_doc" := true ]}.

(** Go's [for cond { body }], unrolled at most [fuel] times. *)
Fixpoint while (fuel : nat) (cond : string → bool) (body : string → string)
    (s : string) : string :=
  match fuel with
  | O => s
  | S k => if cond s then while k cond body (body s) else s
  end.

Definition fixLineEndings (s : string) : string :=
  let s := Replace s crlf lf +:+ lf in
  let s := while (String.length s) (λ s, Contains s space_lf)
             (λ s, Replace s space_lf lf) s in
  let s := while (String.length s) (λ s, HasSuffix s lf_lf) drop_last s in
  if bool_decide (s = lf) then "" else s.

Definition fixNewLines (s : string) : string :=
  let s := Replace s crlf lf +:+ lf in
  let s := while (String.length s) (λ s, HasSuffix s lf_lf) drop_last s in
  if bool_decide (s = lf) then "" else s.

(** The image types [BuildInstructions] inlines, by file-name suffix. *)
Definition image_mime (val : string) : option string :=
  if HasSuffix val ".gif" then Some "image/gif"
  else if HasSuffix val ".png" then Some "image/png"
  else if HasSuffix val ".jpg" then Some "image/jpeg"
  else if HasSuffix val ".jpeg" then Some "image/jpeg"
  else if HasSuffix val ".svg" then Some "image/svg+xml"
  else None.

(** The loop over the attributes of an [img] element. *)
Fixpoint inline_src (files : gmap string string) (attrs : list Attribute)
    : Error + list Attribute :=
  match attrs with
  | [] => inr []
  | a :: rest =>
      let continue a' :=
        match inline_src files rest with
        | inl e => inl e
        | inr rest' => inr (a' :: rest')
        end in
      if bool_decide (Key a = "src") then
        match files !! ("_doc/" +:+ Val a) with
        | Some contents =>
            match image_mime (Val a) with
            | Some mime =>
                (* base64 encode the image *)
                let s := base64_encode contents in
                continue (mkAttribute (Namespace a) (Key a)
                            ("data:" +:+ mime +:+ ";base64," +:+ s))
            | None => inl (ErrUnknownImageType (Val a))
            end
        | None => inl (ErrImageNotFound (Val a))
        end
      else continue a
  end.

(** find image tags *)
Fixpoint walk (files : gmap string string) (n : Node) : Error + Node :=
  match n with
  | mkNode type data attr children =>
      let attr' :=
        match type with
        | ElementNode =>
            if bool_decide (data = "img") then inline_src files attr
            else inr attr
        | _ => inr attr
        end in
      match attr' with
      | inl e => inl e
      | inr attr' =>
          let walk_children :=
            fix walk_children (cs : list Node) : Error + list Node :=
              match cs with
              | [] => inr []
              | c :: cs =>
                  match walk files c with
                  | inl e => inl e
                  | inr c' =>
                      match walk_children cs with
                      | inl e => inl e
                      | inr cs' => inr (c' :: cs')
                      end
                  end
              end in
          match walk_children children with
          | inl e => inl e
          | inr children' => inr (mkNode type data attr' children')
          end
      end
  end.

(** [BuildInstructions] builds the instructions for a problem step as a
    single html document.  Markdown is processed and images are inlined.
    (The log lines about unused [_doc] files are not part of the result.) *)
Definition BuildInstructions (step : ProblemStep) : Error + string :=
  let justHTML :=
    match Files step !! "_doc/index.html" with
    | Some data => Some data
    | None =>
        match Files step !! "_doc/index.md" with
        | Some data => Some (Markdown data)
        | None => None
        end
    end in
  match justHTML with
  | None => inl ErrNoDocumentation
  | Some justHTML =>
      (* make sure it is well-formed utf8 *)
      if negb (ValidString justHTML) then inl ErrInvalidUTF8 else
      (* parse the html *)
      match html_Parse justHTML with
      | inl msg => inl (ErrHtmlParse msg)
      | inr None => inl ErrNilDocument
      | inr (Some doc) =>
          match walk (Files step) doc with
          | inl e => inl e
          | inr doc =>
              (* re-render it *)
              match html_Render doc with
              | inl msg => inl (ErrHtmlRender msg)
              | inr s => inr s
              end
          end
      end
  end.

(** The per-file clean-up of [ProblemStep.Normalize]. *)
Definition clean_file (name contents : string) : string :=
  let parts := Split name "/" in
  if ((length parts <? 2)%nat
      || negb (default false
                 (ProblemStepDirectoryWhitelist !! default "" (head parts))))
     && ValidString contents
  then fixLineEndings contents
  else if ValidString contents then fixNewLines contents
  else contents.

(** [ProblemStep.Normalize]: the step as it is left behind, and the error. *)
Definition ProblemStep_Normalize (n : Z) (step : ProblemStep)
    : ProblemStep * option Error :=
  let note := TrimSpace (StepNote step) in
  let step := mkProblemStep (ProblemID step) n note (Instructions step)
                (Weight step) (Files step) in
  if bool_decide (note = "") then (step, Some (ErrMissingStepNote (n + 1)))
  else
    match BuildInstructions step with
    | inl err => (step, Some (ErrBuildingInstructions (n + 1) err))
    | inr instructions =>
        let weight :=
          if float64_le_zero (Weight step) then float64_one
          else Weight step in
        let clean := map_imap (λ name contents,
                                 Some (clean_file name contents))
                       (Files step) in
        (mkProblemStep (ProblemID step) n note instructions weight clean,
         None)
    end.

(** [for n, step := range steps { step.Normalize(int64(n) + 1) }]: every
    step is normalised in place and the returned error is dropped. *)
Definition normalize_steps (steps : list ProblemStep) : list ProblemStep :=
  imap (λ n step, fst (ProblemStep_Normalize (Z.of_nat n + 1) step)) steps.

(** [Problem.Normalize]: the problem and the steps as they are left behind,
    and the returned error ([None] is Go's [nil]). *)
Definition Problem_Normalize (now : Time) (problem : Problem)
    (steps : list ProblemStep) : Problem * list ProblemStep * option Error :=
  (* make sure the unique ID is valid *)
  let unique := TrimSpace (Unique problem) in
  let problem := mkProblem (ID problem) unique (Note problem)
                   (ProblemType problem) (Tags problem) (Options problem)
                   (CreatedAt problem) (UpdatedAt problem) in
  if bool_decide (unique = "") then (problem, steps, Some ErrUniqueEmpty) else
  if bool_decide (QueryEscape unique ≠ unique)
  then (problem, steps,
        Some (ErrUniqueNotURLFriendly unique (QueryEscape unique))) else
  (* make sure the note is valid *)
  let note := TrimSpace (Note problem) in
  let problem := mkProblem (ID problem) unique note
                   (ProblemType problem) (Tags problem) (Options problem)
                   (CreatedAt problem) (UpdatedAt problem) in
  if bool_decide (note = "") then (problem, steps, Some ErrNoteEmpty) else
  (* check tags *)
  let tags := sort_Strings (TrimSpace <$> Tags problem) in
  (* check options *)
  let options := TrimSpace <$> Options problem in
  let problem := mkProblem (ID problem) unique note
                   (ProblemType problem) tags options
                   (CreatedAt problem) (UpdatedAt problem) in
  (* check steps *)
  if bool_decide (length steps = 0%nat)
  then (problem, steps, Some ErrNoSteps) else
  let steps := normalize_steps steps in
  (* sanity check timestamps *)
  if Before (CreatedAt problem) BeginningOfTime
     || After (CreatedAt problem) now
  then (problem, steps, Some (ErrCreatedAtInvalid (CreatedAt problem))) else
  if Before (UpdatedAt problem) (CreatedAt problem)
     || After (UpdatedAt problem) now
  then (problem, steps, Some (ErrUpdatedAtInvalid (UpdatedAt problem))) else
  (problem, steps, None).

(** [GetStepWhitelists]: the white list of commit files for each step. *)
Definition is_root_name (name : string) : bool :=
  (length (Split name "/") =? 1)%nat.

Definition step_whitelist (lists : list (gmap string bool))
    (step : ProblemStep) : gmap string bool :=
  (* carry everything forward *)
  let m : gmap string bool := ∅ in
  let m :=
    match last lists with
    | Some prev => map_fold (λ name _ m, <[name := true]> m) m prev
    | None => m
    end in
  (* add files defined in the root directory of the problem step *)
  map_fold (λ name _ m, if is_root_name name then <[name := true]> m else m)
    m (Files step).

Definition GetStepWhitelists (steps : list ProblemStep)
    : list (gmap string bool) :=
  foldl (λ lists step, lists ++ [step_whitelist lists step]) [] steps.

(** The root-level file names that a step introduces. *)
Definition root_names (step : ProblemStep) : gset string :=
  filter root_level (dom (Files step)).

(** [url.Values.Add] *)
Definition Add (key value : string) (v : Values) : Values :=
  <[key := default [] (v !! key) ++ [value]]> v.

Definition step_key (step : Z) (field : string) : string :=
  "step-" +:+ pretty step +:+ "-" +:+ field.

(** gather all relevant fields *)
Definition add_step (v : Values) (step : ProblemStep) : Values :=
  let v := Add (step_key (Step step) "note") (StepNote step) v in
  let v := Add (step_key (Step step) "weight")
             (FormatFloat (Weight step)) v in
  map_fold (λ name contents v,
              Add (step_key (Step step) ("file-" +:+ name)) contents v)
    v (Files step).

Definition signed_values (problem : Problem) (steps : list ProblemStep)
    : Values :=
  let v : Values := ∅ in
  let v := Add "id" (pretty (ID problem)) v in
  let v := Add "unique" (Unique problem) v in
  let v := Add "note" (Note problem) v in
  let v := Add "problemType" (ProblemType problem) v in
  let v := <["tags" := Tags problem]> v in
  let v := <["options" := Options problem]> v in
  let v := Add "createdAt"
             (FormatRFC3339 (Round (CreatedAt problem) Second)) v in
  let v := Add "updatedAt"
             (FormatRFC3339 (Round (UpdatedAt problem) Second)) v in
  foldl add_step v steps.

(** The values recorded under [key]; an absent key has none. *)
Definition values_of (v : Values) (key : string) : list string :=
  default [] (v !! key).

(** What [add_step] appends to the values under the key [k]. *)
Definition step_values (step : ProblemStep) (k : string) : list string :=
  (if decide (k = step_key (Step step) "note") then [StepNote step] else [])
  ++ (if decide (k = step_key (Step step) "weight")
      then [FormatFloat (Weight step)] else [])
  ++ match strip_prefix (step_key (Step step) "file-") k with
     | Some name => option_list (Files step !! name)
     | None => []
     end.

(** Modelled from the spec: one [key=value] item of the canonical string,
    key and value percent-escaped as in a URL query string ([encode] and its
    parts are defined outside the given sources). *)
Definition encode_item (kv : string * string) : string :=
  QueryEscape (fst kv) +:+ "=" +:+ QueryEscape (snd kv).

(** Modelled from the spec: the items of the canonical string, the keys in
    sorted order and the values of a key in stored order. *)
Definition encode_pairs (v : Values) : list (string * string) :=
  flat_map (λ k, pair k <$> values_of v k)
    (sort_Strings (fst <$> map_to_list v)).

(** Modelled from the spec: [encode], which [ComputeSignature] calls, is
    defined outside the given sources.  The specification describes it as a
    stable, injective encoding of the multi-map into one canonical string,
    namely URL query-string encoding with every reserved character
    percent-escaped: the items joined by [&]. *)
Definition encode (v : Values) : string :=
  String.concat "&" (encode_item <$> encode_pairs v).

(** [ComputeSignature]: the base64 text of the HMAC-SHA256, under [secret],
    of the encoded values. *)
Definition ComputeSignature (secret : string) (problem : Problem)
    (steps : list ProblemStep) : string :=
  let v := signed_values problem steps in
  (* compute signature *)
  let sum := hmac_sha256 secret (encode v) in
  base64_encode sum.

End WithRuntime.

End Problems.

(** ** The client-side file gatherer (the [gather] function of grind) *)

Module Filepath.

(** What [os.Lstat] and the file system hold for a path: a regular file
    with the outcome of reading it, a file that is neither regular nor a
    directory, a directory with its entries in the lexical order in which
    [filepath.Walk] visits them, or a path whose [Lstat] fails. *)
#[warnings="-register-all"]
Inductive Entry :=
  | Regular (read : string + string)
  | Irregular
  | Dir (entries : list (string * Entry))
  | LstatError (err : string).

Definition IsDir (e : Entry) : bool :=
  match e with Dir _ => true | _ => false end.

Definition IsRegular (e : Entry) : bool :=
  match e with Regular _ => true | _ => false end.

(** What a [WalkFunc] returns: [nil], [filepath.SkipDir], or an error. *)
Inductive Verdict :=
  | Continue
  | SkipDir
  | Abort (err : string).

Section Walk.
Context {S : Type}.
(** The callback gets the path (the names leading from the root), the file
    information, the [Lstat] error if any, and the state it closes over. *)
Context (walkFn : list string → Entry → option string → S → S * Verdict).

(** [filepath.walk]: call [walkFn] on the path, then descend into a
    directory unless told to skip it.  Listing a directory is taken to
    succeed. *)
Fixpoint walk (path : list string) (info : Entry) (st : S) {struct info}
    : S * Verdict :=
  let '(st, v) := walkFn path info None st in
  match v with
  | Abort err => (st, Abort err)
  | SkipDir => if IsDir info then (st, Continue) else (st, SkipDir)
  | Continue =>
      match info with
      | Dir entries =>
          (fix walk_names (entries : list (string * Entry)) (st : S)
             : S * Verdict :=
             match entries with
             | [] => (st, Continue)
             | (name, fileInfo) :: rest =>
                 let filename := path ++ [name] in
                 match fileInfo with
                 | LstatError err =>
                     let '(st, v) := walkFn filename fileInfo (Some err) st in
                     match v with
                     | Abort e => (st, Abort e)
                     | _ => walk_names rest st
                     end
                 | _ =>
                     let '(st, v) := walk filename fileInfo st in
                     match v with
                     | Continue => walk_names rest st
                     | SkipDir =>
                         if IsDir fileInfo then walk_names rest st
                         else (st, SkipDir)
                     | Abort e => (st, Abort e)
                     end
                 end
             end) entries st
      | _ => (st, Continue)
      end
  end.

(** [filepath.Walk]. *)
Definition Walk (root : Entry) (st : S) : S * Verdict :=
  match root with
  | LstatError err => walkFn [] root (Some err) st
  | _ => walk [] root st
  end.

End Walk.
End Filepath.

Module Grind.
Import Filepath.

(** The per-problem part of the [.grind] file that [gather] uses. *)
Record ProblemInfo := mkProblemInfo {
  ID : Z;
  Step : Z;
  Whitelist : gmap string bool
}.

(** Lines written with [log.Printf]. *)
Inductive LogLine :=
  | LogSkipping (name : string)
  | LogDidNotFindAll
  | LogNotFound (name : string).

#[export] Instance LogLine_eq_dec : EqDecision LogLine.
Proof. solve_decision. Defined.

(** The variables the walk callback closes over. *)
Record Gathered := mkGathered {
  files : gmap string string;
  log : list LogLine
}.

Section Gather.
(** The name of the per-problem-set configuration file, a constant declared
    outside the given sources. *)
Context (perProblemSetDotFile : string).

(** The function literal passed to [filepath.Walk]; [path = []] is the
    source's [path == problemDir]. *)
Definition gather_walkFn (info : ProblemInfo) (path : list string)
    (stat : Entry) (err : option string) (st : Gathered)
    : Gathered * Verdict :=
  (* skip errors, directories, non-regular files *)
  match err with
  | Some e => (st, Abort e)
  | None =>
      if bool_decide (path = []) then
        (* descent into the main directory *)
        (st, Continue)
      else if IsDir stat then (st, SkipDir)
      else if negb (IsRegular stat) then (st, Continue)
      else
        let name := default "" (last path) in
        (* skip our config file *)
        if bool_decide (name = perProblemSetDotFile) then (st, Continue)
        else if default false (Whitelist info !! name) then
          match stat with
          | Regular (inl e) => (st, Abort e)
          | Regular (inr contents) =>
              (mkGathered (<[name := contents]> (files st)) (log st),
               Continue)
          | _ => (st, Continue)
          end
        else
          (mkGathered (files st) (log st ++ [LogSkipping name]), Continue)
  end.

(** The outcome of the file-gathering part of [gather]: [log.Fatalf] ends
    the process, otherwise the files go into the commit. *)
Inductive Outcome :=
  | Fatal (log : list LogLine)
  | Files (files : gmap string string) (log : list LogLine).

(** gather the commit files from the file system *)
Definition gather_files (problemDir : Entry) (info : ProblemInfo) : Outcome :=
  let '(st, v) :=
    Walk (gather_walkFn info) problemDir (mkGathered ∅ []) in
  match v with
  | Abort _ | SkipDir => Fatal (log st)
  | Continue =>
      if bool_decide (size (files st) ≠ size (Whitelist info)) then
        Fatal (log st ++ [LogDidNotFindAll]
               ++ (LogNotFound <$>
                     filter (λ name, files st !! name = None)
                       (fst <$> map_to_list (Whitelist info))))
      else Files (files st) (log st)
  end.

(** The regular files of a directory tree that can be read, at any depth,
    with their base names. *)
Fixpoint regular_files (e : Entry) : list (string * string) :=
  match e with
  | Dir entries =>
      flat_map (λ '(name, child),
                  match child with
                  | Regular (inr contents) => [(name, contents)]
                  | _ => regular_files child
                  end) entries
  | _ => []
  end.

(** [info.Whitelist[name]] *)
Definition whitelisted (info : ProblemInfo) (name : string) : bool :=
  default false (Whitelist info !! name).

(** The walk restricted to the entries of the problem directory itself:
    what [filepath.Walk] with [gather_walkFn] is shown to amount to. *)
Fixpoint gather_top_level (info : ProblemInfo)
    (entries : list (string * Entry)) (st : Gathered) : Gathered * Verdict :=
  match entries with
  | [] => (st, Continue)
  | (name, e) :: rest =>
      match e with
      | LstatError err => (st, Abort err)
      | Dir _ | Irregular => gather_top_level info rest st
      | Regular r =>
          if bool_decide (name = perProblemSetDotFile)
          then gather_top_level info rest st
          else if whitelisted info name then
            match r with
            | inl err => (st, Abort err)
            | inr contents =>
                gather_top_level info rest
                  (mkGathered (<[name := contents]> (files st)) (log st))
            end
          else gather_top_level info rest
                 (mkGathered (files st) (log st ++ [LogSkipping name]))
      end
  end.

(** A directory entry with everything below it removed. *)
Definition prune (entry : string * Entry) : string * Entry :=
  match snd entry with
  | Dir _ => (fst entry, Dir [])
  | _ => entry
  end.

(** An entry of the problem directory that does not stop the walk: its
    [Lstat] succeeds, and it can be read if it is going to be. *)
Definition passable (info : ProblemInfo) (entry : string * Entry) : Prop :=
  match snd entry with
  | LstatError _ => False
  | Regular (inl _) =>
      fst entry = perProblemSetDotFile ∨ whitelisted info (fst entry) = false
  | _ => True
  end.

End Gather.
End Grind.


(** ** A runtime and data for evaluating the functions on examples *)

Module Samples.
Import Go Strings Html.

(** Test doubles for the library functions: weights are integral floats,
    text is ASCII, documents are plain text, and the MAC is a tagged copy
    of its input. *)
Definition is_ascii_space (c : ascii) : bool :=
  let n := nat_of_ascii c in ((9 <=? n) && (n <=? 13))%nat || (n =? 32)%nat.

Fixpoint trim_left (s : string) : string :=
  match s with
  | String c rest => if is_ascii_space c then trim_left rest else s
  | EmptyString => EmptyString
  end.

Definition trim_ascii (s : string) : string :=
  String.rev (trim_left (String.rev (trim_left s))).

Definition pad (width : nat) (n : Z) : string :=
  let s := pretty n in
  String.concat "" (replicate (width - String.length s) "0") +:+ s.

(** The civil date of a day number counted from 1970-01-01. *)
Definition civil_from_days (z : Z) : Z * Z * Z :=
  let z := z + 719468 in
  let era := z / 146097 in
  let doe := z - era * 146097 in
  let yoe := (doe - doe / 1460 + doe / 36524 - doe / 146096) / 365 in
  let doy := doe - (365 * yoe + yoe / 4 - yoe / 100) in
  let mp := (5 * doy + 2) / 153 in
  let d := doy - (153 * mp + 2) / 5 + 1 in
  let m := if mp <? 10 then mp + 3 else mp - 9 in
  (yoe + era * 400 + (if m <=? 2 then 1 else 0), m, d).

Definition format_rfc3339 (t : Time) : string :=
  let secs := t / Second in
  let '(y, m, d) := civil_from_days (secs / 86400) in
  let rem := secs mod 86400 in
  pad 4 y +:+ "-" +:+ pad 2 m +:+ "-" +:+ pad 2 d +:+ "T"
  +:+ pad 2 (rem / 3600) +:+ ":" +:+ pad 2 (rem mod 3600 / 60) +:+ ":"
  +:+ pad 2 (rem mod 60) +:+ "Z".

Definition text_document (s : string) : Node :=
  mkNode DocumentNode "" [] [mkNode TextNode s [] []].

Fixpoint render_text (n : Node) : string :=
  match n with
  | mkNode _ data _ children =>
      data +:+ String.concat "" (render_text <$> children)
  end.

#[export] Instance runtime : Problems.Runtime := {|
  Problems.Float64 := Z;
  Problems.float64_le_zero w := w <=? 0;
  Problems.float64_one := 1;
  Problems.FormatFloat w := pretty w;
  Problems.FormatRFC3339 := format_rfc3339;
  Problems.TrimSpace := trim_ascii;
  Problems.TrimSpace_empty := eq_refl;
  Problems.ValidString _ := true;
  Problems.Markdown s := s;
  Problems.html_Parse s := inr (Some (text_document s));
  Problems.html_Render n := inr (render_text n);
  Problems.base64_encode s := s;
  Problems.hmac_sha256 key msg := key +:+ ":" +:+ msg
|}.

(** A store with one assignment (number 3, of user 42) whose only commit
    is open, and submissions for it. *)
Definition t0 : Time := 1767225600 * Second.

Definition open_commit : Commits.Commit Z string string :=
  Commits.mkCommit 1 3 1 42 "" false "" 0 None
    {[ "main.py" := "print(0)" ]} [] t0 t0.

Definition db0 : Commits.DB Z string string :=
  Commits.mkDB [Commits.mkAssignment 3 42] [open_commit] 2.

Definition params0 : gmap string string := {[ "assignment_id" := "3" ]}.

Definition incoming (step : Z) (reportCard : option string)
    (transcript : list string) : Commits.Commit Z string string :=
  Commits.mkCommit 0 0 step 0 "save" false "second try" 0 reportCard
    {[ "main.py" := "print(1)" ]} transcript 0 0.

(** Two problems that differ only in the sub-second part of [CreatedAt],
    and a step list, for any runtime. *)
Definition problem_a : Problems.Problem :=
  Problems.mkProblem 7 "hello-world" "Hello, world" "python3unittest"
    ["intro"; "python"] [] (1451606400 * Second + 100000000)
    (1451610000 * Second).

Definition problem_b : Problems.Problem :=
  Problems.mkProblem 7 "hello-world" "Hello, world" "python3unittest"
    ["intro"; "python"] [] (1451606400 * Second + 200000000)
    (1451610000 * Second).

Definition steps_a `{Problems.Runtime} : list Problems.ProblemStep :=
  [ Problems.mkProblemStep 7 1 "Write the program" ""
      Problems.float64_one
      {[ "main.py" := "print('hello')";
         "_doc/index.md" := "Say hello." ]};
    Problems.mkProblemStep 7 2 "Test the program" ""
      Problems.float64_one
      {[ "tests/test_main.py" := "import main" ]} ].

(** Step 1 introduces [main.py], step 2 introduces [tests/test_main.py]. *)
Definition steps_example `{Problems.Runtime} : list Problems.ProblemStep :=
  [ Problems.mkProblemStep 7 1 "Write the program" ""
      Problems.float64_one {[ "main.py" := "print('hello')" ]};
    Problems.mkProblemStep 7 2 "Test the program" ""
      Problems.float64_one {[ "tests/test_main.py" := "import main" ]} ].

(** A problem whose only step has a blank note and no documentation. *)
Definition steps_blank `{Problems.Runtime} : list Problems.ProblemStep :=
  [ Problems.mkProblemStep 7 0 "   " "" Problems.float64_one
      {[ "main.py" := "print('hello')" ]} ].

(** A problem directory with a file at the top, the configuration file, a
    file that is not on the whitelist, and a subdirectory. *)
Definition problem_entries : list (string * Filepath.Entry) :=
  [ (".grind", Filepath.Regular (inr "{}"));
    ("main.py", Filepath.Regular (inr "print('hello')"));
    ("scratch.txt", Filepath.Regular (inr "notes"));
    ("tests", Filepath.Dir
       [ ("test_main.py", Filepath.Regular (inr "import main")) ]) ].

Definition problem_dir : Filepath.Entry := Filepath.Dir problem_entries.

Definition info_a : Grind.ProblemInfo :=
  Grind.mkProblemInfo 7 2 {[ "main.py" := true; "test_main.py" := true ]}.

Definition info_top : Grind.ProblemInfo :=
  Grind.mkProblemInfo 7 1 {[ "main.py" := true ]}.

End Samples.


(** ** The other handlers of [src/codegrinder/commits.go] *)

Module CommitQueries.
Import Go Commits.

Section WithPayloadTypes.
Context {Float64 ReportCard EventMessage : Type}.

(** What these handlers send back: an error, one commit, a list of commits,
    or nothing at all (the delete handlers, on success). *)
Inductive Reply :=
  | ReplyError (status : Z)
  | ReplyCommit (status : Z) (body : Commit Float64 ReportCard EventMessage)
  | ReplyCommits (status : Z)
      (body : list (Commit Float64 ReportCard EventMessage))
  | ReplyNothing.

(** [strconv.Atoi(params[key])] *)
Definition param (params : gmap string string) (key : string) : option Z :=
  Atoi (default "" (params !! key)).

(** [user_id = $1 AND assignment_id = $2] *)
Definition owned_by (user a : Z)
    (c : Commit Float64 ReportCard EventMessage) : bool :=
  (UserID c =? user) && (AssignmentID c =? a).

(** [id = $1 AND user_id = $2 AND assignment_id = $3] *)
Definition is_commit (id user a : Z)
    (c : Commit Float64 ReportCard EventMessage) : bool :=
  (ID c =? id) && owned_by user a c.

(** [ORDER BY created_at] and [ORDER BY created_at DESC].  Rows with equal
    [created_at] come in an order that SQL leaves open; the stable sort
    below picks one of them. *)
Definition created_le (c1 c2 : Commit Float64 ReportCard EventMessage)
    : Prop :=
  CreatedAt c1 ≤ CreatedAt c2.

Definition created_ge (c1 c2 : Commit Float64 ReportCard EventMessage)
    : Prop :=
  CreatedAt c2 ≤ CreatedAt c1.

#[local] Instance created_le_dec : RelDecision created_le :=
  λ c1 c2, decide (CreatedAt c1 ≤ CreatedAt c2).

#[local] Instance created_ge_dec : RelDecision created_ge :=
  λ c1 c2, decide (CreatedAt c2 ≤ CreatedAt c1).

(** [SELECT * FROM commits WHERE user_id = $1 AND assignment_id = $2
     ORDER BY created_at] *)
Definition select_commits (db : DB Float64 ReportCard EventMessage)
    (user a : Z) : list (Commit Float64 ReportCard EventMessage) :=
  merge_sort created_le (List.filter (owned_by user a) (commits db)).

(** [SELECT * FROM commits WHERE user_id = $1 AND assignment_id = $2
     ORDER BY created_at DESC LIMIT 1] *)
Definition select_last_commit (db : DB Float64 ReportCard EventMessage)
    (user a : Z) : option (Commit Float64 ReportCard EventMessage) :=
  head (merge_sort created_ge (List.filter (owned_by user a) (commits db))).

(** [SELECT * FROM commits WHERE id = $1 AND user_id = $2
     AND assignment_id = $3] *)
Definition select_commit (db : DB Float64 ReportCard EventMessage)
    (id user a : Z) : option (Commit Float64 ReportCard EventMessage) :=
  find (is_commit id user a) (commits db).

(** [DELETE FROM commits WHERE user_id = $1 AND assignment_id = $2] *)
Definition delete_commits (db : DB Float64 ReportCard EventMessage)
    (user a : Z) : DB Float64 ReportCard EventMessage :=
  mkDB (assignments db)
    (List.filter (λ c, negb (owned_by user a c)) (commits db))
    (commits_seq db).

(** [DELETE FROM commits WHERE id = $1 AND user_id = $2
     AND assignment_id = $3] *)
Definition delete_commit (db : DB Float64 ReportCard EventMessage)
    (id user a : Z) : DB Float64 ReportCard EventMessage :=
  mkDB (assignments db)
    (List.filter (λ c, negb (is_commit id user a c)) (commits db))
    (commits_seq db).

(** [GetUserMeAssignmentCommits]: the commits of the given assignment for
    the current user.  [fails] says whether the query ends in a database
    error. *)
Definition GetUserMeAssignmentCommits (fails : bool)
    (db : DB Float64 ReportCard EventMessage) (currentUser : Z)
    (params : gmap string string) : Reply :=
  match param params "assignment_id" with
  | None => ReplyError StatusBadRequest
  | Some assignmentID =>
      if fails then ReplyError StatusInternalServerError
      else ReplyCommits StatusOK (select_commits db currentUser assignmentID)
  end.

(** [GetUserMeAssignmentCommitLast]: the most recent commit of the given
    assignment for the current user. *)
Definition GetUserMeAssignmentCommitLast (fails : bool)
    (db : DB Float64 ReportCard EventMessage) (currentUser : Z)
    (params : gmap string string) : Reply :=
  match param params "assignment_id" with
  | None => ReplyError StatusBadRequest
  | Some assignmentID =>
      if fails then ReplyError StatusInternalServerError
      else match select_last_commit db currentUser assignmentID with
           | None => ReplyError StatusNotFound
           | Some commit => ReplyCommit StatusOK commit
           end
  end.

(** [GetUserMeAssignmentCommit]: the given commit of the given assignment
    for the current user. *)
Definition GetUserMeAssignmentCommit (fails : bool)
    (db : DB Float64 ReportCard EventMessage) (currentUser : Z)
    (params : gmap string string) : Reply :=
  match param params "assignment_id" with
  | None => ReplyError StatusBadRequest
  | Some assignmentID =>
      match param params "commit_id" with
      | None => ReplyError StatusBadRequest
      | Some commitID =>
          if fails then ReplyError StatusInternalServerError
          else match select_commit db commitID currentUser assignmentID with
               | None => ReplyError StatusNotFound
               | Some commit => ReplyCommit StatusOK commit
               end
      end
  end.

(** [GetUserAssignmentCommits]: the same for the user named in the URL. *)
Definition GetUserAssignmentCommits (fails : bool)
    (db : DB Float64 ReportCard EventMessage)
    (params : gmap string string) : Reply :=
  match param params "user_id" with
  | None => ReplyError StatusBadRequest
  | Some userID =>
      match param params "assignment_id" with
      | None => ReplyError StatusBadRequest
      | Some assignmentID =>
          if fails then ReplyError StatusInternalServerError
          else ReplyCommits StatusOK (select_commits db userID assignmentID)
      end
  end.

(** [GetUserAssignmentCommitLast] *)
Definition GetUserAssignmentCommitLast (fails : bool)
    (db : DB Float64 ReportCard EventMessage)
    (params : gmap string string) : Reply :=
  match param params "user_id" with
  | None => ReplyError StatusBadRequest
  | Some userID =>
      match param params "assignment_id" with
      | None => ReplyError StatusBadRequest
      | Some assignmentID =>
          if fails then ReplyError StatusInternalServerError
          else match select_last_commit db userID assignmentID with
               | None => ReplyError StatusNotFound
               | Some commit => ReplyCommit StatusOK commit
               end
      end
  end.

(** [GetUserAssignmentCommit] *)
Definition GetUserAssignmentCommit (fails : bool)
    (db : DB Float64 ReportCard EventMessage)
    (params : gmap string string) : Reply :=
  match param params "user_id" with
  | None => ReplyError StatusBadRequest
  | Some userID =>
      match param params "assignment_id" with
      | None => ReplyError StatusBadRequest
      | Some assignmentID =>
          match param params "commit_id" with
          | None => ReplyError StatusBadRequest
          | Some commitID =>
              if fails then ReplyError StatusInternalServerError
              else match select_commit db commitID userID assignmentID with
                   | None => ReplyError StatusNotFound
                   | Some commit => ReplyCommit StatusOK commit
                   end
          end
      end
  end.

(** [DeleteUserAssignmentCommits]: delete all commits of the given
    assignment for the given user. *)
Definition DeleteUserAssignmentCommits (fails : bool)
    (db : DB Float64 ReportCard EventMessage)
    (params : gmap string string)
    : Reply * DB Float64 ReportCard EventMessage :=
  match param params "user_id" with
  | None => (ReplyError StatusBadRequest, db)
  | Some userID =>
      match param params "assignment_id" with
      | None => (ReplyError StatusBadRequest, db)
      | Some assignmentID =>
          if fails then (ReplyError StatusInternalServerError, db)
          else (ReplyNothing, delete_commits db userID assignmentID)
      end
  end.

(** [DeleteUserAssignmentCommit]: delete the given commit of the given
    assignment for the given user. *)
Definition DeleteUserAssignmentCommit (fails : bool)
    (db : DB Float64 ReportCard EventMessage)
    (params : gmap string string)
    : Reply * DB Float64 ReportCard EventMessage :=
  match param params "user_id" with
  | None => (ReplyError StatusBadRequest, db)
  | Some userID =>
      match param params "assignment_id" with
      | None => (ReplyError StatusBadRequest, db)
      | Some assignmentID =>
          match param params "commit_id" with
          | None => (ReplyError StatusBadRequest, db)
          | Some commitID =>
              if fails then (ReplyError StatusInternalServerError, db)
              else (ReplyNothing,
                    delete_commit db commitID userID assignmentID)
          end
      end
  end.

(** The row that [PostUserAssignmentCommit] hands to [meddler.Save] when it
    has settled on the key [id] and the creation time [created]. *)
Definition prepared (now : Time) (user a id : Z) (created : Time)
    (commit : Commit Float64 ReportCard EventMessage)
    : Commit Float64 ReportCard EventMessage :=
  let c := set_UserID user
             (set_AssignmentID a (set_CreatedAt created (set_ID id commit))) in
  set_UpdatedAt now (if carries_grading c then set_Closed true c else c).

End WithPayloadTypes.

Arguments Reply : clear implicits.

End CommitQueries.

(** ** Problem sets of [types/problem.go] *)

Module ProblemSets.
Import Go Strings Problems.

Section WithRuntime.
Context `{Runtime}.

Record ProblemSet := mkProblemSet {
  ID : Z;
  Unique : string;
  Note : string;
  Tags : list string;
  CreatedAt : Time;
  UpdatedAt : Time
}.

(** The errors [ProblemSet.Normalize] returns. *)
Inductive Error :=
  | ErrUniqueEmpty
  | ErrUniqueNotURLFriendly (unique escaped : string)
  | ErrNoteEmpty
  | ErrCreatedAtInvalid (t : Time)
  | ErrUpdatedAtInvalid (t : Time).

(** [ProblemSet.Normalize]: the set as it is left behind, and the returned
    error ([None] is Go's [nil]). *)
Definition Normalize (now : Time) (set : ProblemSet)
    : ProblemSet * option Error :=
  (* make sure the unique ID is valid *)
  let unique := TrimSpace (Unique set) in
  let set := mkProblemSet (ID set) unique (Note set) (Tags set)
               (CreatedAt set) (UpdatedAt set) in
  if bool_decide (unique = "") then (set, Some ErrUniqueEmpty) else
  if bool_decide (QueryEscape unique ≠ unique)
  then (set, Some (ErrUniqueNotURLFriendly unique (QueryEscape unique))) else
  (* make sure the note is valid *)
  let note := TrimSpace (Note set) in
  let set := mkProblemSet (ID set) unique note (Tags set)
               (CreatedAt set) (UpdatedAt set) in
  if bool_decide (note = "") then (set, Some ErrNoteEmpty) else
  (* check tags *)
  let tags := sort_Strings (TrimSpace <$> Tags set) in
  let set := mkProblemSet (ID set) unique note tags
               (CreatedAt set) (UpdatedAt set) in
  (* sanity check timestamps *)
  if Before (CreatedAt set) BeginningOfTime || After (CreatedAt set) now
  then (set, Some (ErrCreatedAtInvalid (CreatedAt set))) else
  if Before (UpdatedAt set) (CreatedAt set) || After (UpdatedAt set) now
  then (set, Some (ErrUpdatedAtInvalid (UpdatedAt set))) else
  (set, None).

(** The error of [Problem.Normalize] that reports the same defect. *)
Definition as_problem_error (e : Error) : Problems.Error :=
  match e with
  | ErrUniqueEmpty => Problems.ErrUniqueEmpty
  | ErrUniqueNotURLFriendly u esc => Problems.ErrUniqueNotURLFriendly u esc
  | ErrNoteEmpty => Problems.ErrNoteEmpty
  | ErrCreatedAtInvalid t => Problems.ErrCreatedAtInvalid t
  | ErrUpdatedAtInvalid t => Problems.ErrUpdatedAtInvalid t
  end.

End WithRuntime.
End ProblemSets.

(** ** The images of a parsed document *)

Module Images.
Import Strings Html Problems.

(** [n.Type == html.ElementNode && n.Data == "img"] *)
Definition is_img (type : NodeType) (data : string) : bool :=
  match type with
  | ElementNode => bool_decide (data = "img")
  | _ => false
  end.

(** The values of the [src] attributes among [attrs], in order. *)
Definition src_values (attrs : list Attribute) : list string :=
  Val <$> List.filter (λ a, bool_decide (Key a = "src")) attrs.

(** The [src] values of the [img] elements of a document, in document
    order. *)
Fixpoint image_sources (n : Node) : list string :=
  match n with
  | mkNode type data attr children =>
      (if is_img type data then src_values attr else [])
      ++ flat_map image_sources children
  end.

(** The document with the [src] values of its [img] elements blanked: what
    is left of it when the images are disregarded. *)
Definition blank_src (a : Attribute) : Attribute :=
  if bool_decide (Key a = "src") then mkAttribute (Namespace a) (Key a) ""
  else a.

Fixpoint without_sources (n : Node) : Node :=
  match n with
  | mkNode type data attr children =>
      mkNode type data
        (if is_img type data then map blank_src attr else attr)
        (map without_sources children)
  end.

Section WithRuntime.
Context `{Runtime}.

(** [fmt.Sprintf("data:%s;base64,%s", mime, s)] for the image file that
    [val] names. *)
Definition data_uri (files : gmap string string) (val : string) : string :=
  match files !! ("_doc/" +:+ val), image_mime val with
  | Some contents, Some mime =>
      "data:" +:+ mime +:+ ";base64," +:+ base64_encode contents
  | _, _ => val
  end.

(** An image that can be inlined: its file is among [files] and the type
    of the file is known. *)
Definition inlinable (files : gmap string string) (val : string) : Prop :=
  is_Some (files !! ("_doc/" +:+ val)) ∧ is_Some (image_mime val).

(** The error that [walk] returns for an image that cannot be inlined. *)
Definition image_error (files : gmap string string) (val : string)
    : Problems.Error :=
  match files !! ("_doc/" +:+ val) with
  | Some _ => ErrUnknownImageType val
  | None => ErrImageNotFound val
  end.

(** What [walk] is shown to report on the sources [vals]: nothing when all
    can be inlined, otherwise the error of the first that cannot. *)
Inductive Inlining (files : gmap string string) (vals : list string)
    : option Problems.Error → Prop :=
  | AllInlinable : Forall (inlinable files) vals → Inlining files vals None
  | FirstBad l1 v l2 :
      vals = l1 ++ v :: l2 → Forall (inlinable files) l1 →
      ¬ inlinable files v →
      Inlining files vals (Some (image_error files v)).

End WithRuntime.
End Images.

(** ** Sample problems *)

Module ProblemSamples.
Import Go Strings Html Samples.

(** A problem as an author may submit it: blanks around the fields, the
    tags out of order. *)
Definition problem_raw : Problems.Problem :=
  Problems.mkProblem 7 " hello-world " "  Hello, world" "python3unittest"
    [" python"; "intro "] [" -v"] (1451606400 * Second)
    (1451610000 * Second).

(** The same without a note. *)
Definition problem_unnamed : Problems.Problem :=
  Problems.mkProblem 7 " hello-world " "   " "python3unittest"
    [" python"; "intro "] [" -v"] (1451606400 * Second)
    (1451610000 * Second).

(** A problem set with the fields of [problem_raw]. *)
Definition set_raw : ProblemSets.ProblemSet :=
  ProblemSets.mkProblemSet 3 " hello-world " "  Hello, world"
    [" python"; "intro "] (1451606400 * Second) (1451610000 * Second).

(** The steps of [steps_a] with other instructions and another problem. *)
Definition steps_a' `{Problems.Runtime} : list Problems.ProblemStep :=
  [ Problems.mkProblemStep 8 1 "Write the program" "<p>Say hello.</p>"
      Problems.float64_one
      {[ "main.py" := "print('hello')";
         "_doc/index.md" := "Say hello." ]};
    Problems.mkProblemStep 8 2 "Test the program" "<p>Test it.</p>"
      Problems.float64_one
      {[ "tests/test_main.py" := "import main" ]} ].

(** A parser double that reads its input as the name of one image, and a
    renderer double that lists the image sources of a document. *)
Definition picture (src : string) : Node :=
  mkNode DocumentNode "" []
    [ mkNode ElementNode "img"
        [ mkAttribute "" "src" src; mkAttribute "" "alt" "logo" ] [] ].

Definition picture_runtime : Problems.Runtime := {|
  Problems.Float64 := Z;
  Problems.float64_le_zero w := w <=? 0;
  Problems.float64_one := 1;
  Problems.FormatFloat w := pretty w;
  Problems.FormatRFC3339 := format_rfc3339;
  Problems.TrimSpace := trim_ascii;
  Problems.TrimSpace_empty := eq_refl;
  Problems.ValidString _ := true;
  Problems.Markdown s := s;
  Problems.html_Parse s := inr (Some (picture s));
  Problems.html_Render n := inr (String.concat " " (Images.image_sources n));
  Problems.base64_encode s := s;
  Problems.hmac_sha256 key msg := key +:+ ":" +:+ msg
|}.

Definition step_picture : Problems.ProblemStep (H := picture_runtime) :=
  Problems.mkProblemStep (H := picture_runtime) 7 1 "Look at the logo" "" 1
    {[ "_doc/index.html" := "logo.png"; "_doc/logo.png" := "PNG" ]}.

End ProblemSamples.

(** ** The [save] command of the [grind] tool *)

Module Workspace.
Import Go Filepath.

(** A directory as the tool names it: the start directory as it was given
    on the command line, or an absolute path -- the list of its elements
    below the root -- that [filepath.Abs] returned or [filepath.Dir] derived
    from one. *)
Inductive Location :=
  | Given (startDir : string)
  | Absolute (elems : list string).

#[export] Instance Location_eq_dec : EqDecision Location.
Proof. solve_decision. Defined.

(** [filepath.Dir] of an absolute path: its parent; the root is its own
    parent. *)
Definition filepath_Dir (elems : list string) : list string :=
  removelast elems.

(** The file part of [filepath.Split] of an absolute path: its last
    element, empty for the root. *)
Definition filepath_Split_file (elems : list string) : string :=
  default "" (last elems).

(** What [os.Stat] says: the file is there, [os.IsNotExist], or another
    error. *)
Inductive StatResult :=
  | StatOK
  | StatNotExist
  | StatError (err : string).

(** The contents of the per-problem-set file: [map[string]*ProblemInfo]
    may hold nil pointers. *)
Record DotFileInfo := mkDotFileInfo {
  AssignmentID : Z;
  Problems : gmap string (option Grind.ProblemInfo);
  (** the directory of the file; its name is [perProblemSetDotFile] *)
  Path : option Location
}.

(** The fields of the client's [Commit] that the sources name. *)
Record Commit := mkCommit {
  ID : Z;
  Commit_AssignmentID : Z;
  ProblemID : Z;
  Step : Z;
  Action : string;
  Note : string;
  Files : gmap string string;
  CreatedAt : Time;
  UpdatedAt : Time
}.

(** Why the tool ended in [log.Fatalf]. *)
Inductive Fatal :=
  | FatalConfig (err : string)
  | FatalAbs (err : string)
  | FatalNotFound
  | FatalStat (err : string)
  | FatalRead (err : string)
  | FatalParse (err : string)
  | FatalGet (err : string)
  | FatalMustIdentify
  | FatalUnrecognized (unique : string)
  | FatalFiles (log : list Grind.LogLine)
  | FatalPost (err : string).

(** A run of the tool: it returns, it exits through [log.Fatalf], or the
    unrolling of a loop was too short. *)
Inductive Run (A : Type) :=
  | Returns (a : A)
  | Exits (cause : Fatal)
  | OutOfFuel.
Arguments Returns {A} a.
Arguments Exits {A} cause.
Arguments OutOfFuel {A}.

Definition bind {A B} (m : Run A) (k : A → Run B) : Run B :=
  match m with
  | Returns a => k a
  | Exits cause => Exits cause
  | OutOfFuel => OutOfFuel
  end.

(** [must...]: exit on an error. *)
Definition must {A} (r : string + A) (cause : string → Fatal) : Run A :=
  match r with
  | inl err => Exits (cause err)
  | inr a => Returns a
  end.

(** What [CommandSave] did when it returned: it showed the help text, or it
    posted a commit bundle with this commit. *)
Inductive Saved :=
  | Help
  | Posted (commit : Commit).

Section WithSystem.
(** The name of the per-problem-set file, declared outside the given
    sources. *)
Context (perProblemSetDotFile : string).
(** The objects fetched from the server, which the tool passes along. *)
Context {Assignment Problem : Type}.
(** The file system and the server, as the tool meets them:
    [os.Stat] and [ioutil.ReadFile] of the per-problem-set file of a
    directory, [filepath.Abs], [json.Unmarshal], the tree below a directory
    as [filepath.Walk] visits it, [mustLoadConfig], and the requests
    [mustGetObject] and [mustPostObject] send. *)
Context (Stat : Location → StatResult)
        (ReadFile : Location → string + string)
        (Abs : string → string + list string)
        (Unmarshal : string → string + DotFileInfo)
        (Tree : Location → Entry)
        (LoadConfig : string + unit)
        (GetAssignment : Z → string + Assignment)
        (GetProblem : Z → string + Problem)
        (PostUnsigned : Commit → string + unit).

Notation "x ← m ; k" := (bind m (λ x, k))
  (at level 20, m at level 100, k at level 200, only parsing).
Notation "' p ← m ; k" := (bind m (λ x, let 'p := x in k))
  (at level 20, p pattern, m at level 100, k at level 200, only parsing).

(** The loop of [findDotFile], unrolled at most [fuel] times.  The flag
    [abs] of the source is [true] exactly when [problemSetDir] is
    [Absolute]. *)
Fixpoint search (fuel : nat) (problemSetDir : Location)
    (problemDir : option (list string))
    : Run (Location * option (list string)) :=
  match fuel with
  | O => OutOfFuel
  | S fuel =>
      match Stat problemSetDir with
      | StatOK => Returns (problemSetDir, problemDir)
      | StatNotExist =>
          elems ← match problemSetDir with
                  | Given dir => must (Abs dir) FatalAbs
                  | Absolute elems => Returns elems
                  end;
          (* try moving up a directory *)
          let problemDir := elems in
          let problemSetDir := filepath_Dir elems in
          if bool_decide (problemSetDir = problemDir) then Exits FatalNotFound
          else search fuel (Absolute problemSetDir) (Some problemDir)
      | StatError err => Exits (FatalStat err)
      end
  end.

(** The directories from [anc] (exclusive) down to [elems] (inclusive)
    have no per-problem-set file. *)
Definition none_below (anc elems : list string) : Prop :=
  ∀ d, anc `prefix_of` d → d `prefix_of` elems → d ≠ anc →
       Stat (Absolute d) = StatNotExist.

(** One turn for the start directory, one for each of its ancestors, and
    one to stop at the root. *)
Definition turns (startDir : string) : nat :=
  match Abs startDir with
  | inr elems => S (S (length elems))
  | inl _ => 1
  end.

(** [findDotFile]: the per-problem-set file, its directory, and the
    directory one step below it on the way to [startDir] ([None] is the
    empty string of the source). *)
Definition findDotFile (startDir : string)
    : Run (DotFileInfo * Location * option (list string)) :=
  '(problemSetDir, problemDir) ←
    search (turns startDir) (Given startDir) None;
  (* read the .grind file *)
  contents ← must (ReadFile problemSetDir) FatalRead;
  dotfile ← must (Unmarshal contents) FatalParse;
  let dotfile := mkDotFileInfo (AssignmentID dotfile) (Problems dotfile)
                   (Some problemSetDir) in
  Returns (dotfile, problemSetDir, problemDir).

(** [gather]: the problem, the assignment, the commit to send, and the
    per-problem-set file. *)
Definition gather (now : Time) (startDir : string)
    : Run (Problem * Assignment * Commit * DotFileInfo) :=
  (* find the .grind file containing the problem set info *)
  '(dotfile, problemSetDir, problemDir) ← findDotFile startDir;
  (* get the assignment *)
  assignment ← must (GetAssignment (AssignmentID dotfile)) FatalGet;
  (* get the problem *)
  '(unique, problemDir) ←
    (if bool_decide (size (Problems dotfile) = 1%nat) then
       (* only one problem? files should be in dotfile directory *)
       Returns (default "" (fst <$> head (map_to_list (Problems dotfile))),
                problemSetDir)
     else
       (* use the subdirectory name to identify the problem *)
       match problemDir with
       | None => Exits FatalMustIdentify
       | Some elems => Returns (filepath_Split_file elems, Absolute elems)
       end);
  info ← match Problems dotfile !! unique with
         | Some (Some info) => Returns info
         | _ => Exits (FatalUnrecognized unique)
         end;
  problem ← must (GetProblem (Grind.ID info)) FatalGet;
  (* gather the commit files from the file system *)
  files ← match Grind.gather_files perProblemSetDotFile (Tree problemDir)
                  info with
          | Grind.Fatal log => Exits (FatalFiles log)
          | Grind.Files files _ => Returns files
          end;
  (* form a commit object *)
  let commit := mkCommit 0 (AssignmentID dotfile) (Grind.ID info)
                  (Grind.Step info) "" "" files now now in
  Returns (problem, assignment, commit, dotfile).

(** [CommandSave] *)
Definition CommandSave (now : Time) (args : list string) : Run Saved :=
  _ ← must LoadConfig FatalConfig;
  (* find the directory *)
  dir ← match args with
        | [] => Returns (Some ".")
        | [dir] => Returns (Some dir)
        | _ => Returns None
        end;
  match dir with
  | None => Returns Help
  | Some dir =>
      '(problem, _, commit, _) ← gather now dir;
      let commit := mkCommit (ID commit) (Commit_AssignmentID commit)
                      (ProblemID commit) (Step commit) ""
                      "saving from grind tool" (Files commit)
                      (CreatedAt commit) (UpdatedAt commit) in
      (* send the commit to the server *)
      _ ← must (PostUnsigned commit) FatalPost;
      Returns (Posted commit)
  end.

End WithSystem.
End Workspace.

(** ** A sample workspace *)

Module WorkspaceSamples.
Import Go Filepath Samples Workspace.

(** The problem set lives in [/home/u/set], with one directory per problem;
    the tool is started in [/home/u/set/hello/src]. *)
Definition set_dir : list string := ["home"; "u"; "set"].

Definition Abs (dir : string) : string + list string :=
  if bool_decide (dir = ".") then inr (set_dir ++ ["hello"; "src"])
  else inl "no such directory".

Definition Stat (dir : Location) : StatResult :=
  match dir with
  | Absolute elems =>
      if bool_decide (elems = set_dir) then StatOK else StatNotExist
  | Given _ => StatNotExist
  end.

Definition ReadFile (dir : Location) : string + string := inr "{}".

Definition parsed : DotFileInfo :=
  mkDotFileInfo 3 {[ "hello" := Some info_top; "bye" := Some info_a ]} None.

Definition Unmarshal (contents : string) : string + DotFileInfo := inr parsed.

Definition Tree (dir : Location) : Entry :=
  if bool_decide (dir = Absolute (set_dir ++ ["hello"])) then problem_dir
  else LstatError "no such directory".

(** The server answers every request; an object is stood for by its key. *)
Definition GetObject (id : Z) : string + Z := inr id.

Definition PostUnsigned (commit : Commit) : string + unit := inr tt.

Definition gathered : Commit :=
  mkCommit 0 3 7 1 "" "" {[ "main.py" := "print('hello')" ]} t0 t0.

Definition dotfile : DotFileInfo :=
  mkDotFileInfo 3 {[ "hello" := Some info_top; "bye" := Some info_a ]}
    (Some (Absolute set_dir)).

End WorkspaceSamples.

(** ** Sample stores for the handlers *)

Module MoreSamples.
Import Go Samples.

(** A store with three assignments and four commits: two closed ones and an
    open one of user 42 for assignment 3, stored out of creation order, and
    an open one of user 7 for assignment 5. *)
Definition stored (id a step user : Z) (closed : bool) (created : Time)
    : Commits.Commit Z string string :=
  Commits.mkCommit id a step user "save" closed "" 0 None
    {[ "main.py" := "print(0)" ]} [] created created.

Definition k1 := stored 1 3 1 42 true (t0 + 2 * Minute).
Definition k2 := stored 2 5 1 7 false (t0 + 1 * Minute).
Definition k3 := stored 3 3 1 42 true t0.
Definition k4 := stored 4 3 2 42 false (t0 + 5 * Minute).

Definition db1 : Commits.DB Z string string :=
  Commits.mkDB
    [Commits.mkAssignment 3 42; Commits.mkAssignment 4 42;
     Commits.mkAssignment 5 7]
    [k1; k2; k3; k4] 5.

Definition url (user a : string) : gmap string string :=
  {[ "user_id" := user; "assignment_id" := a ]}.

Definition url_commit (user a id : string) : gmap string string :=
  <[ "commit_id" := id ]> (url user a).

(** A submission without files. *)
Definition no_files : Commits.Commit Z string string :=
  Commits.mkCommit 0 0 1 0 "save" false "" 0 None ∅ [] 0 0.
End MoreSamples.

(** ** Properties of the commit session manager *)

Module CommitProps.
Import Go Commits.

Section WithPayloadTypes.
Context {Float64 ReportCard EventMessage : Type}.
Abbreviation Commit := (Commit Float64 ReportCard EventMessage).
Abbreviation DB := (DB Float64 ReportCard EventMessage).

Implicit Types (db : DB) (c oc commit : Commit) (a : Z) (now : Time).

Lemma Sub_exceeds_timeout (now u : Time) :
  (openCommitTimeout <? Sub now u) = true ↔ now - u > 20 * 60 * 1000000000.
Proof.
  unfold Sub, openCommitTimeout, Minute, Second, minDuration, maxDuration.
  repeat case_match; lia.
Qed.

Lemma must_close_spec now oc commit :
  must_close now oc commit = true ↔
  now - UpdatedAt oc > 20 * 60 * 1000000000
  ∨ ProblemStepNumber oc ≠ ProblemStepNumber commit.
Proof.
  unfold must_close. rewrite orb_true_iff, Sub_exceeds_timeout, negb_true_iff.
  rewrite Z.eqb_neq. reflexivity.
Qed.

Lemma must_close_false now oc commit :
  must_close now oc commit = false ↔
  now - UpdatedAt oc ≤ 20 * 60 * 1000000000
  ∧ ProblemStepNumber oc = ProblemStepNumber commit.
Proof.
  rewrite <- not_true_iff_false, must_close_spec. lia.
Qed.

Lemma query_open_commit_Some db a oc :
  query_open_commit db a = Some oc →
  In oc (commits db) ∧ Closed oc = false ∧ AssignmentID oc = a.
Proof.
  unfold query_open_commit. intros H. apply find_some in H as [Hin Hopen].
  unfold is_open_for in Hopen. apply andb_true_iff in Hopen as [Hc Ha].
  apply negb_true_iff in Hc. apply Z.eqb_eq in Ha. auto.
Qed.

Lemma query_open_commit_None db a :
  query_open_commit db a = None → count_open a (commits db) = 0%nat.
Proof.
  unfold query_open_commit, count_open. intros H.
  induction (commits db) as [|r rs IH]; simpl in *; [done|].
  destruct (is_open_for a r); [done | auto].
Qed.

Lemma update_row_self c' r : ID r = ID c' → update_row c' r = c'.
Proof. intros E. unfold update_row. by rewrite E, Z.eqb_refl. Qed.

Lemma In_db_update db c' r :
  In r (commits db) → ID r = ID c' → In c' (commits (db_update db c')).
Proof.
  intros Hin E. simpl. apply in_map_iff. exists r. split; [|done].
  by apply update_row_self.
Qed.

Ltac run_handler :=
  unfold run, PostUserAssignmentCommit, bind, ret, respond, read, write,
    error_if; simpl.

(** C1. When the open commit of the assignment is stale (more than twenty
    minutes since its [UpdatedAt]) or belongs to another step, an accepted
    submission closes it -- the row is written back with [Closed = true] and
    [UpdatedAt = now] -- and the submission itself is handed to the store
    with [ID = 0] and [CreatedAt = now], hence inserted as a new row. *)
Theorem stale_open_commit_is_closed_and_fresh_commit_stored
    now user params commit db a oc :
  accepted db user params commit a →
  query_open_commit db a = Some oc →
  (now - UpdatedAt oc > 20 * 60 * 1000000000
   ∨ ProblemStepNumber oc ≠ ProblemStepNumber commit) →
  ∃ fresh saved db',
    run (PostUserAssignmentCommit now no_faults user params commit) db
      = (JSON StatusOK saved, db')
    ∧ In (set_UpdatedAt now (set_Closed true oc)) (commits db')
    ∧ ID fresh = 0 ∧ CreatedAt fresh = now
    ∧ Submission fresh = Submission commit
    ∧ ProblemStepNumber fresh = ProblemStepNumber commit
    ∧ (saved, db')
        = db_insert (db_update db (set_UpdatedAt now (set_Closed true oc)))
            fresh
    ∧ In saved (commits db')
    ∧ ID saved = commits_seq db ∧ CreatedAt saved = now.
Proof.
  intros (Hatoi & [asg Hasg] & Hsub) Hopen Hstale.
  apply must_close_spec in Hstale.
  apply query_open_commit_Some in Hopen as Hoc. destruct Hoc as (Hin & _ & _).
  destruct (run _ db) as [resp db'] eqn:Hrun. revert Hrun. run_handler.
  rewrite Hatoi, Hasg. simpl.
  rewrite bool_decide_false by done. simpl.
  rewrite Hopen, Hstale. simpl.
  unfold db_save.
  match goal with |- context [db_insert _ (set_UpdatedAt now ?x)] =>
    remember x as prepared eqn:Hprep;
    assert (ID prepared = 0) as Hid by (subst prepared; by case_match)
  end.
  simpl. rewrite Hid. simpl. intros [= <- <-].
  exists (set_UpdatedAt now prepared). eexists _, _.
  split; [reflexivity|]. simpl.
  split.
  { apply in_or_app. left. apply in_map_iff. exists oc. split; [|done].
    by apply update_row_self. }
  assert (ID prepared = 0 ∧ CreatedAt prepared = now
          ∧ Submission prepared = Submission commit
          ∧ ProblemStepNumber prepared = ProblemStepNumber commit)
    as (? & ? & ? & ?) by (subst prepared; by case_match).
  repeat split; try done.
  apply in_or_app. right. by left.
Qed.

Lemma wf_db_ID_nonzero db c : wf_db db → In c (commits db) → ID c ≠ 0.
Proof.
  intros (_ & Hpos & _) Hin. rewrite Forall_forall in Hpos.
  apply list_elem_of_In, Hpos in Hin. lia.
Qed.

(** C2. When the open commit of the assignment is neither stale nor at
    another step, an accepted submission is merged into it: the stored row
    keeps the open commit's [ID] and [CreatedAt], takes the submission
    files, action, comment, report card and transcript of the incoming
    commit, and has [UpdatedAt = now]; no row is added. *)
Theorem live_open_commit_is_merged now user params commit db a oc :
  wf_db db →
  accepted db user params commit a →
  query_open_commit db a = Some oc →
  now - UpdatedAt oc ≤ 20 * 60 * 1000000000 →
  ProblemStepNumber oc = ProblemStepNumber commit →
  ∃ saved db',
    run (PostUserAssignmentCommit now no_faults user params commit) db
      = (JSON StatusOK saved, db')
    ∧ ID saved = ID oc ∧ CreatedAt saved = CreatedAt oc
    ∧ Submission saved = Submission commit
    ∧ Action saved = Action commit
    ∧ Comment saved = Comment commit
    ∧ ReportCard_ saved = ReportCard_ commit
    ∧ Transcript saved = Transcript commit
    ∧ UpdatedAt saved = now
    ∧ db' = db_update db saved
    ∧ In saved (commits db')
    ∧ length (commits db') = length (commits db).
Proof.
  intros Hwf (Hatoi & [asg Hasg] & Hsub) Hopen Hidle Hstep.
  assert (must_close now oc commit = false) as Hlive
    by (by apply must_close_false).
  apply query_open_commit_Some in Hopen as Hoc. destruct Hoc as (Hin & _ & _).
  pose proof (wf_db_ID_nonzero _ _ Hwf Hin) as Hnz.
  destruct (run _ db) as [resp db'] eqn:Hrun. revert Hrun. run_handler.
  rewrite Hatoi, Hasg. simpl.
  rewrite bool_decide_false by done. simpl.
  rewrite Hopen, Hlive. simpl.
  unfold db_save.
  match goal with |- context [db_insert _ (set_UpdatedAt now ?x)] =>
    remember x as prepared eqn:Hprep
  end.
  assert (ID prepared = ID oc ∧ CreatedAt prepared = CreatedAt oc
          ∧ Submission prepared = Submission commit
          ∧ Action prepared = Action commit
          ∧ Comment prepared = Comment commit
          ∧ ReportCard_ prepared = ReportCard_ commit
          ∧ Transcript prepared = Transcript commit)
    as (Hid & ? & ? & ? & ? & ? & ?) by (subst prepared; by case_match).
  simpl. rewrite Hid. apply Z.eqb_neq in Hnz. rewrite Hnz. simpl.
  intros [= <- <-]. eexists _, _. split; [reflexivity|]. simpl.
  repeat split; try done.
  - apply in_map_iff. exists oc. split; [|done]. by apply update_row_self.
  - by rewrite length_map.
Qed.

(** C4. An accepted submission that carries a report card, or a transcript
    with at least one event, is stored with [Closed = true], whichever of
    the three branches -- fresh, merge, close-and-recreate -- is taken. *)
Theorem graded_submission_is_stored_closed now user params commit db a :
  accepted db user params commit a →
  ReportCard_ commit ≠ None ∨ Transcript commit ≠ [] →
  ∃ saved db',
    run (PostUserAssignmentCommit now no_faults user params commit) db
      = (JSON StatusOK saved, db')
    ∧ Closed saved = true
    ∧ In saved (commits db').
Proof.
  intros (Hatoi & [asg Hasg] & Hsub) Hgraded.
  destruct (run _ db) as [resp db'] eqn:Hrun. revert Hrun. run_handler.
  rewrite Hatoi, Hasg. simpl.
  rewrite bool_decide_false by done. simpl.
  assert (∀ c, ReportCard_ c = ReportCard_ commit →
               Transcript c = Transcript commit →
               carries_grading c = true) as Hcarry.
  { intros c Hr Ht. unfold carries_grading. rewrite Hr, Ht.
    apply orb_true_iff.
    destruct Hgraded; [left | right]; by apply bool_decide_eq_true. }
  destruct (query_open_commit db a) as [oc|] eqn:Hopen; simpl.
  - apply query_open_commit_Some in Hopen as (Hin & _ & _).
    destruct (must_close now oc commit); simpl.
    + rewrite Hcarry by done. unfold db_save. simpl.
      intros [= <- <-]. eexists _, _. split; [reflexivity|]. simpl.
      split; [done|]. apply in_or_app. right. by left.
    + rewrite Hcarry by done. unfold db_save. simpl.
      destruct (ID oc =? 0) eqn:Hz; simpl; intros [= <- <-];
        eexists _, _; (split; [reflexivity|]); simpl; (split; [done|]).
      * apply in_or_app. right. by left.
      * apply in_map_iff. exists oc. split; [|done]. by apply update_row_self.
  - rewrite Hcarry by done. unfold db_save. simpl.
    intros [= <- <-]. eexists _, _. split; [reflexivity|]. simpl.
    split; [done|]. apply in_or_app. right. by left.
Qed.

(** *** The at-most-one-open-commit invariant *)

Lemma count_open_app a (l1 l2 : list Commit) :
  count_open a (l1 ++ l2) = (count_open a l1 + count_open a l2)%nat.
Proof. unfold count_open. by rewrite List.filter_app, length_app. Qed.

Lemma count_open_cons a r (l : list Commit) :
  count_open a (r :: l)
  = ((if is_open_for a r then 1 else 0) + count_open a l)%nat.
Proof. unfold count_open. simpl. by destruct (is_open_for a r). Qed.

Lemma is_open_for_closed a c : Closed c = true → is_open_for a c = false.
Proof. intros H. unfold is_open_for. by rewrite H. Qed.

Lemma is_open_for_other a a' c :
  AssignmentID c = a → a' ≠ a → is_open_for a' c = false.
Proof.
  intros H Hne. unfold is_open_for. apply andb_false_iff. right.
  apply Z.eqb_neq. congruence.
Qed.

Lemma count_open_closing_update a c' (cs : list Commit) :
  Closed c' = true →
  (count_open a (map (update_row c') cs) ≤ count_open a cs)%nat.
Proof.
  intros Hc. induction cs as [|r cs IH]; simpl; [done|].
  rewrite !count_open_cons. unfold update_row at 1.
  destruct (ID r =? ID c').
  - rewrite (is_open_for_closed a c' Hc). destruct (is_open_for a r); lia.
  - destruct (is_open_for a r); lia.
Qed.

Lemma count_open_closing_the_open_one a c' oc (cs : list Commit) :
  In oc cs → is_open_for a oc = true → ID c' = ID oc → Closed c' = true →
  (count_open a cs ≤ 1)%nat →
  count_open a (map (update_row c') cs) = 0%nat.
Proof.
  intros Hin Hopen Hid Hc Hone.
  apply in_split in Hin as (l1 & l2 & ->).
  rewrite count_open_app, count_open_cons, Hopen in Hone.
  rewrite map_app, count_open_app. simpl. rewrite count_open_cons.
  rewrite update_row_self by done. rewrite (is_open_for_closed a c' Hc).
  pose proof (count_open_closing_update a c' l1 Hc).
  pose proof (count_open_closing_update a c' l2 Hc). lia.
Qed.

Lemma update_row_other_keys c' (l : list Commit) :
  ID c' ∉ map ID l → map (update_row c') l = l.
Proof.
  induction l as [|r l IH]; simpl; [done|]. intros Hnot.
  apply not_elem_of_cons in Hnot as [Hne Hnot].
  unfold update_row at 1. destruct (Z.eqb_spec (ID r) (ID c')); [congruence|].
  by rewrite IH.
Qed.

Lemma update_unique_row c' oc (l1 l2 : list Commit) :
  NoDup (map ID (l1 ++ oc :: l2)) → ID c' = ID oc →
  map (update_row c') (l1 ++ oc :: l2) = l1 ++ c' :: l2.
Proof.
  intros Hnd Hid. rewrite map_app in Hnd. simpl in Hnd.
  apply NoDup_app in Hnd as (_ & Hdisj & Hnd2).
  apply NoDup_cons in Hnd2 as [Hnot2 _].
  rewrite map_app. simpl. rewrite update_row_self by done.
  rewrite !update_row_other_keys; [done | by rewrite Hid |].
  rewrite Hid. intros Hin. apply (Hdisj _ Hin). by left.
Qed.

Lemma count_open_merging_update a a' c' oc (cs : list Commit) :
  NoDup (map ID cs) → In oc cs → is_open_for a oc = true →
  ID c' = ID oc → AssignmentID c' = a →
  (count_open a' (map (update_row c') cs) ≤ count_open a' cs)%nat.
Proof.
  intros Hnd Hin Hopen Hid Ha.
  apply in_split in Hin as (l1 & l2 & ->).
  rewrite update_unique_row by done.
  rewrite !count_open_app, !count_open_cons.
  destruct (decide (a' = a)) as [->|Hne].
  - rewrite Hopen. destruct (is_open_for a c'); lia.
  - rewrite (is_open_for_other a a' c') by done. lia.
Qed.

Lemma count_open_insert a a' c (cs : list Commit) :
  AssignmentID c = a →
  (count_open a' (cs ++ [c])
   ≤ count_open a' cs + (if decide (a' = a) then 1 else 0))%nat.
Proof.
  intros Ha. rewrite count_open_app, count_open_cons.
  case_decide as Hd.
  - destruct (is_open_for a' c); simpl; unfold count_open; simpl; lia.
  - rewrite (is_open_for_other a a' c) by done.
    unfold count_open; simpl; lia.
Qed.

(** C3. Run against a store that obeys the primary-key discipline, the
    handler preserves, for every assignment, the invariant that at most one
    of its commits is open -- on every path: rejection, database error,
    merge, close-and-recreate, fresh commit. *)
Theorem at_most_one_open_commit_is_preserved
    now flt user params commit db a' :
  wf_db db →
  at_most_one_open a' db →
  at_most_one_open a'
    (snd (run (PostUserAssignmentCommit now flt user params commit) db)).
Proof.
  intros Hwf Hone. unfold at_most_one_open in *.
  destruct flt as [f1 f2 f3 f4]. run_handler.
  destruct (Atoi _) as [a|]; simpl; [|done].
  destruct f1; simpl; [done|].
  destruct (query_assignment db a user); simpl; [|done].
  case_bool_decide; simpl; [done|].
  destruct f2; simpl; [done|].
  destruct (query_open_commit db a) as [oc|] eqn:Hopen; simpl.
  - apply query_open_commit_Some in Hopen as Hoc.
    destruct Hoc as (Hin & Hnc & Ha).
    assert (is_open_for a oc = true) as Hoo.
    { unfold is_open_for. rewrite Hnc, Ha, Z.eqb_refl. done. }
    destruct (must_close now oc commit); simpl.
    + destruct f3; simpl; [done|].
      pose proof (count_open_closing_update a'
                    (set_UpdatedAt now (set_Closed true oc)) (commits db)
                    eq_refl) as Hle.
      destruct f4; simpl; [lia|].
      unfold db_save.
      match goal with |- context [db_insert _ (set_UpdatedAt now ?x)] =>
        remember x as prepared eqn:Hprep;
        assert (ID prepared = 0 ∧ AssignmentID prepared = a) as [Hid Hasg]
          by (subst prepared; by case_match)
      end.
      simpl. rewrite Hid. simpl.
      etrans; [by apply (count_open_insert a)|].
      case_decide as Hd; [subst a'|lia].
      rewrite (count_open_closing_the_open_one a _ oc); done.
    + destruct f4; simpl; [done|].
      unfold db_save.
      match goal with |- context [db_insert _ (set_UpdatedAt now ?x)] =>
        remember x as prepared eqn:Hprep;
        assert (ID prepared = ID oc ∧ AssignmentID prepared = a)
          as [Hid Hasg] by (subst prepared; by case_match)
      end.
      simpl. rewrite Hid.
      pose proof (wf_db_ID_nonzero _ _ Hwf Hin) as Hnz.
      apply Z.eqb_neq in Hnz. rewrite Hnz. simpl.
      etrans; [|exact Hone].
      apply (count_open_merging_update a a' _ oc); try done.
      apply Hwf.
  - apply query_open_commit_None in Hopen.
    destruct f4; simpl; [done|].
    unfold db_save.
    match goal with |- context [db_insert _ (set_UpdatedAt now ?x)] =>
      remember x as prepared eqn:Hprep;
      assert (ID prepared = 0 ∧ AssignmentID prepared = a) as [Hid Hasg]
        by (subst prepared; by case_match)
    end.
    simpl. rewrite Hid. simpl.
    etrans; [by apply (count_open_insert a)|].
    case_decide as Hd; [subst a'|]; lia.
Qed.

(** The primary-key discipline is itself preserved by the handler. *)
Lemma wf_db_update db c' r :
  wf_db db → In r (commits db) → ID c' = ID r → wf_db (db_update db c').
Proof.
  intros (Hnd & Hpos & Hseq) Hin Hid. split; [|split]; simpl; [| |done].
  - replace (map ID (map (update_row c') (commits db)))
      with (map ID (commits db)); [done|].
    rewrite map_map. apply map_ext. intros x.
    unfold update_row. by destruct (Z.eqb_spec (ID x) (ID c')).
  - rewrite Forall_forall in Hpos. apply Forall_forall. intros x Hx.
    apply list_elem_of_In, in_map_iff in Hx as (y & <- & Hy).
    unfold update_row. destruct (ID y =? ID c').
    + rewrite Hid. by apply Hpos, list_elem_of_In.
    + by apply Hpos, list_elem_of_In.
Qed.

Lemma wf_db_insert db c : wf_db db → wf_db (snd (db_insert db c)).
Proof.
  intros (Hnd & Hpos & Hseq). split; [|split]; simpl; [| |lia].
  - rewrite map_app. simpl. apply NoDup_app. split; [done|]. split.
    + intros k Hk [<-|[]]%list_elem_of_In.
      apply list_elem_of_In, in_map_iff in Hk as (y & Hy & Hin).
      rewrite Forall_forall in Hpos.
      apply list_elem_of_In, Hpos in Hin. lia.
    + apply NoDup_singleton.
  - apply Forall_app. split.
    + eapply Forall_impl; [exact Hpos|]. simpl. intros; lia.
    + apply Forall_singleton. simpl. lia.
Qed.

Lemma wf_db_is_preserved now flt user params commit db :
  wf_db db →
  wf_db (snd (run (PostUserAssignmentCommit now flt user params commit) db)).
Proof.
  intros Hwf. destruct flt as [f1 f2 f3 f4]. run_handler.
  destruct (Atoi _) as [a|]; simpl; [|done].
  destruct f1; simpl; [done|].
  destruct (query_assignment db a user); simpl; [|done].
  case_bool_decide; simpl; [done|].
  destruct f2; simpl; [done|].
  destruct (query_open_commit db a) as [oc|] eqn:Hopen; simpl.
  - apply query_open_commit_Some in Hopen as (Hin & _ & _).
    destruct (must_close now oc commit); simpl.
    + destruct f3; simpl; [done|].
      assert (wf_db (db_update db (set_UpdatedAt now (set_Closed true oc))))
        as Hwf1 by (by apply (wf_db_update _ _ oc)).
      destruct f4; simpl; [done|].
      unfold db_save.
      match goal with |- context [db_insert _ (set_UpdatedAt now ?x)] =>
        remember x as prepared eqn:Hprep;
        assert (ID prepared = 0) as Hid by (subst prepared; by case_match)
      end.
      simpl. rewrite Hid. simpl.
      exact (wf_db_insert _ (set_UpdatedAt now prepared) Hwf1).
    + destruct f4; simpl; [done|].
      unfold db_save.
      match goal with |- context [db_insert _ (set_UpdatedAt now ?x)] =>
        remember x as prepared eqn:Hprep;
        assert (ID prepared = ID oc) as Hid by (subst prepared; by case_match)
      end.
      simpl. rewrite Hid.
      pose proof (wf_db_ID_nonzero _ _ Hwf Hin) as Hnz.
      apply Z.eqb_neq in Hnz. rewrite Hnz. simpl.
      exact (wf_db_update _ (set_UpdatedAt now prepared) oc Hwf Hin Hid).
  - destruct f4; simpl; [done|].
    unfold db_save.
    match goal with |- context [db_insert _ (set_UpdatedAt now ?x)] =>
      remember x as prepared eqn:Hprep;
      assert (ID prepared = 0) as Hid by (subst prepared; by case_match)
    end.
    simpl. rewrite Hid. simpl.
    exact (wf_db_insert _ (set_UpdatedAt now prepared) Hwf).
Qed.


(** A submission whose transcript is stored exactly as it arrived. *)
Lemma transcript_is_stored_as_submitted now user params commit db a :
  accepted db user params commit a →
  ∃ saved db',
    run (PostUserAssignmentCommit now no_faults user params commit) db
      = (JSON StatusOK saved, db')
    ∧ Transcript saved = Transcript commit
    ∧ In saved (commits db').
Proof.
  intros (Hatoi & [asg Hasg] & Hsub).
  destruct (run _ db) as [resp db'] eqn:Hrun. revert Hrun. run_handler.
  rewrite Hatoi, Hasg. simpl.
  rewrite bool_decide_false by done. simpl.
  destruct (query_open_commit db a) as [oc|] eqn:Hopen; simpl.
  - apply query_open_commit_Some in Hopen as (Hin & _ & _).
    destruct (must_close now oc commit); simpl; unfold db_save.
    + match goal with |- context [db_insert _ (set_UpdatedAt now ?x)] =>
        remember x as prepared eqn:Hprep;
        assert (Transcript prepared = Transcript commit ∧ ID prepared = 0)
          as [Htr Hid] by (subst prepared; by case_match)
      end.
      simpl. rewrite Hid. simpl. intros [= <- <-].
      eexists _, _. split; [reflexivity|]. simpl. split; [done|].
      apply in_or_app. right. by left.
    + match goal with |- context [db_insert _ (set_UpdatedAt now ?x)] =>
        remember x as prepared eqn:Hprep;
        assert (Transcript prepared = Transcript commit
                ∧ ID prepared = ID oc)
          as [Htr Hid] by (subst prepared; by case_match)
      end.
      simpl. destruct (ID prepared =? 0) eqn:Hz; simpl; intros [= <- <-];
        eexists _, _; (split; [reflexivity|]); simpl; (split; [done|]).
      * apply in_or_app. right. by left.
      * apply in_map_iff. exists oc. split; [|done]. by apply update_row_self.
  - unfold db_save.
    match goal with |- context [db_insert _ (set_UpdatedAt now ?x)] =>
      remember x as prepared eqn:Hprep;
      assert (Transcript prepared = Transcript commit ∧ ID prepared = 0)
        as [Htr Hid] by (subst prepared; by case_match)
    end.
    simpl. rewrite Hid. simpl. intros [= <- <-].
    eexists _, _. split; [reflexivity|]. simpl. split; [done|].
    apply in_or_app. right. by left.
Qed.

End WithPayloadTypes.

(** *** The theorems at work on the sample store *)

Import Samples.

Lemma accepted_sample step reportCard transcript :
  accepted db0 42 params0 (incoming step reportCard transcript) 3.
Proof.
  split; [reflexivity|]. split; [by eexists|]. vm_compute. discriminate.
Qed.

Lemma wf_db_sample : wf_db db0.
Proof.
  split; [|split].
  - simpl. apply NoDup_singleton.
  - apply Forall_singleton. vm_compute. split; reflexivity.
  - reflexivity.
Qed.

(** Twenty-one minutes after the last update the open commit 1 is closed
    and the submission becomes commit 2. *)
Lemma stale_open_commit_witness :
  ∃ saved db',
    run (PostUserAssignmentCommit (t0 + 21 * Minute) no_faults 42 params0
           (incoming 1 None [])) db0 = (JSON StatusOK saved, db')
    ∧ In (set_UpdatedAt (t0 + 21 * Minute) (set_Closed true open_commit))
        (commits db')
    ∧ ID saved = 2 ∧ CreatedAt saved = t0 + 21 * Minute.
Proof.
  destruct (stale_open_commit_is_closed_and_fresh_commit_stored
              (t0 + 21 * Minute) 42 params0 (incoming 1 None []) db0 3
              open_commit)
    as (fresh & saved & db' & Hrun & Hold & _ & _ & _ & _ & _ & _ & Hid & Hat).
  - apply accepted_sample.
  - reflexivity.
  - left. vm_compute. reflexivity.
  - exists saved, db'. auto.
Defined.

(** Five minutes after the last update the submission is merged into the
    open commit 1. *)
Lemma live_open_commit_witness :
  ∃ saved db',
    run (PostUserAssignmentCommit (t0 + 5 * Minute) no_faults 42 params0
           (incoming 1 None [])) db0 = (JSON StatusOK saved, db')
    ∧ ID saved = 1 ∧ CreatedAt saved = t0
    ∧ UpdatedAt saved = t0 + 5 * Minute
    ∧ length (commits db') = 1%nat.
Proof.
  destruct (live_open_commit_is_merged
              (t0 + 5 * Minute) 42 params0 (incoming 1 None []) db0 3
              open_commit)
    as (saved & db' & Hrun & Hid & Hcreated & _ & _ & _ & _ & _ & Hupdated
        & _ & _ & Hlen).
  - exact wf_db_sample.
  - apply accepted_sample.
  - reflexivity.
  - vm_compute. discriminate.
  - reflexivity.
  - exists saved, db'. auto.
Defined.

Lemma at_most_one_open_commit_witness :
  at_most_one_open 3
    (snd (run (PostUserAssignmentCommit (t0 + 21 * Minute) no_faults 42
                 params0 (incoming 2 None [])) db0)).
Proof.
  apply at_most_one_open_commit_is_preserved.
  - exact wf_db_sample.
  - vm_compute. lia.
Defined.

Lemma graded_submission_witness :
  ∃ saved db',
    run (PostUserAssignmentCommit (t0 + 5 * Minute) no_faults 42 params0
           (incoming 1 (Some "passed 3 of 3") [])) db0
      = (JSON StatusOK saved, db')
    ∧ Closed saved = true ∧ In saved (commits db').
Proof.
  apply (graded_submission_is_stored_closed _ _ _ _ _ 3).
  - apply accepted_sample.
  - left. discriminate.
Defined.

(** C9. A submission with 501 transcript events is accepted and all 501
    events are stored, above [transcriptEventCountLimit]: the handler neither
    truncates nor rejects. *)
Theorem oversized_transcript_is_stored_whole :
  ∃ saved db',
    run (PostUserAssignmentCommit (t0 + 5 * Minute) no_faults 42 params0
           (incoming 1 None (replicate 501 "line"))) db0
      = (JSON StatusOK saved, db')
    ∧ In saved (commits db')
    ∧ Transcript saved = replicate 501 "line"
    ∧ transcriptEventCountLimit < Z.of_nat (length (Transcript saved)).
Proof.
  destruct (transcript_is_stored_as_submitted (t0 + 5 * Minute) 42 params0
              (incoming 1 None (replicate 501 "line")) db0 3
              (accepted_sample _ _ _)) as (saved & db' & Hrun & Htr & Hin).
  exists saved, db'.
  split; [exact Hrun|]. split; [exact Hin|]. split; [exact Htr|].
  rewrite Htr. unfold incoming. cbn [Transcript].
  rewrite length_replicate. reflexivity.
Qed.

End CommitProps.

(** ** Properties of whitelists, normalisation and signatures *)

Module ProblemProps.
Import Go Strings Html Problems.

Lemma length_Split_go sep cur s :
  length (Split_go sep cur s)
  = S (length (filter (λ c, c = sep) (list_ascii_of_string s))).
Proof.
  revert cur. induction s as [|c s IH]; intros cur; simpl; [done|].
  rewrite filter_cons.
  case_bool_decide; case_decide; try done; simpl; by rewrite IH.
Qed.

Lemma is_root_name_spec name : is_root_name name = true ↔ root_level name.
Proof.
  unfold is_root_name, root_level, Split. rewrite length_Split_go.
  rewrite Nat.eqb_eq. split.
  - intros [= Hlen]. apply length_zero_iff_nil in Hlen.
    intros Hin. assert ("/"%char ∈ @nil ascii) as Hnil.
    { rewrite <- Hlen. by apply list_elem_of_filter. }
    by apply elem_of_nil in Hnil.
  - intros Hnot. f_equal. apply length_zero_iff_nil.
    apply elem_of_nil_inv. intros c [-> Hc]%list_elem_of_filter. done.
Qed.

(** *** Reading the URL encoding back *)

Lemma unescape_escape_byte c r :
  unescape (escape_byte c +:+ r) = String c (unescape r).
Proof. destruct c as [[] [] [] [] [] [] [] []]; reflexivity. Qed.

Lemma unescape_QueryEscape s : unescape (QueryEscape s) = s.
Proof.
  induction s as [|c s IH]; simpl; [done|].
  by rewrite unescape_escape_byte, IH.
Qed.

#[local] Instance QueryEscape_inj : Inj (=) (=) QueryEscape.
Proof.
  intros s1 s2 Heq.
  by rewrite <- (unescape_QueryEscape s1), Heq, unescape_QueryEscape.
Qed.

Lemma has_byte_app d s1 s2 :
  has_byte d (s1 +:+ s2) = has_byte d s1 || has_byte d s2.
Proof.
  induction s1 as [|c s1 IH]; simpl; [done|]. by rewrite IH, orb_assoc.
Qed.

Lemma has_byte_escape_byte c :
  has_byte "&" (escape_byte c) = false ∧ has_byte "=" (escape_byte c) = false.
Proof. destruct c as [[] [] [] [] [] [] [] []]; split; reflexivity. Qed.

Lemma has_byte_QueryEscape s :
  has_byte "&" (QueryEscape s) = false ∧ has_byte "=" (QueryEscape s) = false.
Proof.
  induction s as [|c s [IH1 IH2]]; simpl; [done|].
  rewrite !has_byte_app, IH1, IH2.
  by destruct (has_byte_escape_byte c) as [-> ->].
Qed.

Lemma break_app d t r :
  has_byte d t = false → break d (t +:+ String d r) = (t, Some r).
Proof.
  induction t as [|c t IH]; simpl.
  - intros _. by rewrite bool_decide_true.
  - intros [Hc Ht]%orb_false_iff. rewrite Hc. by rewrite IH.
Qed.

Lemma break_whole d t : has_byte d t = false → break d t = (t, None).
Proof.
  induction t as [|c t IH]; simpl; [done|].
  intros [Hc Ht]%orb_false_iff. rewrite Hc. by rewrite IH.
Qed.

Lemma string_app_cons c (s1 s2 : string) :
  String c s1 +:+ s2 = String c (s1 +:+ s2).
Proof. reflexivity. Qed.

Lemma string_app_assoc (s1 s2 s3 : string) :
  (s1 +:+ s2) +:+ s3 = s1 +:+ (s2 +:+ s3).
Proof.
  induction s1 as [|c s1 IH]; [done|]. rewrite !string_app_cons. by f_equal.
Qed.

Lemma break_encode_item kv :
  break "=" (encode_item kv)
  = (QueryEscape (fst kv), Some (QueryEscape (snd kv))).
Proof.
  unfold encode_item. apply break_app, has_byte_QueryEscape.
Qed.

#[local] Instance encode_item_inj : Inj (=) (=) encode_item.
Proof.
  intros [k1 x1] [k2 x2] Heq.
  pose proof (break_encode_item (k1, x1)) as H1.
  rewrite Heq, break_encode_item in H1. simpl in H1.
  injection H1 as Hk Hx. apply (inj _) in Hk, Hx. by subst.
Qed.

Lemma encode_item_no_amp kv : has_byte "&" (encode_item kv) = false.
Proof.
  unfold encode_item. rewrite !has_byte_app. simpl.
  destruct (has_byte_QueryEscape (fst kv)) as [-> _].
  by destruct (has_byte_QueryEscape (snd kv)) as [-> _].
Qed.

Lemma encode_item_nonempty kv : encode_item kv ≠ "".
Proof.
  intros Heq. pose proof (break_encode_item kv) as Hb.
  rewrite Heq in Hb. done.
Qed.

Lemma break_concat x xs :
  has_byte "&" x = false →
  break "&" (String.concat "&" (x :: xs))
  = (x, match xs with [] => None | _ => Some (String.concat "&" xs) end).
Proof.
  intros Hx. destruct xs as [|y ys]; simpl.
  - by apply break_whole.
  - by apply break_app.
Qed.

Lemma concat_items_inj (l1 l2 : list (string * string)) :
  String.concat "&" (encode_item <$> l1)
  = String.concat "&" (encode_item <$> l2) →
  l1 = l2.
Proof.
  revert l2. induction l1 as [|kv1 l1 IH]; intros [|kv2 l2] Heq;
    rewrite ?fmap_cons in Heq.
  - done.
  - exfalso. pose proof (break_concat (encode_item kv2) (encode_item <$> l2)
      (encode_item_no_amp kv2)) as Hb.
    rewrite <- Heq in Hb. simpl in Hb.
    injection Hb as Hb _. by apply (encode_item_nonempty kv2).
  - exfalso. pose proof (break_concat (encode_item kv1) (encode_item <$> l1)
      (encode_item_no_amp kv1)) as Hb.
    rewrite Heq in Hb. simpl in Hb.
    injection Hb as Hb _. by apply (encode_item_nonempty kv1).
  - pose proof (break_concat (encode_item kv1) (encode_item <$> l1)
      (encode_item_no_amp kv1)) as Hb1.
    pose proof (break_concat (encode_item kv2) (encode_item <$> l2)
      (encode_item_no_amp kv2)) as Hb2.
    rewrite Heq, Hb2 in Hb1.
    injection Hb1 as Hitem Hrest. apply (inj _) in Hitem. subst kv2.
    f_equal. apply IH.
    destruct l1 as [|a l1], l2 as [|b l2]; simplify_eq/=; done.
Qed.

(** The values under a key can be read off the list of encoded pairs. *)
Lemma filter_pairs_same (k : string) (l : list string) :
  snd <$> filter (λ kv : string * string, fst kv = k) (pair k <$> l) = l.
Proof.
  induction l as [|x xs IH]; [done|]. rewrite fmap_cons.
  rewrite filter_cons_True by done. rewrite fmap_cons. simpl. by rewrite IH.
Qed.

Lemma filter_pairs_other (k k' : string) (l : list string) :
  k' ≠ k →
  filter (λ kv : string * string, fst kv = k) (pair k' <$> l) = [].
Proof.
  intros Hne. induction l as [|x xs IH]; [done|]. rewrite fmap_cons.
  by rewrite filter_cons_False by done.
Qed.

Lemma values_in_pairs (f : string → list string) (ks : list string) k :
  NoDup ks →
  snd <$> filter (λ kv, fst kv = k) (flat_map (λ k', pair k' <$> f k') ks)
  = if decide (k ∈ ks) then f k else [].
Proof.
  induction ks as [|k' ks IH]; intros Hnd.
  - case_decide as Hin; [by apply elem_of_nil in Hin | done].
  - apply NoDup_cons in Hnd as [Hnotin Hnd]. cbn [flat_map].
    rewrite filter_app, fmap_app, IH by done.
    destruct (decide (k' = k)) as [->|Hne].
    + rewrite (decide_True (P := k ∈ k :: ks)) by apply list_elem_of_here.
      rewrite (decide_False (P := k ∈ ks)) by done.
      by rewrite app_nil_r, filter_pairs_same.
    + rewrite filter_pairs_other by done. simpl.
      destruct (decide (k ∈ ks)) as [Hin|Hnin].
      * by rewrite decide_True by (by apply list_elem_of_further).
      * rewrite decide_False; [done|].
        intros [?|?]%elem_of_cons; [congruence|done].
Qed.

Lemma values_of_encode_pairs (v : Values) k :
  snd <$> filter (λ kv, fst kv = k) (encode_pairs v) = values_of v k.
Proof.
  unfold encode_pairs, sort_Strings.
  rewrite values_in_pairs.
  - case_decide as Hin; [done|]. unfold values_of.
    destruct (v !! k) as [l|] eqn:Hk; [|done]. exfalso. apply Hin.
    rewrite merge_sort_Permutation. apply list_elem_of_fmap.
    exists (k, l). split; [done|]. by apply elem_of_map_to_list.
  - rewrite merge_sort_Permutation. apply NoDup_fst_map_to_list.
Qed.

(** The encoding determines the values recorded under every key. *)
Lemma encode_inj (v1 v2 : Values) :
  encode v1 = encode v2 → ∀ k, values_of v1 k = values_of v2 k.
Proof.
  unfold encode. intros Heq%concat_items_inj k.
  by rewrite <- !values_of_encode_pairs, Heq.
Qed.

(** *** The clean-up loops stop by their condition, not for lack of fuel *)

Lemma string_length_app (s1 s2 : string) :
  String.length (s1 +:+ s2) = (String.length s1 + String.length s2)%nat.
Proof.
  induction s1 as [|c s1 IH]; [done|]. rewrite string_app_cons. simpl.
  by rewrite IH.
Qed.

Lemma string_length_rev_app (s1 s2 : string) :
  String.length (String.rev_app s1 s2)
  = (String.length s1 + String.length s2)%nat.
Proof.
  revert s2. induction s1 as [|c s1 IH]; intros s2; simpl; [done|].
  rewrite IH. simpl. lia.
Qed.

Lemma string_length_rev (s : string) :
  String.length (String.rev s) = String.length s.
Proof. unfold String.rev. rewrite string_length_rev_app. simpl. lia. Qed.

Lemma prefix_length (p s : string) :
  String.prefix p s = true → (String.length p ≤ String.length s)%nat.
Proof.
  revert s. induction p as [|a p IH]; intros s; [simpl; lia|].
  destruct s as [|b s]; [done|]. simpl. destruct (ascii_dec a b); [|done].
  intros Hp%IH. lia.
Qed.

Lemma length_substring_0 (n : nat) (s : string) :
  String.length (String.substring 0 n s) = (n `min` String.length s)%nat.
Proof.
  revert n. induction s as [|c s IH]; intros [|n]; simpl; try done.
  by rewrite IH.
Qed.

Lemma length_Replace_go old new (s : string) (k : nat) :
  (String.length new ≤ String.length old)%nat →
  (k ≤ String.length s)%nat →
  (String.length (Replace_go old new k s) + k ≤ String.length s)%nat.
Proof.
  intros Hshort. revert k. induction s as [|c s IH]; intros k Hk.
  - simpl in *. lia.
  - cbn [Replace_go]. destruct k as [|k].
    + destruct (String.prefix old (String c s)) eqn:Hpre.
      * apply prefix_length in Hpre. simpl in Hpre.
        rewrite string_length_app.
        assert (String.length old - 1 ≤ String.length s)%nat as Hk' by lia.
        specialize (IH _ Hk'). simpl. lia.
      * specialize (IH 0%nat ltac:(lia)). simpl. lia.
    + simpl in Hk. specialize (IH k ltac:(lia)). simpl. lia.
Qed.

Lemma length_Replace_shrinks old new (s : string) :
  (String.length new < String.length old)%nat →
  Contains s old = true →
  (String.length (Replace s old new) < String.length s)%nat.
Proof.
  intros Hshort. unfold Replace. induction s as [|c s IH]; intros Hin.
  - destruct old as [|a old]; [simpl in Hshort; lia|]. done.
  - cbn [Replace_go]. cbn [Contains] in Hin.
    destruct (String.prefix old (String c s)) eqn:Hpre.
    + apply prefix_length in Hpre. simpl in Hpre.
      rewrite string_length_app.
      pose proof (length_Replace_go old new s (String.length old - 1)
                    ltac:(lia) ltac:(lia)). simpl. lia.
    + simpl in Hin. specialize (IH Hin). simpl. lia.
Qed.

Lemma length_drop_last (s : string) :
  HasSuffix s lf_lf = true →
  (String.length (drop_last s) < String.length s)%nat.
Proof.
  unfold HasSuffix, drop_last. intros Hsuf%prefix_length.
  rewrite !string_length_rev in Hsuf. simpl in Hsuf.
  rewrite length_substring_0. lia.
Qed.

(** *** Step keys can be parsed: [%d] prints a sign and digits *)

Lemma is_digit_pretty_N_char x : is_digit (pretty_N_char x) = true.
Proof. unfold pretty_N_char. by repeat case_match. Qed.

Lemma all_digits_pretty_N_go x s :
  all_digits s = true → all_digits (pretty_N_go x s) = true.
Proof.
  revert s. induction (N.lt_wf_0 x) as [x _ IH]; intros s Hs.
  destruct (decide (x = 0)%N) as [->|Hx]; [by rewrite pretty_N_go_0|].
  rewrite pretty_N_go_step by lia. apply IH; [apply N.div_lt; lia|].
  simpl. by rewrite is_digit_pretty_N_char.
Qed.

Lemma pretty_N_go_nonempty x s : s ≠ "" → pretty_N_go x s ≠ "".
Proof.
  revert s. induction (N.lt_wf_0 x) as [x _ IH]; intros s Hs.
  destruct (decide (x = 0)%N) as [->|Hx]; [by rewrite pretty_N_go_0|].
  rewrite pretty_N_go_step by lia. apply IH; [apply N.div_lt; lia|done].
Qed.

Lemma pretty_N_shape (x : N) :
  ∃ c t, pretty x = String c t ∧ all_digits t = true.
Proof.
  unfold pretty, pretty_N. case_decide as Hx; [by exists "0"%char, ""|].
  assert (all_digits (pretty_N_go x "") = true) as Hd
    by (by apply all_digits_pretty_N_go).
  assert (pretty_N_go x "" ≠ "") as Hne.
  { rewrite pretty_N_go_step by lia. by apply pretty_N_go_nonempty. }
  destruct (pretty_N_go x "") as [|c t]; [done|].
  exists c, t. split; [done|]. simpl in Hd. by apply andb_true_iff in Hd as [_ ?].
Qed.

Lemma pretty_Z_shape (z : Z) :
  ∃ c t, pretty z = String c t ∧ all_digits t = true.
Proof.
  destruct z as [|p|p]; unfold pretty, pretty_Z.
  - by exists "0"%char, "".
  - apply (pretty_N_shape (Npos p)).
  - exists "-"%char, (pretty p). split; [done|].
    destruct (pretty_N_shape (Npos p)) as (c & t & Hp & Ht).
    unfold pretty at 1, pretty_positive. rewrite Hp. simpl. rewrite Ht.
    assert (all_digits (pretty (Npos p)) = true) as Hall.
    { unfold pretty, pretty_N. case_decide; [done|].
      by apply all_digits_pretty_N_go. }
    rewrite Hp in Hall. simpl in Hall.
    by apply andb_true_iff in Hall as [-> _].
Qed.

Lemma span_digits_app t f :
  all_digits t = true →
  span_digits (t +:+ String "-" f) = (t, String "-" f).
Proof.
  induction t as [|c t IH]; [done|].
  intros [Hc Ht]%andb_true_iff. rewrite string_app_cons.
  cbn [span_digits]. by rewrite Hc, IH.
Qed.

Lemma split_number_pretty (z : Z) f :
  split_number (pretty z +:+ String "-" f) = (pretty z, String "-" f).
Proof.
  destruct (pretty_Z_shape z) as (c & t & -> & Ht).
  rewrite string_app_cons. simpl. by rewrite span_digits_app.
Qed.

Lemma step_key_inj n1 n2 f1 f2 :
  step_key n1 f1 = step_key n2 f2 → n1 = n2 ∧ f1 = f2.
Proof.
  unfold step_key. intros Heq%(inj _).
  pose proof (split_number_pretty n1 f1) as H1.
  change ("-" +:+ f1) with (String "-" f1) in Heq.
  change ("-" +:+ f2) with (String "-" f2) in Heq.
  rewrite Heq, split_number_pretty in H1.
  injection H1 as Hn Hf. apply (inj _) in Hn. by subst.
Qed.

Lemma step_key_starts_with_step n f : ∃ r, step_key n f = "step-" +:+ r.
Proof. by eexists. Qed.

Section WithRuntime.
Context `{Runtime}.

Abbreviation all_true := (map_Forall (λ (_ : string) (b : bool), b = true)).

Lemma carry_forward_spec (prev : gmap string bool) :
  let m := map_fold (λ name (_ : bool) (m : gmap string bool),
                       <[name := true]> m) ∅ prev in
  dom m = dom prev ∧ all_true m.
Proof.
  simpl. apply (map_fold_weak_ind
    (λ (r : gmap string bool) (m : gmap string bool),
       dom r = dom m ∧ all_true r)).
  - split; [done|]. apply map_Forall_empty.
  - intros name b m r Hnone [Hdom Htrue]. split.
    + rewrite !dom_insert_L. by rewrite Hdom.
    + by apply map_Forall_insert_2.
Qed.

Lemma add_root_files_spec (m0 : gmap string bool) (fs : gmap string string) :
  all_true m0 →
  let m := map_fold (λ name (_ : string) (m : gmap string bool),
                       if is_root_name name then <[name := true]> m else m)
             m0 fs in
  dom m = dom m0 ∪ filter root_level (dom fs) ∧ all_true m.
Proof.
  intros Htrue0. simpl. apply (map_fold_weak_ind
    (λ (r : gmap string bool) (m : gmap string string),
       dom r = dom m0 ∪ filter root_level (dom m) ∧ all_true r)).
  - split; [|done]. rewrite dom_empty_L. apply set_eq. intros x.
    rewrite elem_of_union, elem_of_filter, elem_of_empty. naive_solver.
  - intros name c m r Hnone [Hdom Htrue].
    destruct (is_root_name name) eqn:Hroot.
    + split; [|by apply map_Forall_insert_2].
      apply is_root_name_spec in Hroot.
      rewrite !dom_insert_L, Hdom. apply set_eq. intros x.
      rewrite !elem_of_union, !elem_of_filter, elem_of_union,
        !elem_of_singleton.
      naive_solver.
    + split; [|done]. rewrite Hdom, dom_insert_L. apply set_eq. intros x.
      rewrite !elem_of_union, !elem_of_filter, elem_of_union,
        elem_of_singleton.
      split; [naive_solver|]. intros [?|[Hr [->|?]]]; [by left| |by right].
      apply is_root_name_spec in Hr. congruence.
Qed.

Lemma step_whitelist_spec (lists : list (gmap string bool)) step :
  Forall all_true lists →
  dom (step_whitelist lists step)
    = dom (default ∅ (last lists)) ∪ root_names step
  ∧ all_true (step_whitelist lists step).
Proof.
  intros Hall. unfold step_whitelist, root_names.
  destruct (last lists) as [prev|] eqn:Hlast; simpl.
  - destruct (carry_forward_spec prev) as [Hdom Htrue]. simpl in *.
    destruct (add_root_files_spec _ (Files step) Htrue) as [Hdom' Htrue'].
    simpl in *. by rewrite Hdom', Hdom.
  - apply (add_root_files_spec ∅ (Files step)). apply map_Forall_empty.
Qed.

Lemma GetStepWhitelists_snoc steps step :
  GetStepWhitelists (steps ++ [step])
  = GetStepWhitelists steps
    ++ [step_whitelist (GetStepWhitelists steps) step].
Proof. unfold GetStepWhitelists. by rewrite foldl_app. Qed.

Lemma length_GetStepWhitelists steps :
  length (GetStepWhitelists steps) = length steps.
Proof.
  induction steps as [|step steps IH] using rev_ind; [done|].
  rewrite GetStepWhitelists_snoc, !length_app, IH. done.
Qed.

Lemma GetStepWhitelists_all_true steps :
  Forall all_true (GetStepWhitelists steps).
Proof.
  induction steps as [|step steps IH] using rev_ind; [constructor|].
  rewrite GetStepWhitelists_snoc. apply Forall_app. split; [done|].
  apply Forall_singleton. by apply step_whitelist_spec.
Qed.

(** C6. The whitelist computed for a step is that of the step before it
    (none before the first step) together with the root-level names of the
    step's own files, so each whitelist contains the one before it.  Every
    name on a whitelist is mapped to [true]. *)
Theorem whitelist_is_previous_plus_root_names steps (i : nat) step :
  steps !! i = Some step →
  ∃ m,
    GetStepWhitelists steps !! i = Some m
    ∧ map_Forall (λ _ b, b = true) m
    ∧ let prev : gmap string bool :=
        match i with
        | O => ∅
        | S j => default ∅ (GetStepWhitelists steps !! j)
        end in
      dom m = dom prev ∪ root_names step ∧ dom prev ⊆ dom m.
Proof.
  revert i step. induction steps as [|s steps IH] using rev_ind;
    intros i step Hi; [done|].
  rewrite GetStepWhitelists_snoc.
  pose proof (length_GetStepWhitelists steps) as Hlen.
  destruct (decide (i < length steps)%nat) as [Hlt|Hge].
  - rewrite lookup_app_l in Hi by done.
    destruct (IH i step Hi) as (m & Hm & Htrue & Hdom).
    exists m. rewrite lookup_app_l by lia. split; [done|]. split; [done|].
    destruct i as [|j]; [done|]. rewrite lookup_app_l by lia. done.
  - apply lookup_lt_Some in Hi as Hi'. rewrite length_app in Hi'.
    simpl in Hi'. assert (i = length steps) as -> by lia.
    rewrite lookup_app_r in Hi by lia. rewrite Nat.sub_diag in Hi.
    injection Hi as ->.
    exists (step_whitelist (GetStepWhitelists steps) step).
    rewrite lookup_app_r by lia. rewrite Hlen, Nat.sub_diag.
    split; [done|].
    destruct (step_whitelist_spec (GetStepWhitelists steps) step
                (GetStepWhitelists_all_true steps)) as [Hdom Htrue].
    split; [done|].
    assert (match length steps with
            | O => ∅
            | S j => default ∅ ((GetStepWhitelists steps
                       ++ [step_whitelist (GetStepWhitelists steps) step])
                       !! j)
            end = default (∅ : gmap string bool)
                    (last (GetStepWhitelists steps))) as ->.
    { rewrite last_lookup, Hlen.
      destruct (length steps) as [|j] eqn:Hj; simpl.
      - apply length_zero_iff_nil in Hlen. by rewrite Hlen.
      - rewrite lookup_app_l by lia. done. }
    simpl. rewrite Hdom. split; [done|]. set_solver.
Qed.

(** C7 (as amended). When step 1 introduces [main.py] and step 2 introduces
    [tests/test_main.py], the whitelist is exactly [{main.py}] at step 1 and
    still exactly [{main.py}] at step 2: a name with a path separator is not
    a root-level name and is not added. *)
Theorem example_whitelists_hold_only_root_names (s1 s2 : ProblemStep) c1 c2 :
  Files s1 = {[ "main.py" := c1 ]} →
  Files s2 = {[ "tests/test_main.py" := c2 ]} →
  GetStepWhitelists [s1; s2]
  = [ {[ "main.py" := true ]}; {[ "main.py" := true ]} ].
Proof.
  intros H1 H2. unfold GetStepWhitelists. simpl.
  unfold step_whitelist. simpl. rewrite H1, H2.
  rewrite !map_fold_singleton. done.
Qed.

(** *** The loops of [fixLineEndings] and [fixNewLines] *)

Lemma while_stops_by_condition cond body :
  (∀ s, cond s = true →
        (String.length (body s) < String.length s)%nat) →
  ∀ n s, (String.length s ≤ n)%nat →
    cond (while n cond body s) = false
    ∧ ∀ m, (n ≤ m)%nat → while m cond body s = while n cond body s.
Proof.
  intros Hshrink. induction n as [|n IH]; intros s Hlen.
  - assert (cond s = false) as Hc.
    { destruct (cond s) eqn:Hc; [|done]. apply Hshrink in Hc. lia. }
    split; [done|]. intros [|m] _; simpl; [done|]. by rewrite Hc.
  - simpl. destruct (cond s) eqn:Hc.
    + assert (String.length (body s) ≤ n)%nat as Hlen'
        by (apply Hshrink in Hc; lia).
      destruct (IH _ Hlen') as [Hdone Hmore]. split; [done|].
      intros [|m] Hm; [lia|]. simpl. rewrite Hc. apply Hmore. lia.
    + split; [done|]. intros [|m] Hm; [lia|]. simpl. by rewrite Hc.
Qed.

Lemma trailing_spaces_loop_finishes (s : string) :
  Contains (while (String.length s) (λ s, Contains s space_lf)
              (λ s, Replace s space_lf lf) s) space_lf = false.
Proof.
  apply (while_stops_by_condition (λ s, Contains s space_lf)
           (λ s, Replace s space_lf lf)); [|done].
  intros s' Hc. apply length_Replace_shrinks; [simpl; lia|done].
Qed.

Lemma trailing_newlines_loop_finishes (s : string) :
  HasSuffix (while (String.length s) (λ s, HasSuffix s lf_lf) drop_last s)
    lf_lf = false.
Proof.
  apply (while_stops_by_condition (λ s, HasSuffix s lf_lf) drop_last);
    [|done].
  intros s' Hc. by apply length_drop_last.
Qed.

(** *** Normalisation *)

(** The step with its number set and its note trimmed, as
    [ProblemStep.Normalize] has it when it builds the instructions. *)
Lemma ProblemStep_Normalize_missing_note n step :
  TrimSpace (StepNote step) = "" →
  snd (ProblemStep_Normalize n step) = Some (ErrMissingStepNote (n + 1)).
Proof.
  intros Hnote. unfold ProblemStep_Normalize. by rewrite Hnote.
Qed.

Lemma ProblemStep_Normalize_no_documentation n step :
  TrimSpace (StepNote step) ≠ "" →
  Files step !! "_doc/index.html" = None →
  Files step !! "_doc/index.md" = None →
  snd (ProblemStep_Normalize n step)
  = Some (ErrBuildingInstructions (n + 1) ErrNoDocumentation).
Proof.
  intros Hnote Hhtml Hmd. unfold ProblemStep_Normalize.
  rewrite bool_decide_false by done.
  unfold BuildInstructions. simpl. by rewrite Hhtml, Hmd.
Qed.

(** C10. [Problem.Normalize] drops what [ProblemStep.Normalize] returns.
    An empty [Unique], an empty [Note], an empty step list or a timestamp
    out of range always yields an error; but once the problem-level checks
    pass the result is [nil] whatever the steps are, although normalising a
    step whose note is empty, or which has no documentation to build its
    instructions from, did return an error. *)
Theorem Normalize_reports_problem_errors_and_drops_step_errors
    now problem steps :
  (Unique problem = "" ∨ Note problem = "" ∨ steps = []
   ∨ CreatedAt problem < BeginningOfTime ∨ now < CreatedAt problem
   ∨ UpdatedAt problem < CreatedAt problem ∨ now < UpdatedAt problem →
   is_Some (snd (Problem_Normalize now problem steps)))
  ∧ (TrimSpace (Unique problem) ≠ "" →
     QueryEscape (TrimSpace (Unique problem)) = TrimSpace (Unique problem) →
     TrimSpace (Note problem) ≠ "" →
     steps ≠ [] →
     BeginningOfTime ≤ CreatedAt problem ≤ now →
     CreatedAt problem ≤ UpdatedAt problem ≤ now →
     snd (Problem_Normalize now problem steps) = None
     ∧ ∀ (i : nat) step, steps !! i = Some step →
         (TrimSpace (StepNote step) = "" →
          snd (ProblemStep_Normalize (Z.of_nat i + 1) step)
          = Some (ErrMissingStepNote (Z.of_nat i + 1 + 1)))
         ∧ (TrimSpace (StepNote step) ≠ "" →
            Files step !! "_doc/index.html" = None →
            Files step !! "_doc/index.md" = None →
            snd (ProblemStep_Normalize (Z.of_nat i + 1) step)
            = Some (ErrBuildingInstructions (Z.of_nat i + 1 + 1)
                      ErrNoDocumentation))).
Proof.
  split.
  - intros Hbad.
    destruct (snd (Problem_Normalize now problem steps)) eqn:E;
      [by eexists|].
    exfalso. revert E. unfold Problem_Normalize, Before, After. simpl.
    case_bool_decide as H1; [done|]. case_bool_decide as H2; [done|].
    case_bool_decide as H3; [done|]. case_bool_decide as H4; [done|].
    destruct (Z.ltb_spec (CreatedAt problem) BeginningOfTime); [done|].
    destruct (Z.ltb_spec now (CreatedAt problem)); [done|].
    destruct (Z.ltb_spec (UpdatedAt problem) (CreatedAt problem)); [done|].
    destruct (Z.ltb_spec now (UpdatedAt problem)); [done|].
    intros _. destruct Hbad as [Hq|[Hn|[->|Ht]]].
    + apply H1. by rewrite Hq, TrimSpace_empty.
    + apply H3. by rewrite Hn, TrimSpace_empty.
    + by apply H4.
    + lia.
  - intros Hunique Hescape Hnote Hsteps Hcreated Hupdated. split.
    + unfold Problem_Normalize, Before, After. simpl.
      rewrite (bool_decide_false (TrimSpace (Unique problem) = "")) by done.
      rewrite (bool_decide_false (_ ≠ _)) by (intros Hne; by apply Hne).
      rewrite (bool_decide_false (TrimSpace (Note problem) = "")) by done.
      rewrite bool_decide_false
        by (intros Hl; by apply length_zero_iff_nil in Hl).
      assert ((CreatedAt problem <? BeginningOfTime) = false) as ->
        by (apply Z.ltb_ge; lia).
      assert ((now <? CreatedAt problem) = false) as ->
        by (apply Z.ltb_ge; lia).
      assert ((UpdatedAt problem <? CreatedAt problem) = false) as ->
        by (apply Z.ltb_ge; lia).
      assert ((now <? UpdatedAt problem) = false) as ->
        by (apply Z.ltb_ge; lia).
      done.
    + intros i step _. split.
      * apply ProblemStep_Normalize_missing_note.
      * apply ProblemStep_Normalize_no_documentation.
Qed.

(** *** The signed values *)

Lemma values_of_Add key value (v : Values) k :
  values_of (Add key value v) k
  = values_of v k ++ (if decide (k = key) then [value] else []).
Proof.
  unfold values_of, Add. case_decide as Hk.
  - subst. by rewrite lookup_insert_eq.
  - rewrite lookup_insert_ne by done. by rewrite app_nil_r.
Qed.

Lemma values_of_insert key l (v : Values) k :
  values_of (<[key := l]> v) k = if decide (k = key) then l else values_of v k.
Proof.
  unfold values_of. case_decide as Hk.
  - subst. by rewrite lookup_insert_eq.
  - by rewrite lookup_insert_ne.
Qed.

Lemma strip_prefix_app pre r : strip_prefix pre (pre +:+ r) = Some r.
Proof.
  induction pre as [|c pre IH]; [done|]. rewrite string_app_cons. simpl.
  by rewrite bool_decide_true.
Qed.

Lemma strip_prefix_Some pre k r : strip_prefix pre k = Some r → k = pre +:+ r.
Proof.
  revert k. induction pre as [|c pre IH]; intros k; simpl.
  - by intros [= ->].
  - destruct k as [|b k]; [done|]. case_bool_decide; [|done].
    intros Hk%IH. rewrite string_app_cons. by subst.
Qed.

Lemma step_key_file n name :
  step_key n ("file-" +:+ name) = step_key n "file-" +:+ name.
Proof. unfold step_key. by rewrite !string_app_assoc. Qed.

Lemma values_of_add_files n (fs : gmap string string) (v : Values) k :
  values_of (map_fold (λ name contents v,
                         Add (step_key n ("file-" +:+ name)) contents v)
               v fs) k
  = values_of v k
    ++ match strip_prefix (step_key n "file-") k with
       | Some name => option_list (fs !! name)
       | None => []
       end.
Proof.
  revert k. apply (map_fold_weak_ind
    (λ (r : Values) (m : gmap string string),
       ∀ k, values_of r k
            = values_of v k
              ++ match strip_prefix (step_key n "file-") k with
                 | Some name => option_list (m !! name)
                 | None => []
                 end)).
  - intros k.
    destruct (strip_prefix _ k); by rewrite ?lookup_empty, app_nil_r.
  - intros name c m r Hnone IH k. rewrite values_of_Add, IH, step_key_file.
    rewrite <- app_assoc. f_equal.
    destruct (strip_prefix _ k) as [name'|] eqn:Hstrip.
    + apply strip_prefix_Some in Hstrip as ->.
      destruct (decide (name' = name)) as [->|Hne].
      * rewrite decide_True by done.
        by rewrite lookup_insert_eq, Hnone.
      * rewrite decide_False by (by intros ?%(inj _)).
        by rewrite lookup_insert_ne, app_nil_r.
    + rewrite decide_False; [done|]. intros ->.
      by rewrite strip_prefix_app in Hstrip.
Qed.

Lemma values_of_add_step (v : Values) step k :
  values_of (add_step v step) k = values_of v k ++ step_values step k.
Proof.
  unfold add_step, step_values.
  rewrite values_of_add_files, !values_of_Add. by rewrite <- !app_assoc.
Qed.

Lemma values_of_foldl_add_step steps (v : Values) k :
  values_of (foldl add_step v steps) k
  = values_of v k ++ concat ((λ step, step_values step k) <$> steps).
Proof.
  revert v. induction steps as [|step steps IH]; intros v; simpl.
  - by rewrite app_nil_r.
  - by rewrite IH, values_of_add_step, <- app_assoc.
Qed.

Lemma step_values_note step n :
  step_values step (step_key n "note")
  = if decide (Step step = n) then [StepNote step] else [].
Proof.
  unfold step_values.
  rewrite (decide_False (P := _ = step_key _ "weight"))
    by (by intros [_ ?]%step_key_inj).
  destruct (strip_prefix _ _) as [name|] eqn:Hstrip.
  { apply strip_prefix_Some in Hstrip. rewrite <- step_key_file in Hstrip.
    by apply step_key_inj in Hstrip as [_ ?]. }
  rewrite !app_nil_r. destruct (decide (Step step = n)) as [<-|Hne].
  - by rewrite decide_True.
  - rewrite decide_False; [done|]. by intros [? _]%step_key_inj.
Qed.

Lemma step_values_weight step n :
  step_values step (step_key n "weight")
  = if decide (Step step = n) then [FormatFloat (Weight step)] else [].
Proof.
  unfold step_values.
  rewrite (decide_False (P := _ = step_key _ "note"))
    by (by intros [_ ?]%step_key_inj).
  destruct (strip_prefix _ _) as [name|] eqn:Hstrip.
  { apply strip_prefix_Some in Hstrip. rewrite <- step_key_file in Hstrip.
    by apply step_key_inj in Hstrip as [_ ?]. }
  rewrite !app_nil_r. simpl. destruct (decide (Step step = n)) as [<-|Hne].
  - by rewrite decide_True.
  - rewrite decide_False; [done|]. by intros [? _]%step_key_inj.
Qed.

Lemma step_values_file step n name :
  step_values step (step_key n ("file-" +:+ name))
  = if decide (Step step = n) then option_list (Files step !! name) else [].
Proof.
  unfold step_values.
  rewrite (decide_False (P := _ = step_key _ "note"))
    by (by intros [_ ?]%step_key_inj).
  rewrite (decide_False (P := _ = step_key _ "weight"))
    by (by intros [_ ?]%step_key_inj).
  cbn [app]. destruct (decide (Step step = n)) as [<-|Hne].
  - by rewrite step_key_file, strip_prefix_app.
  - destruct (strip_prefix _ _) as [name'|] eqn:Hstrip; [|done].
    apply strip_prefix_Some in Hstrip. rewrite <- step_key_file in Hstrip.
    by apply step_key_inj in Hstrip as [? _].
Qed.

Lemma step_values_top step k :
  (∀ r, k ≠ "step-" +:+ r) → step_values step k = [].
Proof.
  intros Htop. unfold step_values.
  rewrite !decide_False by (intros ->; by eapply Htop).
  destruct (strip_prefix _ _) as [name|] eqn:Hstrip; [|done].
  apply strip_prefix_Some in Hstrip. exfalso. eapply Htop.
  rewrite Hstrip. unfold step_key. by rewrite !string_app_assoc.
Qed.

(** With pairwise distinct step numbers, a key of step [n] holds what the
    one step numbered [n] put there. *)
Lemma concat_step_absent (g : ProblemStep → list string) steps n :
  (∀ step, step ∈ steps → Step step ≠ n) →
  concat ((λ step, if decide (Step step = n) then g step else []) <$> steps)
  = [].
Proof.
  induction steps as [|s steps IH]; intros Habs; [done|].
  rewrite fmap_cons. simpl.
  rewrite decide_False by (apply Habs; by left).
  apply IH. intros step Hin. apply Habs. by right.
Qed.

Lemma concat_step_unique (g : ProblemStep → list string) steps step :
  NoDup (Step <$> steps) → step ∈ steps →
  concat ((λ s, if decide (Step s = Step step) then g s else []) <$> steps)
  = g step.
Proof.
  induction steps as [|s steps IH]; intros Hnd Hin.
  { by apply elem_of_nil in Hin. }
  rewrite fmap_cons in Hnd. apply NoDup_cons in Hnd as [Hnotin Hnd].
  rewrite fmap_cons. simpl. apply elem_of_cons in Hin as [->|Hin].
  - rewrite decide_True by done. rewrite concat_step_absent.
    + by rewrite app_nil_r.
    + intros s' Hs' Heq. apply Hnotin. rewrite <- Heq.
      by apply list_elem_of_fmap_2.
  - rewrite decide_False.
    + by apply IH.
    + intros Heq. apply Hnotin. rewrite Heq. by apply list_elem_of_fmap_2.
Qed.

Lemma values_of_empty k : values_of ∅ k = [].
Proof. unfold values_of. by rewrite lookup_empty. Qed.

Lemma values_of_signed_values problem steps k :
  values_of (signed_values problem steps) k
  = values_of (signed_values problem []) k
    ++ concat ((λ step, step_values step k) <$> steps).
Proof. unfold signed_values. apply values_of_foldl_add_step. Qed.

Ltac top_values :=
  unfold signed_values; cbn [foldl];
  repeat (rewrite values_of_Add || rewrite values_of_insert);
  rewrite values_of_empty;
  repeat (case_decide; try discriminate); try done.

Lemma top_level_values problem :
  let v := signed_values problem [] in
  values_of v "id" = [pretty (ID problem)]
  ∧ values_of v "unique" = [Unique problem]
  ∧ values_of v "note" = [Note problem]
  ∧ values_of v "problemType" = [ProblemType problem]
  ∧ values_of v "tags" = Tags problem
  ∧ values_of v "options" = Options problem
  ∧ values_of v "createdAt"
    = [FormatRFC3339 (Round (CreatedAt problem) Second)]
  ∧ values_of v "updatedAt"
    = [FormatRFC3339 (Round (UpdatedAt problem) Second)].
Proof. simpl. repeat split; top_values. Qed.

Lemma top_level_values_step_key problem n f :
  values_of (signed_values problem []) (step_key n f) = [].
Proof.
  destruct (step_key_starts_with_step n f) as [r ->]. top_values.
Qed.

Lemma not_a_step_key k :
  String.prefix "step-" k = false → ∀ r, k ≠ "step-" +:+ r.
Proof. intros Hpre r ->. cbv in Hpre. destruct r; discriminate. Qed.

Lemma top_level_key_values problem steps k :
  String.prefix "step-" k = false →
  values_of (signed_values problem steps) k
  = values_of (signed_values problem []) k.
Proof.
  intros Htop. rewrite values_of_signed_values.
  replace (concat _) with (@nil string); [by rewrite app_nil_r|].
  symmetry. induction steps as [|s steps IH]; [done|].
  rewrite fmap_cons. simpl. rewrite <- IH.
  by rewrite step_values_top by (by apply not_a_step_key).
Qed.

Lemma step_key_values_present problem steps step f g :
  (∀ s n, step_values s (step_key n f)
          = if decide (Step s = n) then g s else []) →
  NoDup (Step <$> steps) → step ∈ steps →
  values_of (signed_values problem steps) (step_key (Step step) f) = g step.
Proof.
  intros Hg Hnd Hin.
  rewrite values_of_signed_values, top_level_values_step_key. simpl.
  rewrite <- (concat_step_unique g steps step Hnd Hin).
  f_equal. apply list_fmap_ext. intros _ s _. apply Hg.
Qed.

Lemma step_key_values_absent problem steps n f g :
  (∀ s n, step_values s (step_key n f)
          = if decide (Step s = n) then g s else []) →
  (∀ step, step ∈ steps → Step step ≠ n) →
  values_of (signed_values problem steps) (step_key n f) = [].
Proof.
  intros Hg Habs.
  rewrite values_of_signed_values, top_level_values_step_key. simpl.
  rewrite <- (concat_step_absent g steps n Habs).
  f_equal. apply list_fmap_ext. intros _ s _. apply Hg.
Qed.

(** Equal values under every key force, for each step on one side, a step
    with the same number and the same signed content on the other. *)
Lemma steps_are_determined p1 p2 steps1 steps2 :
  NoDup (Step <$> steps1) → NoDup (Step <$> steps2) →
  (∀ k, values_of (signed_values p1 steps1) k
        = values_of (signed_values p2 steps2) k) →
  ∀ s1, s1 ∈ steps1 →
    ∃ s2, s2 ∈ steps2 ∧ Step s2 = Step s1 ∧ StepNote s2 = StepNote s1
          ∧ FormatFloat (Weight s2) = FormatFloat (Weight s1)
          ∧ Files s2 = Files s1.
Proof.
  intros Hnd1 Hnd2 Hvalues s1 Hin1.
  pose proof (Hvalues (step_key (Step s1) "note")) as Hnote.
  rewrite (step_key_values_present p1 steps1 s1 "note"
             (λ s, [StepNote s]) step_values_note Hnd1 Hin1) in Hnote.
  destruct (decide (Exists (λ s2, Step s2 = Step s1) steps2)) as [Hex|Hnex].
  - apply Exists_exists in Hex as (s2 & Hin2 & Hstep).
    exists s2. split; [done|]. split; [done|].
    rewrite <- Hstep in Hnote.
    rewrite (step_key_values_present p2 steps2 s2 "note"
               (λ s, [StepNote s]) step_values_note Hnd2 Hin2) in Hnote.
    split; [congruence|].
    pose proof (Hvalues (step_key (Step s1) "weight")) as Hweight.
    rewrite (step_key_values_present p1 steps1 s1 "weight"
               (λ s, [FormatFloat (Weight s)]) step_values_weight Hnd1 Hin1)
      in Hweight.
    rewrite <- Hstep in Hweight.
    rewrite (step_key_values_present p2 steps2 s2 "weight"
               (λ s, [FormatFloat (Weight s)]) step_values_weight Hnd2 Hin2)
      in Hweight.
    split; [congruence|].
    apply map_eq. intros name.
    pose proof (Hvalues (step_key (Step s1) ("file-" +:+ name))) as Hfile.
    rewrite (step_key_values_present p1 steps1 s1 ("file-" +:+ name)
               (λ s, option_list (Files s !! name))
               (λ s n, step_values_file s n name) Hnd1 Hin1) in Hfile.
    rewrite <- Hstep in Hfile.
    rewrite (step_key_values_present p2 steps2 s2 ("file-" +:+ name)
               (λ s, option_list (Files s !! name))
               (λ s n, step_values_file s n name) Hnd2 Hin2) in Hfile.
    destruct (Files s1 !! name), (Files s2 !! name); simplify_eq/=; done.
  - exfalso.
    rewrite (step_key_values_absent p2 steps2 (Step s1) "note"
               (λ s, [StepNote s]) step_values_note) in Hnote; [done|].
    intros s2 Hin2 Hstep. apply Hnex, Exists_exists. by exists s2.
Qed.

(** Without any assumption on the step numbers, a key of step [n] holds
    what the steps numbered [n] put there, in list order. *)
Lemma concat_steps_numbered {A} (g : ProblemStep → list A) steps n :
  concat ((λ s, if decide (Step s = n) then g s else []) <$> steps)
  = concat (g <$> filter (λ s, Step s = n) steps).
Proof.
  induction steps as [|s steps IH]; [done|].
  rewrite fmap_cons, filter_cons. simpl. case_decide.
  - rewrite fmap_cons. simpl. by rewrite IH.
  - by rewrite IH.
Qed.

Lemma step_key_values problem steps n f g :
  (∀ s m, step_values s (step_key m f)
          = if decide (Step s = m) then g s else []) →
  values_of (signed_values problem steps) (step_key n f)
  = concat (g <$> filter (λ s, Step s = n) steps).
Proof.
  intros Hg.
  rewrite values_of_signed_values, top_level_values_step_key. simpl.
  rewrite <- concat_steps_numbered.
  f_equal. apply list_fmap_ext. intros _ s _. apply Hg.
Qed.

Lemma concat_singletons {A B} (f : A → B) (l : list A) :
  concat ((λ x, [f x]) <$> l) = f <$> l.
Proof. induction l as [|x l IH]; [done|]. rewrite !fmap_cons. simpl. by f_equal. Qed.

Lemma concat_option_lists {A B} (f : A → option B) (l : list A) :
  concat ((λ x, option_list (f x)) <$> l) = omap f l.
Proof.
  induction l as [|x l IH]; [done|]. rewrite fmap_cons. simpl.
  destruct (f x); simpl; by rewrite IH.
Qed.

(** The values recorded under the keys give back the signed content. *)
Lemma values_determine_signed_content p1 p2 steps1 steps2 :
  (∀ k, values_of (signed_values p1 steps1) k
        = values_of (signed_values p2 steps2) k) →
  ID p1 = ID p2 ∧ Unique p1 = Unique p2 ∧ Note p1 = Note p2
  ∧ ProblemType p1 = ProblemType p2
  ∧ Tags p1 = Tags p2 ∧ Options p1 = Options p2
  ∧ FormatRFC3339 (Round (CreatedAt p1) Second)
    = FormatRFC3339 (Round (CreatedAt p2) Second)
  ∧ FormatRFC3339 (Round (UpdatedAt p1) Second)
    = FormatRFC3339 (Round (UpdatedAt p2) Second)
  ∧ ∀ n,
      let numbered := filter (λ s, Step s = n) in
      StepNote <$> numbered steps1 = StepNote <$> numbered steps2
      ∧ (λ s, FormatFloat (Weight s)) <$> numbered steps1
        = (λ s, FormatFloat (Weight s)) <$> numbered steps2
      ∧ ∀ name,
          omap (λ s, Files s !! name) (numbered steps1)
          = omap (λ s, Files s !! name) (numbered steps2).
Proof.
  intros Hvalues.
  destruct (top_level_values p1)
    as (Hid1 & Hun1 & Hno1 & Hty1 & Hta1 & Hop1 & Hcr1 & Hup1).
  destruct (top_level_values p2)
    as (Hid2 & Hun2 & Hno2 & Hty2 & Hta2 & Hop2 & Hcr2 & Hup2).
  simpl in *.
  assert (∀ k, String.prefix "step-" k = false →
               values_of (signed_values p1 []) k
               = values_of (signed_values p2 []) k) as Htop.
  { intros k Hk. rewrite <- (top_level_key_values p1 steps1 k Hk).
    rewrite <- (top_level_key_values p2 steps2 k Hk). apply Hvalues. }
  pose proof (Htop "id" eq_refl) as Hid.
  pose proof (Htop "unique" eq_refl) as Hun.
  pose proof (Htop "note" eq_refl) as Hno.
  pose proof (Htop "problemType" eq_refl) as Hty.
  pose proof (Htop "tags" eq_refl) as Hta.
  pose proof (Htop "options" eq_refl) as Hop.
  pose proof (Htop "createdAt" eq_refl) as Hcr.
  pose proof (Htop "updatedAt" eq_refl) as Hup.
  rewrite Hid1, Hid2 in Hid. rewrite Hun1, Hun2 in Hun.
  rewrite Hno1, Hno2 in Hno. rewrite Hty1, Hty2 in Hty.
  rewrite Hta1, Hta2 in Hta. rewrite Hop1, Hop2 in Hop.
  rewrite Hcr1, Hcr2 in Hcr. rewrite Hup1, Hup2 in Hup.
  injection Hid as Hid%(inj _).
  repeat (split; [congruence|]).
  intros n. split; [|split].
  - pose proof (Hvalues (step_key n "note")) as Hk.
    rewrite !(step_key_values _ _ n "note" (λ s, [StepNote s])
                step_values_note) in Hk.
    by rewrite !concat_singletons in Hk.
  - pose proof (Hvalues (step_key n "weight")) as Hk.
    rewrite !(step_key_values _ _ n "weight"
                (λ s, [FormatFloat (Weight s)]) step_values_weight) in Hk.
    by rewrite !concat_singletons in Hk.
  - intros name.
    pose proof (Hvalues (step_key n ("file-" +:+ name))) as Hk.
    rewrite !(step_key_values _ _ n ("file-" +:+ name)
                (λ s, option_list (Files s !! name))
                (λ s m, step_values_file s m name)) in Hk.
    by rewrite !concat_option_lists in Hk.
Qed.


(** C5 (as amended).  With [encode] the URL query-string encoding, equal
    encoded strings force equal id, unique, note, problem type, tags and
    options, equal RFC 3339 texts of the timestamps rounded to the second,
    and, for every step number, the same notes, the same formatted weights
    and, file name by file name, the same contents among the steps that
    carry this number, in list order. *)
Theorem encoding_determines_signed_content p1 p2 steps1 steps2 :
  encode (signed_values p1 steps1) = encode (signed_values p2 steps2) →
  ID p1 = ID p2 ∧ Unique p1 = Unique p2 ∧ Note p1 = Note p2
  ∧ ProblemType p1 = ProblemType p2
  ∧ Tags p1 = Tags p2 ∧ Options p1 = Options p2
  ∧ FormatRFC3339 (Round (CreatedAt p1) Second)
    = FormatRFC3339 (Round (CreatedAt p2) Second)
  ∧ FormatRFC3339 (Round (UpdatedAt p1) Second)
    = FormatRFC3339 (Round (UpdatedAt p2) Second)
  ∧ ∀ n,
      let numbered := filter (λ s, Step s = n) in
      StepNote <$> numbered steps1 = StepNote <$> numbered steps2
      ∧ (λ s, FormatFloat (Weight s)) <$> numbered steps1
        = (λ s, FormatFloat (Weight s)) <$> numbered steps2
      ∧ ∀ name,
          omap (λ s, Files s !! name) (numbered steps1)
          = omap (λ s, Files s !! name) (numbered steps2).
Proof.
  intros Heq. apply values_determine_signed_content. by apply encode_inj.
Qed.

(** Hence changing the contents of one file of one step, or the note of one
    step, and nothing else, changes the encoded string. *)
Corollary changing_a_file_changes_the_encoding problem before after
    s name contents contents' :
  Files s !! name = Some contents → contents' ≠ contents →
  let s' := mkProblemStep (ProblemID s) (Step s) (StepNote s)
              (Instructions s) (Weight s) (<[name := contents']> (Files s)) in
  encode (signed_values problem (before ++ s :: after))
  ≠ encode (signed_values problem (before ++ s' :: after)).
Proof.
  intros Hfile Hne s' Heq.
  pose proof (encode_inj _ _ Heq) as Hvalues.
  apply values_determine_signed_content in Hvalues
    as (_ & _ & _ & _ & _ & _ & _ & _ & Hsteps).
  destruct (Hsteps (Step s)) as (_ & _ & Hfiles). specialize (Hfiles name).
  rewrite !filter_app, !filter_cons in Hfiles.
  rewrite !decide_True in Hfiles by done.
  rewrite !omap_app in Hfiles. apply app_inv_head in Hfiles.
  simpl in Hfiles. rewrite Hfile, lookup_insert_eq in Hfiles. congruence.
Qed.

Corollary changing_a_note_changes_the_encoding problem before after s note' :
  note' ≠ StepNote s →
  let s' := mkProblemStep (ProblemID s) (Step s) note'
              (Instructions s) (Weight s) (Files s) in
  encode (signed_values problem (before ++ s :: after))
  ≠ encode (signed_values problem (before ++ s' :: after)).
Proof.
  intros Hne s' Heq.
  pose proof (encode_inj _ _ Heq) as Hvalues.
  apply values_determine_signed_content in Hvalues
    as (_ & _ & _ & _ & _ & _ & _ & _ & Hsteps).
  destruct (Hsteps (Step s)) as (Hnotes & _).
  rewrite !filter_app, !filter_cons in Hnotes.
  rewrite !decide_True in Hnotes by done.
  rewrite !fmap_app in Hnotes. apply app_inv_head in Hnotes.
  simpl in Hnotes. congruence.
Qed.

(** In particular, when each list numbers its steps without repetition (as
    [Problem.Normalize] leaves them), the steps agree number by number. *)
Corollary encoding_determines_numbered_steps p1 p2 steps1 steps2 :
  NoDup (Step <$> steps1) → NoDup (Step <$> steps2) →
  encode (signed_values p1 steps1) = encode (signed_values p2 steps2) →
  ∀ s1, s1 ∈ steps1 →
    ∃ s2, s2 ∈ steps2 ∧ Step s2 = Step s1 ∧ StepNote s2 = StepNote s1
          ∧ FormatFloat (Weight s2) = FormatFloat (Weight s1)
          ∧ Files s2 = Files s1.
Proof.
  intros Hnd1 Hnd2 Heq. apply (steps_are_determined p1 p2); try done.
  by apply encode_inj.
Qed.


End WithRuntime.

(** *** The theorems at work on the sample problems *)

Import Samples.

(** C5, as stated, fails: [problem_a] and [problem_b] differ in [CreatedAt]
    by a tenth of a second, yet with any runtime they have the same encoded
    string and, under every secret, the same signature. *)
Lemma rounding_conflates_timestamps :
  CreatedAt problem_a ≠ CreatedAt problem_b
  ∧ ∀ R : Runtime,
      encode (signed_values problem_a steps_a)
      = encode (signed_values problem_b steps_a)
      ∧ ∀ secret, ComputeSignature secret problem_a steps_a
                  = ComputeSignature secret problem_b steps_a.
Proof.
  split; [vm_compute; discriminate|]. intros R.
  assert (signed_values problem_a steps_a = signed_values problem_b steps_a)
    as Hsame by reflexivity.
  split; [by rewrite Hsame|]. intros secret. unfold ComputeSignature.
  by rewrite Hsame.
Qed.

Lemma encoding_determines_signed_content_witness :
  Unique problem_a = Unique problem_b
  ∧ format_rfc3339 (Round (CreatedAt problem_a) Second)
    = format_rfc3339 (Round (CreatedAt problem_b) Second).
Proof.
  destruct (encoding_determines_signed_content (H := runtime)
              problem_a problem_b steps_a steps_a)
    as (_ & Hunique & _ & _ & _ & _ & Hcreated & _).
  - vm_compute. reflexivity.
  - split; [exact Hunique | exact Hcreated].
Defined.

Lemma whitelist_is_previous_plus_root_names_witness :
  ∃ m, GetStepWhitelists steps_a !! 1%nat = Some m
       ∧ dom m = {[ "main.py" ]}.
Proof.
  destruct (whitelist_is_previous_plus_root_names (H := runtime) steps_a 1
              (mkProblemStep 7 2 "Test the program" "" float64_one
                 {[ "tests/test_main.py" := "import main" ]}))
    as (m & Hm & _ & Hdom & _).
  - reflexivity.
  - exists m. split; [exact Hm|]. vm_compute in Hm. injection Hm as <-.
    compute_done.
Defined.

(** C7, as stated, fails: the whitelist computed at step 2 is not
    [{main.py, tests/test_main.py}]. *)
Lemma step_two_whitelist_has_no_nested_name :
  GetStepWhitelists (H := runtime) steps_example !! 1%nat
  ≠ Some {[ "main.py" := true; "tests/test_main.py" := true ]}.
Proof. vm_compute. discriminate. Qed.

Lemma example_whitelists_witness :
  GetStepWhitelists (H := runtime) steps_example
  = [ {[ "main.py" := true ]}; {[ "main.py" := true ]} ].
Proof.
  apply (example_whitelists_hold_only_root_names (H := runtime)
           _ _ "print('hello')" "import main"); reflexivity.
Defined.

(** A step with a blank note and no documentation: normalising the step
    fails, normalising the problem succeeds. *)
Lemma Normalize_drops_step_errors_witness :
  snd (Problem_Normalize (H := runtime) t0 problem_a steps_blank) = None
  ∧ snd (ProblemStep_Normalize (H := runtime) 1
           (mkProblemStep 7 0 "   " "" float64_one
              {[ "main.py" := "print('hello')" ]}))
    = Some (ErrMissingStepNote 2).
Proof.
  destruct (Normalize_reports_problem_errors_and_drops_step_errors
              (H := runtime) t0 problem_a steps_blank) as [_ Hdrop].
  destruct Hdrop as [Hnil Hsteps].
  - vm_compute. discriminate.
  - vm_compute. reflexivity.
  - vm_compute. discriminate.
  - discriminate.
  - vm_compute. split; discriminate.
  - vm_compute. split; discriminate.
  - split; [exact Hnil|].
    apply (Hsteps 0%nat); reflexivity.
Defined.

End ProblemProps.

(** ** Properties of the file gatherer *)

Module GrindProps.
Import Filepath Grind.

Section Gather.
Context (dotfile : string).

Lemma Walk_gather_top_level info entries st :
  Walk (gather_walkFn dotfile info) (Dir entries) st
  = gather_top_level dotfile info entries st.
Proof.
  unfold Walk. cbn [walk]. unfold gather_walkFn at 1. cbn.
  revert st. induction entries as [|[name e] rest IH]; intros st; [done|].
  cbn [gather_top_level]. destruct e as [r| |sub|err].
  - cbn [walk]. unfold gather_walkFn at 1.
    rewrite (bool_decide_false ([name] = [])) by done.
    change (default "" (last [name])) with name.
    cbn [IsDir IsRegular negb].
    case_bool_decide; [apply IH|].
    unfold whitelisted. destruct (default false _).
    + destruct r as [err|contents]; [done|]. apply IH.
    + apply IH.
  - cbn [walk]. unfold gather_walkFn at 1.
    rewrite (bool_decide_false ([name] = [])) by done.
    cbn [IsDir IsRegular negb]. apply IH.
  - cbn [walk]. unfold gather_walkFn at 1.
    rewrite (bool_decide_false ([name] = [])) by done.
    cbn [IsDir]. apply IH.
  - done.
Qed.

Lemma gather_top_level_sound info entries st st' v name c :
  gather_top_level dotfile info entries st = (st', v) →
  files st' !! name = Some c →
  files st !! name = Some c
  ∨ ((name, Regular (inr c)) ∈ entries ∧ name ≠ dotfile
     ∧ whitelisted info name = true).
Proof.
  revert st. induction entries as [|[n e] rest IH]; intros st Hrun Hfile.
  - injection Hrun as <- <-. by left.
  - cbn [gather_top_level] in Hrun.
    assert (∀ st0, gather_top_level dotfile info rest st0 = (st', v) →
              files st0 !! name = Some c
              ∨ ((name, Regular (inr c)) ∈ (n, e) :: rest ∧ name ≠ dotfile
                 ∧ whitelisted info name = true)) as Hrest.
    { intros st0 Hst0. destruct (IH st0 Hst0 Hfile) as [?|(? & ? & ?)];
        [by left|right]. split; [by right|done]. }
    destruct e as [r| |sub|err].
    + case_bool_decide as Hdot; [by apply Hrest|].
      destruct (whitelisted info n) eqn:Hwl.
      * destruct r as [err|contents].
        { injection Hrun as <- <-. by left. }
        destruct (Hrest _ Hrun) as [Hnew|?]; [|by right].
        simpl in Hnew. destruct (decide (n = name)) as [->|Hne].
        -- rewrite lookup_insert_eq in Hnew. injection Hnew as ->.
           right. split; [by left|done].
        -- rewrite lookup_insert_ne in Hnew by done. by left.
      * destruct (Hrest _ Hrun) as [Hnew|?]; [by left|by right].
    + by apply Hrest.
    + by apply Hrest.
    + injection Hrun as <- <-. by left.
Qed.

Lemma gather_top_level_log info entries st st' v line :
  gather_top_level dotfile info entries st = (st', v) →
  line ∈ log st → line ∈ log st'.
Proof.
  revert st. induction entries as [|[n e] rest IH]; intros st Hrun Hline.
  - by injection Hrun as <- <-.
  - cbn [gather_top_level] in Hrun. destruct e as [r| |sub|err];
      try (by eapply IH); [|by injection Hrun as <- <-].
    case_bool_decide; [by eapply IH|].
    destruct (whitelisted info n).
    + destruct r; [by injection Hrun as <- <-|]. by eapply IH.
    + eapply IH; [done|]. simpl. apply elem_of_app. by left.
Qed.

Lemma gather_top_level_other_names info entries st st' v name :
  gather_top_level dotfile info entries st = (st', v) →
  name ∉ entries.*1 →
  files st' !! name = files st !! name.
Proof.
  revert st. induction entries as [|[n e] rest IH]; intros st Hrun Hname.
  - by injection Hrun as <- <-.
  - rewrite fmap_cons in Hname. apply not_elem_of_cons in Hname as [Hne Hname].
    cbn [fst] in Hne. cbn [gather_top_level] in Hrun. destruct e as [r| |sub|err];
      try (by eapply IH); [|by injection Hrun as <- <-].
    case_bool_decide; [by eapply IH|].
    destruct (whitelisted info n).
    + destruct r; [by injection Hrun as <- <-|].
      rewrite (IH _ Hrun Hname). simpl. by rewrite lookup_insert_ne.
    + by rewrite (IH _ Hrun Hname).
Qed.

Lemma gather_top_level_complete info entries st st' name r :
  NoDup entries.*1 →
  gather_top_level dotfile info entries st = (st', Continue) →
  (name, Regular r) ∈ entries → name ≠ dotfile →
  if whitelisted info name
  then ∃ c, r = inr c ∧ files st' !! name = Some c
  else LogSkipping name ∈ log st'.
Proof.
  revert st. induction entries as [|[n e] rest IH]; intros st Hnd Hrun Hin Hdot.
  { by apply elem_of_nil in Hin. }
  rewrite fmap_cons in Hnd. apply NoDup_cons in Hnd as [Hfresh Hnd].
  cbn [fst] in Hfresh. cbn [gather_top_level] in Hrun.
  apply elem_of_cons in Hin as [[= <- <-]|Hin].
  - rewrite bool_decide_false in Hrun by done.
    destruct (whitelisted info name).
    + destruct r as [err|c]; [done|]. exists c. split; [done|].
      rewrite (gather_top_level_other_names _ _ _ _ _ _ Hrun Hfresh).
      simpl. by rewrite lookup_insert_eq.
    + eapply gather_top_level_log; [done|]. simpl.
      apply elem_of_app. right. by left.
  - destruct e as [r'| |sub|err].
    + case_bool_decide; [exact (IH _ Hnd Hrun Hin Hdot)|].
      destruct (whitelisted info n).
      * destruct r' as [err|c]; [done|]. exact (IH _ Hnd Hrun Hin Hdot).
      * exact (IH _ Hnd Hrun Hin Hdot).
    + exact (IH _ Hnd Hrun Hin Hdot).
    + exact (IH _ Hnd Hrun Hin Hdot).
    + done.
Qed.

Lemma gather_top_level_prune info entries st :
  gather_top_level dotfile info (prune <$> entries) st
  = gather_top_level dotfile info entries st.
Proof.
  revert st. induction entries as [|[n e] rest IH]; intros st; [done|].
  rewrite fmap_cons. destruct e as [r| |sub|err]; cbn; rewrite ?IH; try done.
  repeat case_match; by rewrite ?IH.
Qed.

Lemma gather_top_level_verdict info entries st st' v :
  gather_top_level dotfile info entries st = (st', v) →
  v ≠ SkipDir ∧ (v = Continue ↔ Forall (passable dotfile info) entries).
Proof.
  revert st. induction entries as [|[n e] rest IH]; intros st Hrun.
  - injection Hrun as <- <-. split; [done|]. split; [by constructor|done].
  - cbn [gather_top_level] in Hrun.
    assert (∀ st0, gather_top_level dotfile info rest st0 = (st', v) →
              passable dotfile info (n, e) →
              v ≠ SkipDir
              ∧ (v = Continue
                 ↔ Forall (passable dotfile info) ((n, e) :: rest)))
      as Hrest.
    { intros st0 Hst0 Hok. destruct (IH st0 Hst0) as [Hskip Hiff].
      split; [done|]. rewrite Forall_cons. tauto. }
    assert (∀ err, ¬ passable dotfile info (n, e) →
              (st, Abort err) = (st', v) →
              v ≠ SkipDir
              ∧ (v = Continue
                 ↔ Forall (passable dotfile info) ((n, e) :: rest)))
      as Hstop.
    { intros err Hbad [= <- <-]. split; [done|]. rewrite Forall_cons.
      split; [done|]. by intros [? _]. }
    destruct e as [r| |sub|err].
    + case_bool_decide as Hdot.
      { apply (Hrest _ Hrun). unfold passable. simpl. destruct r; auto. }
      destruct (whitelisted info n) eqn:Hwl.
      * destruct r as [err|c].
        -- apply (Hstop err); [|done]. unfold passable. simpl.
           intros [?|?]; congruence.
        -- by apply (Hrest _ Hrun).
      * apply (Hrest _ Hrun). unfold passable. simpl. destruct r; auto.
    + by apply (Hrest _ Hrun).
    + by apply (Hrest _ Hrun).
    + apply (Hstop err); [|done]. unfold passable. simpl. tauto.
Qed.

(** C8 (as amended).  The walk of the gatherer takes the regular files that
    lie directly in the problem directory and nothing below it: a file ends
    up in the result exactly when it is such a file, is on the whitelist and
    is not the configuration file; a file that is not on the whitelist is
    skipped with a log line and without an error; subdirectories are not
    entered, so the result does not depend on what they hold. *)
Theorem gather_takes_top_level_files_only info entries st v :
  NoDup entries.*1 →
  Walk (gather_walkFn dotfile info) (Dir entries) (mkGathered ∅ []) = (st, v) →
  (∀ name c, files st !! name = Some c →
     (name, Regular (inr c)) ∈ entries ∧ name ≠ dotfile
     ∧ whitelisted info name = true)
  ∧ (v = Continue →
     ∀ name r, (name, Regular r) ∈ entries → name ≠ dotfile →
       if whitelisted info name
       then ∃ c, r = inr c ∧ files st !! name = Some c
       else LogSkipping name ∈ log st ∧ files st !! name = None)
  ∧ Walk (gather_walkFn dotfile info) (Dir (prune <$> entries))
      (mkGathered ∅ []) = (st, v)
  ∧ (v = Continue ↔ Forall (passable dotfile info) entries).
Proof.
  intros Hnd Hrun. rewrite Walk_gather_top_level in Hrun.
  assert (∀ name c, files st !! name = Some c →
            (name, Regular (inr c)) ∈ entries ∧ name ≠ dotfile
            ∧ whitelisted info name = true) as Hsound.
  { intros name c Hfile.
    destruct (gather_top_level_sound _ _ _ _ _ _ _ Hrun Hfile) as [Hinit|?];
      [|done].
    simpl in Hinit. by rewrite lookup_empty in Hinit. }
  split; [exact Hsound|]. split; [|split].
  - intros -> name r Hin Hdot.
    pose proof (gather_top_level_complete _ _ _ _ _ _ Hnd Hrun Hin Hdot)
      as Hc.
    destruct (whitelisted info name) eqn:Hwl; [done|]. split; [done|].
    destruct (files st !! name) as [c|] eqn:Hfile; [|done].
    destruct (Hsound _ _ Hfile) as (_ & _ & ?). congruence.
  - by rewrite Walk_gather_top_level, gather_top_level_prune.
  - by apply (gather_top_level_verdict _ _ _ _ _ Hrun).
Qed.

End Gather.

(** *** The theorems at work on the sample directory *)

Import Samples.

(** C8, as stated, fails: [tests/test_main.py] is a readable regular file
    in a subdirectory of the problem directory and its name is on the
    whitelist, yet the walk ends without error and has neither gathered it
    nor logged it as skipped; [gather] then stops because a file is
    missing. *)
Lemma file_in_subdirectory_is_not_gathered :
  ("test_main.py", "import main") ∈ regular_files problem_dir
  ∧ whitelisted info_a "test_main.py" = true
  ∧ snd (Walk (gather_walkFn ".grind" info_a) problem_dir (mkGathered ∅ []))
    = Continue
  ∧ files (fst (Walk (gather_walkFn ".grind" info_a) problem_dir
                  (mkGathered ∅ [])))
    !! "test_main.py" = None
  ∧ (LogSkipping "test_main.py"
     ∉ log (fst (Walk (gather_walkFn ".grind" info_a) problem_dir
                   (mkGathered ∅ []))))
  ∧ gather_files ".grind" problem_dir info_a
    = Fatal [LogSkipping "scratch.txt"; LogDidNotFindAll;
             LogNotFound "test_main.py"].
Proof.
  split; [|split; [|split; [|split; [|split]]]].
  - compute_done.
  - reflexivity.
  - reflexivity.
  - vm_compute. reflexivity.
  - compute_done.
  - vm_compute. reflexivity.
Qed.

Lemma gather_takes_top_level_files_only_witness :
  ∃ st,
    Walk (gather_walkFn ".grind" info_top) problem_dir (mkGathered ∅ [])
    = (st, Continue)
    ∧ files st !! "main.py" = Some "print('hello')"
    ∧ LogSkipping "scratch.txt" ∈ log st
    ∧ files st !! "scratch.txt" = None
    ∧ files st !! "test_main.py" = None.
Proof.
  destruct (Walk (gather_walkFn ".grind" info_top) problem_dir
              (mkGathered ∅ [])) as [st v] eqn:Hrun.
  assert (v = Continue) as ->.
  { vm_compute in Hrun. by injection Hrun. }
  unfold problem_dir in Hrun.
  destruct (gather_takes_top_level_files_only ".grind" info_top
              problem_entries st Continue)
    as (Hsound & Hcomplete & _ & _).
  - compute_done.
  - exact Hrun.
  - exists st. split; [done|].
    destruct (Hcomplete eq_refl "main.py" (inr "print('hello')"))
      as (c & [= <-] & Hmain).
    { apply list_elem_of_further, list_elem_of_here. }
    { discriminate. }
    destruct (Hcomplete eq_refl "scratch.txt" (inr "notes"))
      as (Hlog & Hscratch).
    { apply list_elem_of_further, list_elem_of_further, list_elem_of_here. }
    { discriminate. }
    split; [done|]. split; [done|]. split; [done|].
    destruct (files st !! "test_main.py") as [c|] eqn:Hfile; [|done].
    destruct (Hsound _ _ Hfile) as (_ & _ & Hwl). discriminate.
Defined.

End GrindProps.

(** ** The embedded functions on small inputs *)

Module Examples.
Import Go Strings Problems Samples.

Example Atoi_accepts_signed_decimals :
  Atoi "3" = Some 3 ∧ Atoi "-12" = Some (-12) ∧ Atoi "+7" = Some 7.
Proof. by vm_compute. Qed.

Example Atoi_rejects_the_rest :
  Atoi "" = None ∧ Atoi "+" = None ∧ Atoi "12a" = None
  ∧ Atoi "9223372036854775808" = None.
Proof. by vm_compute. Qed.

Example Sub_saturates : Sub (2 ^ 63) (- 2 ^ 63) = maxDuration.
Proof. reflexivity. Qed.

Example Round_to_the_second :
  Round 1499999999 Second = 1000000000
  ∧ Round 1500000000 Second = 2000000000
  ∧ Round (-1500000000) Second = -1000000000.
Proof. by vm_compute. Qed.

Example Split_on_slash :
  Split "a/b//c" "/" = ["a"; "b"; ""; "c"] ∧ Split "" "/" = [""].
Proof. by vm_compute. Qed.

Example Replace_is_not_overlapping :
  Replace "aaaa" "aa" "b" = "bb" ∧ Replace "xaaay" "aa" "b" = "xbay".
Proof. by vm_compute. Qed.

Example QueryEscape_reserved_bytes :
  QueryEscape "a b&c=d/~" = "a+b%26c%3Dd%2F~".
Proof. by vm_compute. Qed.

Example fixLineEndings_trims_lines_and_tail :
  fixLineEndings ("a  " +:+ crlf +:+ "b " +:+ lf +:+ lf +:+ lf)
  = "a" +:+ lf +:+ "b" +:+ lf
  ∧ fixLineEndings "" = "".
Proof. by vm_compute. Qed.

Example fixNewLines_keeps_trailing_spaces :
  fixNewLines ("a  " +:+ crlf +:+ "b " +:+ lf +:+ lf)
  = "a  " +:+ lf +:+ "b " +:+ lf.
Proof. by vm_compute. Qed.

Example encode_of_a_small_map :
  encode {[ "tags" := ["b"; "a"]; "id" := ["7"]; "note" := ["x y"] ]}
  = "id=7&note=x+y&tags=b&tags=a".
Proof. by vm_compute. Qed.

Example signature_input_of_the_sample_problem :
  encode (signed_values problem_a steps_example)
  = "createdAt=2016-01-01T00%3A00%3A00Z&id=7&note=Hello%2C+world"
    +:+ "&problemType=python3unittest"
    +:+ "&step-1-file-main.py=print%28%27hello%27%29"
    +:+ "&step-1-note=Write+the+program&step-1-weight=1"
    +:+ "&step-2-file-tests%2Ftest_main.py=import+main"
    +:+ "&step-2-note=Test+the+program&step-2-weight=1"
    +:+ "&tags=intro&tags=python&unique=hello-world"
    +:+ "&updatedAt=2016-01-01T01%3A00%3A00Z".
Proof. by vm_compute. Qed.

End Examples.

(** ** Further properties of [PostUserAssignmentCommit] *)

Module CommitMore.
Import Go Commits CommitQueries CommitProps.

Section WithPayloadTypes.
Context {Float64 ReportCard EventMessage : Type}.
Abbreviation Commit := (Commit Float64 ReportCard EventMessage).
Abbreviation DB := (DB Float64 ReportCard EventMessage).
Implicit Types (db : DB) (c oc commit r : Commit) (a : Z) (now : Time).

Ltac run_post :=
  unfold run, PostUserAssignmentCommit, bind, ret, respond, read, write,
    error_if; simpl.

(** What an accepted request does when no statement fails. *)
Lemma post_outcome now user params commit db a :
  accepted db user params commit a →
  run (PostUserAssignmentCommit now no_faults user params commit) db
  = match query_open_commit db a with
    | Some oc =>
        if must_close now oc commit then
          let '(c, db') :=
            db_insert (db_update db (set_UpdatedAt now (set_Closed true oc)))
              (prepared now user a 0 now commit) in
          (JSON StatusOK c, db')
        else
          let '(c, db') :=
            db_save db (prepared now user a (ID oc) (CreatedAt oc) commit) in
          (JSON StatusOK c, db')
    | None =>
        let '(c, db') := db_insert db (prepared now user a 0 now commit) in
        (JSON StatusOK c, db')
    end.
Proof.
  intros (Hatoi & [asg Hasg] & Hsub). run_post.
  rewrite Hatoi, Hasg. simpl.
  rewrite bool_decide_false by done. simpl.
  unfold prepared, db_save.
  destruct (query_open_commit db a) as [oc|]; simpl.
  - destruct (must_close now oc commit); simpl.
    + by destruct (carries_grading _).
    + destruct (carries_grading _); simpl; by destruct (ID oc =? 0).
  - by destruct (carries_grading _).
Qed.

Lemma prepared_fields now user a id created commit :
  let p := prepared now user a id created commit in
  ID p = id ∧ AssignmentID p = a ∧ UserID p = user
  ∧ CreatedAt p = created ∧ UpdatedAt p = now
  ∧ ProblemStepNumber p = ProblemStepNumber commit
  ∧ Submission p = Submission commit ∧ Action p = Action commit
  ∧ Comment p = Comment commit ∧ Score p = Score commit
  ∧ ReportCard_ p = ReportCard_ commit ∧ Transcript p = Transcript commit
  ∧ Closed p = Closed commit || carries_grading commit.
Proof.
  unfold prepared. simpl.
  change (carries_grading (set_UserID _ _)) with (carries_grading commit).
  destruct (carries_grading commit); simpl; repeat split; try done.
  - by rewrite orb_true_r.
  - by rewrite orb_false_r.
Qed.

Lemma set_ID_fields id c :
  ID (set_ID id c) = id ∧ AssignmentID (set_ID id c) = AssignmentID c
  ∧ UserID (set_ID id c) = UserID c ∧ CreatedAt (set_ID id c) = CreatedAt c
  ∧ UpdatedAt (set_ID id c) = UpdatedAt c
  ∧ ProblemStepNumber (set_ID id c) = ProblemStepNumber c
  ∧ Submission (set_ID id c) = Submission c
  ∧ Closed (set_ID id c) = Closed c.
Proof. done. Qed.

(** X1. A request that fails validation is answered with an error and
    nothing is written: 400 for an assignment id that is not a number, 404
    when the current user has no such assignment, and 400 for a submission
    without files -- which never reaches a write, whatever else holds. *)
Theorem invalid_requests_are_rejected_without_a_write
    now flt user params commit db :
  (param params "assignment_id" = None →
   run (PostUserAssignmentCommit now flt user params commit) db
   = (HTTPError StatusBadRequest, db))
  ∧ (∀ a, param params "assignment_id" = Some a →
       assignment_query_fails flt = false →
       query_assignment db a user = None →
       run (PostUserAssignmentCommit now flt user params commit) db
       = (HTTPError StatusNotFound, db))
  ∧ (∀ a, param params "assignment_id" = Some a →
       assignment_query_fails flt = false →
       is_Some (query_assignment db a user) →
       size (Submission commit) = 0%nat →
       run (PostUserAssignmentCommit now flt user params commit) db
       = (HTTPError StatusBadRequest, db))
  ∧ (size (Submission commit) = 0%nat →
     ∃ status,
       run (PostUserAssignmentCommit now flt user params commit) db
       = (HTTPError status, db)).
Proof.
  unfold param. split; [|split; [|split]].
  - intros Hatoi. run_post. by rewrite Hatoi.
  - intros a Hatoi Hflt Hasg. run_post. rewrite Hatoi, Hflt. simpl.
    by rewrite Hasg.
  - intros a Hatoi Hflt [asg Hasg] Hempty. run_post.
    rewrite Hatoi, Hflt. simpl. rewrite Hasg. simpl.
    by rewrite bool_decide_true.
  - intros Hempty. run_post.
    destruct (Atoi _) as [a|]; simpl; [|by eexists].
    destruct (assignment_query_fails flt); simpl; [by eexists|].
    destruct (query_assignment db a user); simpl; [|by eexists].
    rewrite bool_decide_true by done. by eexists.
Qed.

(** X2. The first submission for an assignment -- no commit of it is open
    -- adds exactly one row, under the next key of the sequence, created and
    updated now, with the submitted files; nothing else in the store
    changes. *)
Theorem first_submission_opens_a_new_commit now user params commit db a :
  accepted db user params commit a →
  query_open_commit db a = None →
  ∃ saved,
    run (PostUserAssignmentCommit now no_faults user params commit) db
    = (JSON StatusOK saved,
       mkDB (assignments db) (commits db ++ [saved]) (commits_seq db + 1))
    ∧ ID saved = commits_seq db
    ∧ CreatedAt saved = now ∧ UpdatedAt saved = now
    ∧ Submission saved = Submission commit
    ∧ ProblemStepNumber saved = ProblemStepNumber commit.
Proof.
  intros Hacc Hnone. rewrite (post_outcome _ _ _ _ _ _ Hacc), Hnone.
  unfold db_insert. eexists. split; [reflexivity|].
  pose proof (prepared_fields now user a 0 now commit) as Hp. simpl in Hp.
  simpl. tauto.
Qed.

Lemma post_saved now user params commit db a :
  accepted db user params commit a →
  ∃ saved db',
    run (PostUserAssignmentCommit now no_faults user params commit) db
    = (JSON StatusOK saved, db')
    ∧ In saved (commits db')
    ∧ AssignmentID saved = a ∧ UserID saved = user
    ∧ UpdatedAt saved = now
    ∧ ProblemStepNumber saved = ProblemStepNumber commit
    ∧ Submission saved = Submission commit
    ∧ Closed saved = Closed commit || carries_grading commit.
Proof.
  intros Hacc. rewrite (post_outcome _ _ _ _ _ _ Hacc).
  assert (∀ id created db0,
    let p := prepared now user a id created commit in
    ∃ saved db', (let '(c, d) := db_insert db0 p in (JSON StatusOK c, d))
                 = (JSON StatusOK saved, db')
      ∧ In saved (commits db')
      ∧ AssignmentID saved = a ∧ UserID saved = user
      ∧ UpdatedAt saved = now
      ∧ ProblemStepNumber saved = ProblemStepNumber commit
      ∧ Submission saved = Submission commit
      ∧ Closed saved = Closed commit || carries_grading commit) as Hins.
  { intros id created db0 p. unfold db_insert. eexists _, _.
    split; [reflexivity|]. split; [apply in_or_app; right; by left|].
    pose proof (prepared_fields now user a id created commit) as Hp.
    simpl in Hp. simpl. tauto. }
  destruct (query_open_commit db a) as [oc|] eqn:Hopen; [|apply Hins].
  destruct (must_close now oc commit); [apply Hins|].
  unfold db_save. destruct (ID _ =? 0); [apply Hins|].
  apply query_open_commit_Some in Hopen as (Hin & _ & _).
  pose proof (prepared_fields now user a (ID oc) (CreatedAt oc) commit) as Hp.
  simpl in Hp. eexists _, _. split; [reflexivity|]. split; [|tauto].
  simpl. apply in_map_iff. exists oc. split; [|done].
  apply update_row_self. symmetry. tauto.
Qed.

(** X3. Whatever the client put into the commit, the stored commit belongs
    to the assignment of the URL and to the current user, carries the step
    number that was submitted, is stamped now, and is closed exactly when
    the client sent it closed or it carries grading. *)
Theorem stored_commit_is_bound_to_url_and_user
    now user params commit db a :
  accepted db user params commit a →
  ∃ saved db',
    run (PostUserAssignmentCommit now no_faults user params commit) db
    = (JSON StatusOK saved, db')
    ∧ In saved (commits db')
    ∧ AssignmentID saved = a ∧ UserID saved = user
    ∧ UpdatedAt saved = now
    ∧ ProblemStepNumber saved = ProblemStepNumber commit
    ∧ Closed saved = Closed commit || carries_grading commit.
Proof.
  intros Hacc.
  destruct (post_saved now user params commit db a Hacc)
    as (saved & db' & Hrun & Hin & Ha & Hu & Hup & Hstep & _ & Hclosed).
  by exists saved, db'.
Qed.

Lemma NoDup_map_ID_inj (cs : list Commit) r1 r2 :
  NoDup (map ID cs) → In r1 cs → In r2 cs → ID r1 = ID r2 → r1 = r2.
Proof.
  induction cs as [|x cs IH]; simpl; [done|].
  intros [Hnot Hnd]%NoDup_cons [->|H1] [->|H2] E; try done.
  - destruct Hnot. apply list_elem_of_In, in_map_iff. by exists r2.
  - destruct Hnot. apply list_elem_of_In, in_map_iff. by exists r1.
  - by apply IH.
Qed.

Lemma lookup_update_row_ne c' (cs : list Commit) (i : nat) r :
  cs !! i = Some r → ID r ≠ ID c' → map (update_row c') cs !! i = Some r.
Proof.
  revert i. induction cs as [|x cs IH]; intros [|i]; simpl; try done.
  - intros [= ->] Hne. unfold update_row.
    by destruct (Z.eqb_spec (ID r) (ID c')).
  - apply IH.
Qed.

Lemma length_map_update_row c' (cs : list Commit) :
  length (map (update_row c') cs) = length cs.
Proof. apply length_map. Qed.

(** The shape of the store after any request: untouched, one row appended,
    the open commit overwritten, or both. *)
Lemma post_store now flt user params commit db :
  let db' := snd (run (PostUserAssignmentCommit now flt user params commit) db)
  in
  assignments db' = assignments db
  ∧ (db' = db
     ∨ (∃ n, commits db' = commits db ++ [n] ∧ ID n = commits_seq db
             ∧ commits_seq db' = commits_seq db + 1)
     ∨ ∃ a oc c',
         param params "assignment_id" = Some a
         ∧ query_open_commit db a = Some oc ∧ ID c' = ID oc
         ∧ ((commits db' = map (update_row c') (commits db)
             ∧ commits_seq db' = commits_seq db)
            ∨ ∃ n, commits db' = map (update_row c') (commits db) ++ [n]
                   ∧ ID n = commits_seq db
                   ∧ commits_seq db' = commits_seq db + 1)).
Proof.
  destruct flt as [f1 f2 f3 f4]. unfold param. run_post.
  destruct (Atoi _) as [a|]; simpl; [|by auto].
  destruct f1; simpl; [by auto|].
  destruct (query_assignment db a user); simpl; [|by auto].
  case_bool_decide; simpl; [by auto|].
  destruct f2; simpl; [by auto|].
  destruct (query_open_commit db a) as [oc|] eqn:Hopen; simpl.
  - destruct (must_close now oc commit); simpl.
    + destruct f3; simpl; [by auto|].
      destruct f4; simpl.
      { split; [done|]. right. right.
        exists a, oc, (set_UpdatedAt now (set_Closed true oc)).
        repeat split; try done. by left. }
      unfold db_save.
      match goal with |- context [db_insert _ (set_UpdatedAt now ?x)] =>
        remember x as p eqn:Hprep;
        assert (ID p = 0) as Hid by (subst p; by case_match)
      end.
      simpl. rewrite Hid. simpl. split; [done|]. right. right.
      exists a, oc, (set_UpdatedAt now (set_Closed true oc)).
      repeat split; try done. right. by eexists.
    + destruct f4; simpl; [by auto|].
      unfold db_save.
      match goal with |- context [db_insert _ (set_UpdatedAt now ?x)] =>
        remember x as p eqn:Hprep;
        assert (ID p = ID oc) as Hid by (subst p; by case_match)
      end.
      simpl. destruct (ID p =? 0); simpl.
      * split; [done|]. right. left. by eexists.
      * split; [done|]. right. right.
        exists a, oc, (set_UpdatedAt now p). repeat split; try done. by left.
  - destruct f4; simpl; [by auto|].
    unfold db_save.
    match goal with |- context [db_insert _ (set_UpdatedAt now ?x)] =>
      remember x as p eqn:Hprep;
      assert (ID p = 0) as Hid by (subst p; by case_match)
    end.
    simpl. rewrite Hid. simpl. split; [done|]. right. left. by eexists.
Qed.

(** X4. Under the store discipline a request rewrites at most the open
    commit of its own assignment: every row that is closed, or that belongs
    to another assignment than the one of the URL, is still at its place in
    the table afterwards, whatever statement fails. *)
Theorem closed_and_foreign_rows_are_never_rewritten
    now flt user params commit db (i : nat) r :
  wf_db db →
  commits db !! i = Some r →
  Closed r = true ∨ param params "assignment_id" ≠ Some (AssignmentID r) →
  commits (snd (run (PostUserAssignmentCommit now flt user params commit) db))
    !! i = Some r.
Proof.
  intros Hwf Hi Hr.
  destruct (post_store now flt user params commit db) as (_ & Hshape).
  destruct Hshape as [->|[(n & -> & _)|(a & oc & c' & Ha & Hopen & Hid & Hc)]].
  - done.
  - by apply lookup_app_l_Some.
  - apply query_open_commit_Some in Hopen as (Hin & Hnc & Hasg).
    assert (ID r ≠ ID c') as Hne.
    { rewrite Hid. intros E.
      assert (r = oc) as ->.
      { eapply NoDup_map_ID_inj; [apply Hwf| |done|done].
        apply list_elem_of_In, list_elem_of_lookup. by exists i. }
      destruct Hr as [Hr|Hr]; congruence. }
    destruct Hc as [[-> _]|(n & -> & _)].
    + by apply lookup_update_row_ne.
    + apply lookup_app_l_Some. by apply lookup_update_row_ne.
Qed.

(** X5. No request deletes a commit or touches the assignments: the table
    of commits keeps its length or grows by one row, the key sequence never
    goes back, and the store discipline (unique positive keys below the
    sequence) holds afterwards, whatever statement fails. *)
Theorem requests_only_grow_the_store now flt user params commit db :
  wf_db db →
  let db' := snd (run (PostUserAssignmentCommit now flt user params commit) db)
  in
  wf_db db'
  ∧ assignments db' = assignments db
  ∧ (length (commits db) ≤ length (commits db') ≤ length (commits db) + 1)%nat
  ∧ commits_seq db ≤ commits_seq db'
  ∧ map ID (commits db) `prefix_of` map ID (commits db').
Proof.
  intros Hwf db'. split; [by apply wf_db_is_preserved|].
  destruct (post_store now flt user params commit db) as (Hasg & Hshape).
  fold db' in Hasg, Hshape. split; [done|].
  assert (∀ c' : Commit, ∀ oc, In oc (commits db) → ID c' = ID oc →
            map ID (map (update_row c') (commits db)) = map ID (commits db))
    as Hkeys.
  { intros c' oc _ Hid. rewrite map_map. apply map_ext. intros x.
    unfold update_row. by destruct (Z.eqb_spec (ID x) (ID c')). }
  destruct Hshape as [->|[(n & -> & _ & ->)|(a & oc & c' & _ & Hopen & Hid & Hc)]].
  - repeat split; try lia. done.
  - rewrite length_app, map_app. simpl. repeat split; try lia.
    by apply prefix_app_r.
  - apply query_open_commit_Some in Hopen as (Hin & _).
    destruct Hc as [[-> ->]|(n & -> & _ & ->)].
    + rewrite length_map, (Hkeys _ _ Hin Hid). repeat split; try lia. done.
    + rewrite length_app, length_map, map_app, (Hkeys _ _ Hin Hid). simpl.
      repeat split; try lia. by apply prefix_app_r.
Qed.

Lemma count_open_In a s (cs : list Commit) :
  In s cs → is_open_for a s = true → (1 ≤ count_open a cs)%nat.
Proof.
  intros (l1 & l2 & ->)%in_split Hopen.
  rewrite count_open_app, count_open_cons, Hopen. lia.
Qed.

Lemma find_the_open_one a s (cs : list Commit) :
  (count_open a cs ≤ 1)%nat → In s cs → is_open_for a s = true →
  find (is_open_for a) cs = Some s.
Proof.
  induction cs as [|x cs IH]; simpl; [done|].
  rewrite count_open_cons. intros Hone [->|Hin] Hopen.
  - by rewrite Hopen.
  - destruct (is_open_for a x) eqn:Hx.
    + pose proof (count_open_In a s cs Hin Hopen). lia.
    + apply IH; [lia|done..].
Qed.

Lemma post_keeps_one_open now user params commit db a :
  wf_db db → accepted db user params commit a →
  (count_open a (commits db) ≤ 1)%nat →
  (count_open a
     (commits
        (snd (run (PostUserAssignmentCommit now no_faults user params commit)
                db))) ≤ 1)%nat.
Proof.
  intros Hwf Hacc Hone. rewrite (post_outcome _ _ _ _ _ _ Hacc).
  pose proof (prepared_fields now user a 0 now commit) as Hp0. simpl in Hp0.
  destruct (query_open_commit db a) as [oc|] eqn:Hopen.
  - apply query_open_commit_Some in Hopen as (Hin & Hnc & Ha).
    assert (is_open_for a oc = true) as Hoo.
    { unfold is_open_for. by rewrite Hnc, Ha, Z.eqb_refl. }
    destruct (must_close now oc commit).
    + unfold db_insert. simpl.
      etrans; [apply (count_open_insert a); simpl; tauto|].
      rewrite decide_True by done.
      by rewrite (count_open_closing_the_open_one a _ oc).
    + pose proof (prepared_fields now user a (ID oc) (CreatedAt oc) commit)
        as Hp. cbv zeta in Hp.
      unfold db_save. destruct Hp as (Hid & Hasg & _). rewrite Hid.
      pose proof (wf_db_ID_nonzero _ _ Hwf Hin) as Hnz.
      apply Z.eqb_neq in Hnz. rewrite Hnz. simpl.
      etrans; [|exact Hone].
      apply (count_open_merging_update a a _ oc); try done. apply Hwf.
  - apply query_open_commit_None in Hopen.
    unfold db_insert. simpl.
    etrans; [apply (count_open_insert a); simpl; tauto|].
    rewrite decide_True by done. lia.
Qed.

(** X6. Two submissions in a row.  Let the first one be stored open (not
    sent closed, no grading).  The second one is merged into the commit of
    the first -- same key, same creation time, no new row -- exactly when it
    arrives within twenty minutes and names the same step; otherwise it gets
    a key of its own. *)
Theorem second_submission_joins_the_first_iff_in_window
    now1 now2 user params c1 c2 db a :
  wf_db db →
  at_most_one_open a db →
  accepted db user params c1 a →
  size (Submission c2) ≠ 0%nat →
  Closed c1 = false →
  carries_grading c1 = false →
  ∃ s1 db1 s2 db2,
    run (PostUserAssignmentCommit now1 no_faults user params c1) db
    = (JSON StatusOK s1, db1)
    ∧ run (PostUserAssignmentCommit now2 no_faults user params c2) db1
      = (JSON StatusOK s2, db2)
    ∧ (ID s2 = ID s1 ↔
       now2 - now1 ≤ 20 * 60 * 1000000000
       ∧ ProblemStepNumber c2 = ProblemStepNumber c1)
    ∧ (ID s2 = ID s1 →
       CreatedAt s2 = CreatedAt s1
       ∧ Submission s2 = Submission c2
       ∧ length (commits db2) = length (commits db1)).
Proof.
  intros Hwf Hone Hacc Hsub2 Hc1 Hg1.
  pose proof (post_keeps_one_open now1 _ _ _ _ _ Hwf Hacc Hone) as Hone1.
  pose proof (wf_db_is_preserved now1 no_faults user params c1 db Hwf) as Hwf1.
  destruct (post_store now1 no_faults user params c1 db) as (Hasg1 & _).
  destruct (post_saved now1 user params c1 db a Hacc)
    as (s1 & db1 & Hrun1 & Hin1 & Ha1 & Hu1 & Hup1 & Hstep1 & _ & Hclosed1).
  rewrite Hrun1 in Hone1, Hwf1, Hasg1. simpl in Hone1, Hwf1, Hasg1.
  rewrite Hc1, Hg1 in Hclosed1. simpl in Hclosed1.
  assert (accepted db1 user params c2 a) as Hacc2.
  { destruct Hacc as (Hatoi & Hq & _). split; [done|]. split; [|done].
    unfold query_assignment in *. by rewrite Hasg1. }
  assert (query_open_commit db1 a = Some s1) as Hopen1.
  { apply find_the_open_one; [done..|].
    unfold is_open_for. by rewrite Hclosed1, Ha1, Z.eqb_refl. }
  exists s1, db1.
  rewrite (post_outcome _ _ _ _ _ _ Hacc2), Hopen1.
  destruct (must_close now2 s1 c2) eqn:Hmc.
  - apply must_close_spec in Hmc. rewrite Hup1, Hstep1 in Hmc.
    unfold db_insert. simpl. eexists _, _.
    split; [done|]. split; [reflexivity|]. simpl.
    destruct Hwf1 as (_ & Hpos & _). rewrite Forall_forall in Hpos.
    apply list_elem_of_In, Hpos in Hin1.
    split; [split|]; lia.
  - apply must_close_false in Hmc. rewrite Hup1, Hstep1 in Hmc.
    pose proof (prepared_fields now2 user a (ID s1) (CreatedAt s1) c2) as Hp.
    cbv zeta in Hp. destruct Hp as (Hid & _ & _ & Hcr & _ & _ & Hsub & _).
    unfold db_save. rewrite Hid.
    pose proof (wf_db_ID_nonzero _ _ Hwf1 Hin1) as Hnz.
    apply Z.eqb_neq in Hnz. rewrite Hnz.
    eexists _, _. split; [done|]. split; [reflexivity|].
    split; [split; [intros _; lia | done]|].
    intros _. simpl. by rewrite length_map.
Qed.

Abbreviation Reply := (Reply Float64 ReportCard EventMessage).
Implicit Types (u id : Z).

#[local] Existing Instances created_le_dec created_ge_dec.

#[local] Instance created_le_total :
  Total (@created_le Float64 ReportCard EventMessage).
Proof. intros c1 c2. unfold created_le. lia. Qed.
#[local] Instance created_le_trans :
  Transitive (@created_le Float64 ReportCard EventMessage).
Proof. intros c1 c2 c3. unfold created_le. lia. Qed.
#[local] Instance created_ge_total :
  Total (@created_ge Float64 ReportCard EventMessage).
Proof. intros c1 c2. unfold created_ge. lia. Qed.
#[local] Instance created_ge_trans :
  Transitive (@created_ge Float64 ReportCard EventMessage).
Proof. intros c1 c2 c3. unfold created_ge. lia. Qed.

Lemma owned_by_spec u a c :
  owned_by u a c = true ↔ UserID c = u ∧ AssignmentID c = a.
Proof. unfold owned_by. rewrite andb_true_iff, !Z.eqb_eq. done. Qed.

Lemma is_commit_spec id u a c :
  is_commit id u a c = true ↔ ID c = id ∧ UserID c = u ∧ AssignmentID c = a.
Proof. unfold is_commit. rewrite andb_true_iff, Z.eqb_eq, owned_by_spec. done. Qed.

Lemma select_commits_spec db u a :
  select_commits db u a ≡ₚ List.filter (owned_by u a) (commits db)
  ∧ StronglySorted created_le (select_commits db u a)
  ∧ ∀ c, In c (select_commits db u a)
         ↔ In c (commits db) ∧ UserID c = u ∧ AssignmentID c = a.
Proof.
  unfold select_commits. split; [apply merge_sort_Permutation|].
  split; [apply StronglySorted_merge_sort; apply _|].
  intros c. rewrite <- !list_elem_of_In, merge_sort_Permutation.
  rewrite !list_elem_of_In, filter_In, owned_by_spec. done.
Qed.

Lemma select_last_commit_None db u a :
  select_last_commit db u a = None
  ↔ ∀ c, In c (commits db) → ¬ (UserID c = u ∧ AssignmentID c = a).
Proof.
  unfold select_last_commit. rewrite head_None. split.
  - intros Hnil c Hin Hown.
    assert (c ∈ merge_sort created_ge (List.filter (owned_by u a) (commits db)))
      as Hc.
    { rewrite merge_sort_Permutation. apply list_elem_of_In, filter_In.
      by rewrite owned_by_spec. }
    rewrite Hnil in Hc. by apply elem_of_nil in Hc.
  - intros Hnone.
    destruct (merge_sort _ _) as [|c l] eqn:E; [done|].
    assert (c ∈ merge_sort created_ge (List.filter (owned_by u a) (commits db)))
      as Hc by (rewrite E; left).
    rewrite merge_sort_Permutation in Hc.
    apply list_elem_of_In, filter_In in Hc as [Hin Hown].
    apply owned_by_spec in Hown. by destruct (Hnone c Hin).
Qed.

Lemma select_last_commit_Some db u a c :
  select_last_commit db u a = Some c →
  In c (commits db) ∧ UserID c = u ∧ AssignmentID c = a
  ∧ ∀ c', In c' (commits db) → UserID c' = u → AssignmentID c' = a →
          CreatedAt c' ≤ CreatedAt c.
Proof.
  unfold select_last_commit. intros Hhead.
  pose proof (StronglySorted_merge_sort created_ge
                (List.filter (owned_by u a) (commits db))) as Hs.
  pose proof (merge_sort_Permutation created_ge
                (List.filter (owned_by u a) (commits db))) as Hp.
  destruct (merge_sort _ _) as [|x l]; [done|]. simpl in Hhead.
  injection Hhead as ->.
  assert (∀ c', c' ∈ c :: l
            ↔ In c' (commits db) ∧ UserID c' = u ∧ AssignmentID c' = a)
    as Hmem.
  { intros c'. rewrite Hp, list_elem_of_In, filter_In, owned_by_spec. done. }
  destruct (proj1 (Hmem c)) as (Hin & Hu & Ha); [left|].
  repeat split; try done.
  intros c' Hin' Hu' Ha'.
  assert (c' ∈ c :: l) as Hc' by (by apply Hmem).
  apply StronglySorted_inv in Hs as [_ Hall].
  apply elem_of_cons in Hc' as [->|Hc']; [lia|].
  rewrite Forall_forall in Hall. by apply Hall in Hc'.
Qed.

Lemma select_commit_Some db id u a c :
  select_commit db id u a = Some c →
  In c (commits db) ∧ ID c = id ∧ UserID c = u ∧ AssignmentID c = a.
Proof.
  unfold select_commit. intros [Hin Hc]%find_some.
  by apply is_commit_spec in Hc.
Qed.

Lemma select_commit_None db id u a :
  select_commit db id u a = None
  ↔ ∀ c, In c (commits db) → ¬ (ID c = id ∧ UserID c = u ∧ AssignmentID c = a).
Proof.
  unfold select_commit. split.
  - intros Hnone c Hin Hc. apply is_commit_spec in Hc.
    pose proof (find_none _ _ Hnone c Hin). congruence.
  - intros Hno. destruct (find _ _) as [c|] eqn:E; [|done].
    apply find_some in E as [Hin Hc]. apply is_commit_spec in Hc.
    by destruct (Hno c Hin).
Qed.

Lemma select_commit_unique db id u a c :
  NoDup (map ID (commits db)) →
  In c (commits db) → ID c = id → UserID c = u → AssignmentID c = a →
  select_commit db id u a = Some c.
Proof.
  intros Hnd Hin Hid Hu Ha.
  destruct (select_commit db id u a) as [c'|] eqn:E.
  - apply select_commit_Some in E as (Hin' & Hid' & _).
    f_equal. eapply NoDup_map_ID_inj; [done..|congruence].
  - rewrite select_commit_None in E. by destruct (E c Hin).
Qed.

(** X7. With a user and an assignment in the URL and no database error,
    [GetUserAssignmentCommits] answers 200 with exactly the stored commits of
    that user and assignment -- each as often as it is stored, none of
    anybody else -- in ascending order of [CreatedAt]; with no such commit
    the answer is still 200, with an empty list. *)
Theorem listing_holds_the_owners_commits_in_creation_order db params u a :
  param params "user_id" = Some u →
  param params "assignment_id" = Some a →
  ∃ l,
    GetUserAssignmentCommits false db params = ReplyCommits StatusOK l
    ∧ l ≡ₚ List.filter (owned_by u a) (commits db)
    ∧ StronglySorted created_le l
    ∧ ∀ c, In c l ↔ In c (commits db) ∧ UserID c = u ∧ AssignmentID c = a.
Proof.
  intros Hu Ha. unfold GetUserAssignmentCommits. rewrite Hu, Ha.
  eexists. split; [done|]. apply select_commits_spec.
Qed.

(** X8. The three [.../users/me/...] handlers answer exactly like the
    handlers of the [.../users/:user_id/...] routes when the URL of the
    latter names the current user. *)
Theorem me_routes_answer_like_the_user_routes fails db user params :
  param params "user_id" = Some user →
  GetUserMeAssignmentCommits fails db user params
  = GetUserAssignmentCommits fails db params
  ∧ GetUserMeAssignmentCommitLast fails db user params
    = GetUserAssignmentCommitLast fails db params
  ∧ GetUserMeAssignmentCommit fails db user params
    = GetUserAssignmentCommit fails db params.
Proof.
  intros Hu.
  unfold GetUserMeAssignmentCommits, GetUserAssignmentCommits,
    GetUserMeAssignmentCommitLast, GetUserAssignmentCommitLast,
    GetUserMeAssignmentCommit, GetUserAssignmentCommit.
  by rewrite Hu.
Qed.

(** X9. [GetUserAssignmentCommitLast] answers 404 exactly when the user
    has no commit for the assignment; otherwise it answers 200 with one of
    that user's commits for the assignment, and no other such commit was
    created later. *)
Theorem last_commit_is_the_most_recently_created db params u a :
  param params "user_id" = Some u →
  param params "assignment_id" = Some a →
  let reply := GetUserAssignmentCommitLast false db params in
  (reply = ReplyError StatusNotFound
   ↔ ∀ c, In c (commits db) → ¬ (UserID c = u ∧ AssignmentID c = a))
  ∧ (reply = ReplyError StatusNotFound
     ∨ ∃ c, reply = ReplyCommit StatusOK c
            ∧ In c (commits db) ∧ UserID c = u ∧ AssignmentID c = a
            ∧ ∀ c', In c' (commits db) → UserID c' = u → AssignmentID c' = a →
                    CreatedAt c' ≤ CreatedAt c).
Proof.
  intros Hu Ha. unfold GetUserAssignmentCommitLast. rewrite Hu, Ha. simpl.
  rewrite <- select_last_commit_None.
  destruct (select_last_commit db u a) as [c|] eqn:E.
  - split; [done|]. right. exists c. split; [done|].
    by apply select_last_commit_Some.
  - split; [done|]. by left.
Qed.

(** X10. [GetUserAssignmentCommit] answers 404 exactly when no stored
    commit has the given key together with the given user and assignment;
    a commit it returns has all three.  With unique keys the stored commit
    of the given key is returned when its user and assignment are the ones
    of the URL, and hidden behind a 404 when they are not. *)
Theorem commit_is_found_only_under_its_user_and_assignment
    db params u a id :
  param params "user_id" = Some u →
  param params "assignment_id" = Some a →
  param params "commit_id" = Some id →
  let reply := GetUserAssignmentCommit false db params in
  (reply = ReplyError StatusNotFound
   ↔ ∀ c, In c (commits db) →
          ¬ (ID c = id ∧ UserID c = u ∧ AssignmentID c = a))
  ∧ (∀ status c, reply = ReplyCommit status c →
       status = StatusOK ∧ In c (commits db)
       ∧ ID c = id ∧ UserID c = u ∧ AssignmentID c = a)
  ∧ (NoDup (map ID (commits db)) →
     ∀ c, In c (commits db) → ID c = id →
          if decide (UserID c = u ∧ AssignmentID c = a)
          then reply = ReplyCommit StatusOK c
          else reply = ReplyError StatusNotFound).
Proof.
  intros Hu Ha Hid. unfold GetUserAssignmentCommit. rewrite Hu, Ha, Hid. simpl.
  rewrite <- select_commit_None. split; [|split].
  - by destruct (select_commit db id u a).
  - intros status c.
    destruct (select_commit db id u a) as [c'|] eqn:E; [|done].
    intros [= <- <-]. split; [done|]. by apply select_commit_Some.
  - intros Hnd c Hin Hc. case_decide as Hown.
    + destruct Hown. by rewrite (select_commit_unique db id u a c).
    + destruct (select_commit db id u a) as [c'|] eqn:E; [|done].
      apply select_commit_Some in E as (Hin' & Hid' & Hu' & Ha').
      assert (c' = c) as -> by (eapply NoDup_map_ID_inj; [done..|congruence]).
      by destruct Hown.
Qed.

Lemma filter_owned_after_delete u a u' a' (cs : list Commit) :
  List.filter (owned_by u' a')
    (List.filter (λ c, negb (owned_by u a c)) cs)
  = if decide ((u', a') = (u, a)) then []
    else List.filter (owned_by u' a') cs.
Proof.
  induction cs as [|x cs IH]; simpl; [by case_decide|].
  destruct (owned_by u a x) eqn:Hx; simpl.
  - rewrite IH. case_decide as Hd; [done|].
    destruct (owned_by u' a' x) eqn:Hx'; [|done].
    apply owned_by_spec in Hx as [<- <-]. apply owned_by_spec in Hx' as [<- <-].
    by destruct Hd.
  - rewrite IH. case_decide as Hd; [|done].
    injection Hd as -> ->. by rewrite Hx.
Qed.

Lemma NoDup_map_ID_filter (f : Commit → bool) (cs : list Commit) :
  NoDup (map ID cs) → NoDup (map ID (List.filter f cs)).
Proof.
  induction cs as [|x cs IH]; simpl; [done|].
  intros [Hnot Hnd]%NoDup_cons. destruct (f x); simpl; [|by apply IH].
  apply NoDup_cons. split; [|by apply IH].
  intros Hin. apply Hnot.
  apply list_elem_of_In, in_map_iff in Hin as (y & Hy & Hin).
  apply filter_In in Hin as [Hin _].
  apply list_elem_of_In, in_map_iff. by exists y.
Qed.

Lemma wf_db_filter (f : Commit → bool) db :
  wf_db db →
  wf_db (mkDB (assignments db) (List.filter f (commits db)) (commits_seq db)).
Proof.
  intros (Hnd & Hpos & Hseq). split; [|split]; simpl; [| |done].
  - by apply NoDup_map_ID_filter.
  - rewrite Forall_forall in Hpos. apply Forall_forall. intros x Hx.
    apply list_elem_of_In, filter_In in Hx as [Hx _].
    by apply Hpos, list_elem_of_In.
Qed.

Lemma count_open_filter a (f : Commit → bool) (cs : list Commit) :
  (count_open a (List.filter f cs) ≤ count_open a cs)%nat.
Proof.
  induction cs as [|x cs IH]; simpl; [done|].
  destruct (f x); rewrite !count_open_cons; destruct (is_open_for a x); lia.
Qed.

Lemma length_filter_one_key id u a (cs : list Commit) :
  NoDup (map ID cs) →
  (length cs ≤ length (List.filter (λ c, negb (is_commit id u a c)) cs) + 1)%nat.
Proof.
  induction cs as [|x cs IH]; simpl; [lia|].
  intros [Hnot Hnd]%NoDup_cons.
  destruct (is_commit id u a x) eqn:Hx; simpl; [|specialize (IH Hnd); lia].
  apply is_commit_spec in Hx as (Hid & _).
  replace (List.filter _ cs) with cs; [lia|].
  clear IH Hnd. induction cs as [|y cs IH]; simpl; [done|].
  simpl in Hnot. apply not_elem_of_cons in Hnot as [Hne Hnot].
  destruct (is_commit id u a y) eqn:Hy; simpl.
  - apply is_commit_spec in Hy as (Hid' & _). congruence.
  - f_equal. by apply IH.
Qed.

(** X11. After [DeleteUserAssignmentCommits] the listing of that user and
    assignment is empty and their last commit is not found, the listing of
    every other user or assignment is what it was, and the rows left are
    those of the others. *)
Theorem deleting_all_commits_empties_that_listing_only db params u a :
  param params "user_id" = Some u →
  param params "assignment_id" = Some a →
  ∃ db',
    DeleteUserAssignmentCommits false db params = (ReplyNothing, db')
    ∧ GetUserAssignmentCommits false db' params = ReplyCommits StatusOK []
    ∧ GetUserAssignmentCommitLast false db' params
      = ReplyError StatusNotFound
    ∧ (∀ params' u' a',
         param params' "user_id" = Some u' →
         param params' "assignment_id" = Some a' →
         (u', a') ≠ (u, a) →
         GetUserAssignmentCommits false db' params'
         = GetUserAssignmentCommits false db params')
    ∧ (∀ c, In c (commits db')
            ↔ In c (commits db) ∧ ¬ (UserID c = u ∧ AssignmentID c = a)).
Proof.
  intros Hu Ha. unfold DeleteUserAssignmentCommits. rewrite Hu, Ha.
  eexists. split; [done|].
  unfold GetUserAssignmentCommits, GetUserAssignmentCommitLast.
  rewrite Hu, Ha. unfold select_commits, select_last_commit, delete_commits.
  simpl. rewrite filter_owned_after_delete, decide_True by done.
  split; [done|]. split; [done|]. split.
  - intros params' u' a' Hu' Ha' Hne. rewrite Hu', Ha'.
    by rewrite filter_owned_after_delete, decide_False.
  - intros c. rewrite filter_In, negb_true_iff, <- not_true_iff_false.
    by rewrite owned_by_spec.
Qed.

(** X12. After [DeleteUserAssignmentCommit] the commit is not found any
    more and every other row is still stored.  The handler reports nothing
    when there was no such commit: the store is then unchanged.  With unique
    keys at most one row is removed. *)
Theorem deleted_commit_is_gone_and_the_rest_stays db params u a id :
  param params "user_id" = Some u →
  param params "assignment_id" = Some a →
  param params "commit_id" = Some id →
  ∃ db',
    DeleteUserAssignmentCommit false db params = (ReplyNothing, db')
    ∧ GetUserAssignmentCommit false db' params = ReplyError StatusNotFound
    ∧ (∀ c, In c (commits db')
            ↔ In c (commits db)
              ∧ ¬ (ID c = id ∧ UserID c = u ∧ AssignmentID c = a))
    ∧ (GetUserAssignmentCommit false db params = ReplyError StatusNotFound →
       db' = db)
    ∧ (NoDup (map ID (commits db)) →
       (length (commits db) ≤ length (commits db') + 1)%nat).
Proof.
  intros Hu Ha Hid. unfold DeleteUserAssignmentCommit. rewrite Hu, Ha, Hid.
  eexists. split; [done|].
  assert (∀ c, In c (commits (delete_commit db id u a))
            ↔ In c (commits db)
              ∧ ¬ (ID c = id ∧ UserID c = u ∧ AssignmentID c = a)) as Hmem.
  { intros c. unfold delete_commit. simpl.
    rewrite filter_In, negb_true_iff, <- not_true_iff_false.
    by rewrite is_commit_spec. }
  unfold GetUserAssignmentCommit. rewrite Hu, Ha, Hid.
  split; [|split; [exact Hmem|split]].
  - replace (select_commit (delete_commit db id u a) id u a)
      with (@None Commit); [done|].
    symmetry. apply select_commit_None. intros c Hin. by apply Hmem in Hin as [_ Hin].
  - destruct (select_commit db id u a) as [c|] eqn:E; [done|]. intros _.
    rewrite select_commit_None in E.
    clear Hmem. unfold delete_commit. destruct db as [asg cs sq].
    simpl in *. f_equal.
    induction cs as [|x cs IH]; simpl; [done|].
    destruct (is_commit id u a x) eqn:Hx; simpl.
    + apply is_commit_spec in Hx. exfalso. apply (E x); [by left|done].
    + f_equal. apply IH. intros c Hin. apply E. by right.
  - intros Hnd. unfold delete_commit. simpl. by apply length_filter_one_key.
Qed.

(** X13. A delete handler that answers with an error leaves the store as
    it was, and neither handler ever breaks the store discipline or the
    one-open-commit invariant. *)
Theorem deleting_keeps_the_store_invariants fails db params :
  let after_all := DeleteUserAssignmentCommits fails db params in
  let after_one := DeleteUserAssignmentCommit fails db params in
  (after_all.1 ≠ ReplyNothing → after_all.2 = db)
  ∧ (after_one.1 ≠ ReplyNothing → after_one.2 = db)
  ∧ (wf_db db → wf_db after_all.2 ∧ wf_db after_one.2)
  ∧ (∀ a, at_most_one_open a db →
          at_most_one_open a after_all.2 ∧ at_most_one_open a after_one.2).
Proof.
  unfold DeleteUserAssignmentCommits, DeleteUserAssignmentCommit.
  unfold at_most_one_open, delete_commits, delete_commit.
  destruct (param params "user_id") as [u|]; simpl; [|done].
  destruct (param params "assignment_id") as [a|]; simpl; [|done].
  destruct (param params "commit_id") as [id|]; destruct fails; simpl;
    (split; [done|]; split; [done|]; split;
     [intros Hwf; split; try done; by apply wf_db_filter
     |intros a' Hone; split; try done;
      (etrans; [apply count_open_filter|done])]).
Qed.

(** X14. What [PostUserAssignmentCommit] stored can be read back by the
    same user: [GetUserMeAssignmentCommit] with the key of the saved commit
    returns it, [GetUserMeAssignmentCommits] lists it, and
    [GetUserMeAssignmentCommitLast] returns a commit created no earlier. *)
Theorem stored_commit_can_be_read_back now user params commit db a :
  wf_db db →
  accepted db user params commit a →
  ∃ saved db',
    run (PostUserAssignmentCommit now no_faults user params commit) db
    = (JSON StatusOK saved, db')
    ∧ (∀ params',
         param params' "assignment_id" = Some a →
         param params' "commit_id" = Some (ID saved) →
         GetUserMeAssignmentCommit false db' user params'
         = ReplyCommit StatusOK saved)
    ∧ (∃ l, GetUserMeAssignmentCommits false db' user params
            = ReplyCommits StatusOK l ∧ In saved l)
    ∧ (∃ last, GetUserMeAssignmentCommitLast false db' user params
               = ReplyCommit StatusOK last
               ∧ CreatedAt saved ≤ CreatedAt last).
Proof.
  intros Hwf Hacc.
  pose proof (wf_db_is_preserved now no_faults user params commit db Hwf)
    as Hwf'.
  destruct (post_saved now user params commit db a Hacc)
    as (saved & db' & Hrun & Hin & Ha & Hu & _).
  rewrite Hrun in Hwf'. simpl in Hwf'.
  exists saved, db'. split; [done|]. split; [|split].
  - intros params' Hpa Hpc. unfold GetUserMeAssignmentCommit.
    rewrite Hpa, Hpc.
    rewrite (select_commit_unique db' (ID saved) user a saved); try done.
    apply Hwf'.
  - unfold GetUserMeAssignmentCommits.
    destruct Hacc as (Hatoi & _). unfold param. rewrite Hatoi.
    eexists. split; [done|]. by apply select_commits_spec.
  - unfold GetUserMeAssignmentCommitLast.
    destruct Hacc as (Hatoi & _). unfold param. rewrite Hatoi.
    destruct (select_last_commit db' user a) as [last|] eqn:E.
    + exists last. split; [done|].
      apply select_last_commit_Some in E as (_ & _ & _ & Hmax).
      by apply Hmax.
    + rewrite select_last_commit_None in E. by destruct (E saved Hin).
Qed.

End WithPayloadTypes.

(** Instances of the properties above on the sample stores. *)
Import Samples MoreSamples.

Lemma wf_db1 : wf_db db1.
Proof.
  split; [|split].
  - simpl. compute_done.
  - repeat constructor.
  - reflexivity.
Qed.

Lemma invalid_requests_witness :
  run (PostUserAssignmentCommit t0 no_faults 42 ∅ (incoming 1 None [])) db0
  = (HTTPError StatusBadRequest, db0)
  ∧ run (PostUserAssignmentCommit t0 no_faults 7 params0 (incoming 1 None []))
      db0
    = (HTTPError StatusNotFound, db0)
  ∧ run (PostUserAssignmentCommit t0 no_faults 42 params0 no_files) db0
    = (HTTPError StatusBadRequest, db0)
  ∧ ∃ status,
      run (PostUserAssignmentCommit t0 no_faults 7 ∅ no_files) db0
      = (HTTPError status, db0).
Proof.
  split; [|split; [|split]].
  - apply invalid_requests_are_rejected_without_a_write. reflexivity.
  - apply (proj1 (proj2 (invalid_requests_are_rejected_without_a_write
                           t0 no_faults 7 params0 (incoming 1 None []) db0))
             3); reflexivity.
  - apply (proj1 (proj2 (proj2 (invalid_requests_are_rejected_without_a_write
                           t0 no_faults 42 params0 no_files db0))) 3);
      [reflexivity | reflexivity | by eexists | reflexivity].
  - apply invalid_requests_are_rejected_without_a_write. reflexivity.
Defined.

Lemma first_submission_witness :
  ∃ saved,
    run (PostUserAssignmentCommit (t0 + 9 * Minute) no_faults 42
           (url "42" "4") (incoming 1 None [])) db1
    = (JSON StatusOK saved,
       Commits.mkDB (assignments db1) (commits db1 ++ [saved]) 6)
    ∧ ID saved = 5
    ∧ CreatedAt saved = t0 + 9 * Minute ∧ UpdatedAt saved = t0 + 9 * Minute
    ∧ Submission saved = {[ "main.py" := "print(1)" ]}
    ∧ ProblemStepNumber saved = 1.
Proof.
  apply (first_submission_opens_a_new_commit (t0 + 9 * Minute) 42
           (url "42" "4") (incoming 1 None []) db1 4).
  - split; [reflexivity|]. split; [by eexists|]. vm_compute. discriminate.
  - reflexivity.
Defined.

Lemma stored_commit_is_bound_witness :
  ∃ saved db',
    run (PostUserAssignmentCommit (t0 + 5 * Minute) no_faults 42 params0
           (incoming 1 (Some "passed 3 of 3") [])) db0
    = (JSON StatusOK saved, db')
    ∧ In saved (commits db')
    ∧ AssignmentID saved = 3 ∧ UserID saved = 42
    ∧ UpdatedAt saved = t0 + 5 * Minute
    ∧ ProblemStepNumber saved = 1
    ∧ Closed saved = true.
Proof.
  apply (stored_commit_is_bound_to_url_and_user (t0 + 5 * Minute) 42 params0
           (incoming 1 (Some "passed 3 of 3") []) db0 3).
  apply accepted_sample.
Defined.

Lemma closed_rows_witness :
  commits
    (snd (run (PostUserAssignmentCommit (t0 + 30 * Minute) no_faults 42
                 (url "42" "3") (incoming 2 None [])) db1))
    !! 0%nat = Some k1
  ∧ commits
      (snd (run (PostUserAssignmentCommit (t0 + 30 * Minute) no_faults 42
                   (url "42" "3") (incoming 2 None [])) db1))
      !! 1%nat = Some k2.
Proof.
  split.
  - apply closed_and_foreign_rows_are_never_rewritten;
      [exact wf_db1 | reflexivity | left; reflexivity].
  - apply closed_and_foreign_rows_are_never_rewritten;
      [exact wf_db1 | reflexivity | right; vm_compute; discriminate].
Defined.

Lemma requests_only_grow_the_store_witness :
  let db' :=
    snd (run (PostUserAssignmentCommit (t0 + 30 * Minute) no_faults 42
                (url "42" "3") (incoming 2 None [])) db1) in
  wf_db db'
  ∧ assignments db' = assignments db1
  ∧ (length (commits db1) ≤ length (commits db') ≤ length (commits db1) + 1)%nat
  ∧ commits_seq db1 ≤ commits_seq db'
  ∧ map ID (commits db1) `prefix_of` map ID (commits db').
Proof.
  apply requests_only_grow_the_store. exact wf_db1.
Defined.

Lemma second_submission_witness :
  ∃ s1 d1 s2 d2,
    run (PostUserAssignmentCommit (t0 + 5 * Minute) no_faults 42 params0
           (incoming 1 None [])) db0
    = (JSON StatusOK s1, d1)
    ∧ run (PostUserAssignmentCommit (t0 + 10 * Minute) no_faults 42 params0
             (incoming 1 None [])) d1
      = (JSON StatusOK s2, d2)
    ∧ (ID s2 = ID s1 ↔
       (t0 + 10 * Minute) - (t0 + 5 * Minute) ≤ 20 * 60 * 1000000000
       ∧ 1 = 1)
    ∧ (ID s2 = ID s1 →
       CreatedAt s2 = CreatedAt s1
       ∧ Submission s2 = {[ "main.py" := "print(1)" ]}
       ∧ length (commits d2) = length (commits d1)).
Proof.
  apply (second_submission_joins_the_first_iff_in_window
           (t0 + 5 * Minute) (t0 + 10 * Minute) 42 params0
           (incoming 1 None []) (incoming 1 None []) db0 3).
  - exact wf_db_sample.
  - vm_compute. lia.
  - apply accepted_sample.
  - vm_compute. discriminate.
  - reflexivity.
  - reflexivity.
Defined.

Lemma listing_witness :
  ∃ l,
    GetUserAssignmentCommits false db1 (url "42" "3")
    = ReplyCommits StatusOK l
    ∧ l ≡ₚ [k1; k3; k4]
    ∧ StronglySorted created_le l
    ∧ ∀ c, In c l ↔ In c (commits db1) ∧ UserID c = 42 ∧ AssignmentID c = 3.
Proof.
  apply (listing_holds_the_owners_commits_in_creation_order db1
           (url "42" "3") 42 3); reflexivity.
Defined.

Lemma me_routes_witness :
  GetUserMeAssignmentCommits false db1 42 (url_commit "42" "3" "4")
  = GetUserAssignmentCommits false db1 (url_commit "42" "3" "4")
  ∧ GetUserMeAssignmentCommitLast false db1 42 (url_commit "42" "3" "4")
    = GetUserAssignmentCommitLast false db1 (url_commit "42" "3" "4")
  ∧ GetUserMeAssignmentCommit false db1 42 (url_commit "42" "3" "4")
    = GetUserAssignmentCommit false db1 (url_commit "42" "3" "4").
Proof.
  apply me_routes_answer_like_the_user_routes. reflexivity.
Defined.

Lemma last_commit_witness :
  let reply := GetUserAssignmentCommitLast false db1 (url "42" "3") in
  (reply = ReplyError StatusNotFound
   ↔ ∀ c, In c (commits db1) → ¬ (UserID c = 42 ∧ AssignmentID c = 3))
  ∧ (reply = ReplyError StatusNotFound
     ∨ ∃ c, reply = ReplyCommit StatusOK c
            ∧ In c (commits db1) ∧ UserID c = 42 ∧ AssignmentID c = 3
            ∧ ∀ c', In c' (commits db1) → UserID c' = 42 →
                    AssignmentID c' = 3 → CreatedAt c' ≤ CreatedAt c).
Proof.
  apply (last_commit_is_the_most_recently_created db1 (url "42" "3") 42 3);
    reflexivity.
Defined.

Lemma commit_is_found_witness :
  let reply := GetUserAssignmentCommit false db1 (url_commit "7" "3" "4") in
  (reply = ReplyError StatusNotFound
   ↔ ∀ c, In c (commits db1) →
          ¬ (ID c = 4 ∧ UserID c = 7 ∧ AssignmentID c = 3))
  ∧ (∀ status c, reply = ReplyCommit status c →
       status = StatusOK ∧ In c (commits db1)
       ∧ ID c = 4 ∧ UserID c = 7 ∧ AssignmentID c = 3)
  ∧ (NoDup (map ID (commits db1)) →
     ∀ c, In c (commits db1) → ID c = 4 →
          if decide (UserID c = 7 ∧ AssignmentID c = 3)
          then reply = ReplyCommit StatusOK c
          else reply = ReplyError StatusNotFound).
Proof.
  apply (commit_is_found_only_under_its_user_and_assignment db1
           (url_commit "7" "3" "4") 7 3 4); reflexivity.
Defined.

Lemma deleting_all_witness :
  ∃ db',
    DeleteUserAssignmentCommits false db1 (url "42" "3") = (ReplyNothing, db')
    ∧ GetUserAssignmentCommits false db' (url "42" "3")
      = ReplyCommits StatusOK []
    ∧ GetUserAssignmentCommitLast false db' (url "42" "3")
      = ReplyError StatusNotFound
    ∧ (∀ params' u' a',
         param params' "user_id" = Some u' →
         param params' "assignment_id" = Some a' →
         (u', a') ≠ (42, 3) →
         GetUserAssignmentCommits false db' params'
         = GetUserAssignmentCommits false db1 params')
    ∧ (∀ c, In c (commits db')
            ↔ In c (commits db1) ∧ ¬ (UserID c = 42 ∧ AssignmentID c = 3)).
Proof.
  apply (deleting_all_commits_empties_that_listing_only db1 (url "42" "3")
           42 3); reflexivity.
Defined.

Lemma deleted_commit_witness :
  ∃ db',
    DeleteUserAssignmentCommit false db1 (url_commit "42" "3" "1")
    = (ReplyNothing, db')
    ∧ GetUserAssignmentCommit false db' (url_commit "42" "3" "1")
      = ReplyError StatusNotFound
    ∧ (∀ c, In c (commits db')
            ↔ In c (commits db1)
              ∧ ¬ (ID c = 1 ∧ UserID c = 42 ∧ AssignmentID c = 3))
    ∧ (GetUserAssignmentCommit false db1 (url_commit "42" "3" "1")
       = ReplyError StatusNotFound → db' = db1)
    ∧ (NoDup (map ID (commits db1)) →
       (length (commits db1) ≤ length (commits db') + 1)%nat).
Proof.
  apply (deleted_commit_is_gone_and_the_rest_stays db1
           (url_commit "42" "3" "1") 42 3 1); reflexivity.
Defined.

Lemma deleting_keeps_invariants_witness :
  wf_db (DeleteUserAssignmentCommits false db1 (url "42" "3")).2
  ∧ wf_db (DeleteUserAssignmentCommit false db1 (url_commit "42" "3" "1")).2.
Proof.
  split.
  - apply (deleting_keeps_the_store_invariants false db1 (url "42" "3")).
    exact wf_db1.
  - apply (deleting_keeps_the_store_invariants false db1
             (url_commit "42" "3" "1")).
    exact wf_db1.
Defined.

Lemma read_back_witness :
  ∃ saved db',
    run (PostUserAssignmentCommit (t0 + 5 * Minute) no_faults 42 params0
           (incoming 1 None [])) db0
    = (JSON StatusOK saved, db')
    ∧ (∀ params',
         param params' "assignment_id" = Some 3 →
         param params' "commit_id" = Some (ID saved) →
         GetUserMeAssignmentCommit false db' 42 params'
         = ReplyCommit StatusOK saved)
    ∧ (∃ l, GetUserMeAssignmentCommits false db' 42 params0
            = ReplyCommits StatusOK l ∧ In saved l)
    ∧ (∃ last, GetUserMeAssignmentCommitLast false db' 42 params0
               = ReplyCommit StatusOK last
               ∧ CreatedAt saved ≤ CreatedAt last).
Proof.
  apply (stored_commit_can_be_read_back (t0 + 5 * Minute) 42 params0
           (incoming 1 None []) db0 3).
  - exact wf_db_sample.
  - apply accepted_sample.
Defined.

End CommitMore.

(** ** More properties of problems, steps and problem sets *)

Module ProblemMore.
Import Go Strings Html Problems Images ProblemProps.

(** *** URL-friendly names *)

Lemma length_escape_byte c : (1 ≤ String.length (escape_byte c))%nat.
Proof. unfold escape_byte. repeat case_match; simpl; lia. Qed.

Lemma length_QueryEscape s :
  (String.length s ≤ String.length (QueryEscape s))%nat.
Proof.
  induction s as [|c s IH]; simpl; [done|].
  rewrite string_length_app. pose proof (length_escape_byte c). lia.
Qed.

Lemma QueryEscape_fixed s :
  QueryEscape s = s
  ↔ ∀ c, c ∈ list_ascii_of_string s → is_unreserved c = true.
Proof.
  induction s as [|c s IH]; simpl.
  { split; [|done]. intros _ c Hc. by apply elem_of_nil in Hc. }
  unfold escape_byte. split.
  - intros Heq. case_bool_decide as Hsp.
    { subst c. discriminate Heq. }
    destruct (is_unreserved c) eqn:Hun.
    + rewrite string_app_cons in Heq. injection Heq as Heq.
      intros c' [->|Hc']%elem_of_cons; [done|]. by apply IH.
    + apply (f_equal String.length) in Heq.
      rewrite string_length_app in Heq. simpl in Heq.
      pose proof (length_QueryEscape s). lia.
  - intros Hall.
    assert (is_unreserved c = true) as Hc by (apply Hall; left).
    case_bool_decide as Hsp; [by subst c|].
    rewrite Hc, string_app_cons. f_equal. apply IH.
    intros c' Hc'. apply Hall. by right.
Qed.

(** *** What [Problem.Normalize] leaves behind *)

Section WithRuntime.
Context `{Runtime}.

Lemma normalize_steps_numbered steps (i : nat) step' :
  normalize_steps steps !! i = Some step' →
  ∃ step, steps !! i = Some step
          ∧ step' = fst (ProblemStep_Normalize (Z.of_nat i + 1) step)
          ∧ Step step' = Z.of_nat i + 1
          ∧ StepNote step' = TrimSpace (StepNote step)
          ∧ ProblemID step' = ProblemID step.
Proof.
  unfold normalize_steps. rewrite list_lookup_imap.
  destruct (steps !! i) as [step|]; [|done]. simpl. intros [= <-].
  exists step. split; [done|]. split; [done|].
  unfold ProblemStep_Normalize. case_bool_decide; [done|].
  by destruct (BuildInstructions _).
Qed.

(** X15. When [Problem.Normalize] returns [nil] the problem is left in
    canonical form: [Unique] and [Note] are trimmed and not empty, [Unique]
    holds unreserved URL characters only (letters, digits, [-], [_], [.],
    [~]), the tags are the trimmed tags in ascending order, the options are
    the trimmed options in their order, the other fields are untouched, the
    timestamps lie between the beginning of time and now with [CreatedAt]
    not after [UpdatedAt], and the steps -- at least one -- are numbered
    1, 2, ... in list order whatever numbers they came with. *)
Theorem normalised_problem_is_in_canonical_form now problem steps :
  (Problem_Normalize now problem steps).2 = None →
  let problem' := (Problem_Normalize now problem steps).1.1 in
  let steps' := (Problem_Normalize now problem steps).1.2 in
  (Unique problem' = TrimSpace (Unique problem) ∧ Unique problem' ≠ ""
   ∧ ∀ c, c ∈ list_ascii_of_string (Unique problem') →
          is_unreserved c = true)
  ∧ (Note problem' = TrimSpace (Note problem) ∧ Note problem' ≠ "")
  ∧ (Tags problem' ≡ₚ TrimSpace <$> Tags problem
     ∧ StronglySorted String.le (Tags problem'))
  ∧ Options problem' = TrimSpace <$> Options problem
  ∧ (ID problem' = ID problem ∧ ProblemType problem' = ProblemType problem
     ∧ CreatedAt problem' = CreatedAt problem
     ∧ UpdatedAt problem' = UpdatedAt problem)
  ∧ BeginningOfTime ≤ CreatedAt problem ≤ UpdatedAt problem ≤ now
  ∧ (steps ≠ [] ∧ length steps' = length steps
     ∧ ∀ (i : nat) step', steps' !! i = Some step' →
         Step step' = Z.of_nat i + 1).
Proof.
  unfold Problem_Normalize, Before, After. simpl.
  case_bool_decide as H1; [done|]. case_bool_decide as H2; [done|].
  case_bool_decide as H3; [done|]. case_bool_decide as H4; [done|].
  destruct (Z.ltb_spec (CreatedAt problem) BeginningOfTime); [done|].
  destruct (Z.ltb_spec now (CreatedAt problem)); [done|].
  destruct (Z.ltb_spec (UpdatedAt problem) (CreatedAt problem)); [done|].
  destruct (Z.ltb_spec now (UpdatedAt problem)); [done|].
  simpl. intros _.
  split; [split; [done|split; [done|]]|].
  { by apply QueryEscape_fixed. }
  split; [done|]. split.
  { split; [apply merge_sort_Permutation|].
    apply StronglySorted_merge_sort; apply _. }
  split; [done|]. split; [done|]. split; [lia|].
  split; [by intros ->|]. split.
  { unfold normalize_steps. by rewrite length_imap. }
  intros i step' Hi.
  by destruct (normalize_steps_numbered _ _ _ Hi) as (? & ? & ? & ? & ?).
Qed.

(** X16. [Problem.Normalize] is not all-or-nothing.  It returns one of six
    errors, never one about a step, and what it has rewritten by then stays
    rewritten: [Unique] is always trimmed; on a [Unique] error nothing else
    is touched; on an empty note the tags, options and steps are untouched;
    on a missing step list or a bad timestamp the note, tags and options are
    already normalised, and on a bad timestamp so are the steps. *)
Theorem failed_normalisation_leaves_partial_changes now problem steps err :
  (Problem_Normalize now problem steps).2 = Some err →
  let problem' := (Problem_Normalize now problem steps).1.1 in
  let steps' := (Problem_Normalize now problem steps).1.2 in
  Unique problem' = TrimSpace (Unique problem)
  ∧ match err with
    | ErrUniqueEmpty | ErrUniqueNotURLFriendly _ _ =>
        Note problem' = Note problem ∧ Tags problem' = Tags problem
        ∧ Options problem' = Options problem ∧ steps' = steps
    | ErrNoteEmpty =>
        Note problem' = "" ∧ Tags problem' = Tags problem
        ∧ Options problem' = Options problem ∧ steps' = steps
    | ErrNoSteps =>
        Note problem' = TrimSpace (Note problem)
        ∧ Tags problem' = sort_Strings (TrimSpace <$> Tags problem)
        ∧ Options problem' = TrimSpace <$> Options problem
        ∧ steps = [] ∧ steps' = []
    | ErrCreatedAtInvalid t | ErrUpdatedAtInvalid t =>
        Note problem' = TrimSpace (Note problem)
        ∧ Tags problem' = sort_Strings (TrimSpace <$> Tags problem)
        ∧ Options problem' = TrimSpace <$> Options problem
        ∧ steps' = normalize_steps steps
        ∧ (t = CreatedAt problem ∨ t = UpdatedAt problem)
    | _ => False
    end.
Proof.
  unfold Problem_Normalize, Before, After. simpl.
  case_bool_decide as H1; [by intros [= <-]|].
  case_bool_decide as H2; [by intros [= <-]|].
  case_bool_decide as H3; [intros [= <-]; simpl; by rewrite H3|].
  case_bool_decide as H4.
  { intros [= <-]. simpl. apply length_zero_iff_nil in H4. by subst. }
  destruct (_ || _); [intros [= <-]; simpl; auto 10|].
  destruct (_ || _); [intros [= <-]; simpl; auto 10|].
  done.
Qed.

End WithRuntime.

(** *** Strings from both ends *)

Lemma string_app_nil_r (s : string) : s +:+ "" = s.
Proof. induction s as [|c s IH]; [done|]. by rewrite string_app_cons, IH. Qed.

Lemma string_rev_app_acc (s1 s2 : string) :
  String.rev_app s1 s2 = String.rev s1 +:+ s2.
Proof.
  revert s2. induction s1 as [|c s1 IH]; intros s2; [done|].
  unfold String.rev. cbn [String.rev_app].
  by rewrite (IH (String c s2)), (IH (String c "")), string_app_assoc.
Qed.

Lemma string_rev_cons (c : ascii) (s : string) :
  String.rev (String c s) = String.rev s +:+ String c "".
Proof. unfold String.rev at 1. cbn [String.rev_app]. apply string_rev_app_acc. Qed.

Lemma string_rev_app (s1 s2 : string) :
  String.rev (s1 +:+ s2) = String.rev s2 +:+ String.rev s1.
Proof.
  induction s1 as [|c s1 IH].
  - by rewrite string_app_nil_r.
  - by rewrite string_app_cons, !string_rev_cons, IH, string_app_assoc.
Qed.

Lemma string_rev_involutive (s : string) : String.rev (String.rev s) = s.
Proof.
  induction s as [|c s IH]; [done|].
  by rewrite string_rev_cons, string_rev_app, IH.
Qed.

Lemma prefix_spec (p s : string) :
  String.prefix p s = true ↔ ∃ q, s = p +:+ q.
Proof.
  revert s. induction p as [|a p IH]; intros s.
  - destruct s; simpl; split; eauto.
  - destruct s as [|b s]; simpl.
    + split; [done|]. intros [q Hq]. by rewrite string_app_cons in Hq.
    + destruct (Ascii.ascii_dec a b) as [->|Hne].
      * rewrite IH. split; intros [q Hq]; exists q.
        -- by rewrite string_app_cons, Hq.
        -- rewrite string_app_cons in Hq. by injection Hq.
      * split; [done|]. intros [q Hq]. rewrite string_app_cons in Hq.
        injection Hq as -> _. done.
Qed.

Lemma HasSuffix_spec (s suf : string) :
  HasSuffix s suf = true ↔ ∃ p, s = p +:+ suf.
Proof.
  unfold HasSuffix. rewrite prefix_spec. split.
  - intros [q Hq]. exists (String.rev q).
    rewrite <- (string_rev_involutive s), Hq, string_rev_app.
    by rewrite string_rev_involutive.
  - intros [p ->]. exists (String.rev p). apply string_rev_app.
Qed.

Lemma string_prefix_app_l (sub p q : string) :
  String.prefix sub p = true → String.prefix sub (p +:+ q) = true.
Proof.
  rewrite !prefix_spec. intros [r ->]. exists (r +:+ q).
  by rewrite string_app_assoc.
Qed.

Lemma Contains_cons (c : ascii) (p sub : string) :
  Contains (String c p) sub
  = String.prefix sub (String c p) || Contains p sub.
Proof. reflexivity. Qed.

Lemma Contains_app_l (p q sub : string) :
  Contains p sub = true → Contains (p +:+ q) sub = true.
Proof.
  induction p as [|c p IH].
  - destruct sub; [|done]. intros _. by destruct q.
  - rewrite string_app_cons, !Contains_cons.
    intros [Hp|Hc]%orb_true_iff; apply orb_true_iff.
    + left. rewrite <- string_app_cons. by apply string_prefix_app_l.
    + right. auto.
Qed.

Lemma substring_0_app (p q : string) :
  String.substring 0 (String.length p) (p +:+ q) = p.
Proof.
  induction p as [|c p IH]; [by destruct q|].
  rewrite string_app_cons. simpl. by rewrite IH.
Qed.

Lemma drop_last_snoc (p : string) (c : ascii) :
  drop_last (p +:+ String c "") = p.
Proof.
  unfold drop_last. rewrite string_length_app. simpl.
  replace (String.length p + 1 - 1)%nat with (String.length p) by lia.
  apply substring_0_app.
Qed.

Lemma drop_last_prefix (s : string) : ∃ q, s = drop_last s +:+ q.
Proof.
  unfold drop_last. generalize (String.length s - 1)%nat as n.
  induction s as [|c s IH]; intros n.
  - exists "". by destruct n.
  - destruct n as [|n]; simpl.
    + by exists (String c s).
    + destruct (IH n) as [q Hq]. exists q.
      by rewrite string_app_cons, <- Hq.
Qed.

Lemma while_invariant (P : string → Prop) cond body :
  (∀ s, cond s = true → P s → P (body s)) →
  ∀ n s, P s → P (while n cond body s).
Proof.
  intros Hstep. induction n as [|n IH]; intros s Hs; simpl; [done|].
  destruct (cond s) eqn:Hc; [|done]. apply IH. by apply Hstep.
Qed.

(** *** Replacing [" \n"] by ["\n"] *)

Lemma Replace_space_lf_hit (r : string) :
  Replace (String " " (String LF r)) space_lf lf
  = String LF (Replace r space_lf lf).
Proof.
  unfold Replace. cbn [Replace_go].
  replace (String.prefix space_lf (String " " (String LF r))) with true;
    [reflexivity|].
  symmetry. unfold space_lf, lf. cbn [String.prefix].
  destruct (ascii_dec " " " ") as [_|?]; [|done].
  destruct (ascii_dec LF LF) as [_|?]; [|done]. by destruct r.
Qed.

Lemma Replace_space_lf_miss (c : ascii) (r : string) :
  String.prefix space_lf (String c r) = false →
  Replace (String c r) space_lf lf = String c (Replace r space_lf lf).
Proof. unfold Replace. cbn [Replace_go]. by intros ->. Qed.

Lemma Replace_space_lf_keeps_last_lf (p : string) :
  ∃ p', Replace (p +:+ lf) space_lf lf = p' +:+ lf.
Proof.
  remember (String.length p) as n eqn:Hn. revert p Hn.
  induction (lt_wf n) as [n _ IH]. intros p Hn.
  destruct p as [|c p].
  - by exists "".
  - rewrite string_app_cons.
    destruct (String.prefix space_lf (String c (p +:+ lf))) eqn:Hpre.
    + apply prefix_spec in Hpre as [q Hq].
      change (space_lf +:+ q) with (String " " (String LF q)) in Hq.
      injection Hq as -> Hq.
      destruct p as [|d p].
      * exists "". change ("" +:+ lf) with (String LF "").
        by rewrite Replace_space_lf_hit.
      * rewrite string_app_cons in Hq. injection Hq as -> <-.
        rewrite string_app_cons, Replace_space_lf_hit.
        destruct (IH (String.length p)) with (p := p) as [p' Hp'];
          [simpl in Hn; lia|done|].
        exists (String LF p'). by rewrite Hp', string_app_cons.
    + rewrite Replace_space_lf_miss by done.
      destruct (IH (String.length p)) with (p := p) as [p' Hp'];
        [simpl in Hn; lia|done|].
      exists (String c p'). by rewrite Hp', string_app_cons.
Qed.

(** *** Line endings *)

Section WithRuntime.
Context `{Runtime}.

Lemma trim_newlines_spec (s : string) :
  HasSuffix s lf = true →
  let s' := while (String.length s) (λ s, HasSuffix s lf_lf) drop_last s in
  let r := if bool_decide (s' = lf) then "" else s' in
  HasSuffix r lf_lf = false ∧ (r = "" ∨ HasSuffix r lf = true) ∧ r ≠ lf
  ∧ ∃ q, s = r +:+ q.
Proof.
  intros Hs. simpl.
  pose proof (trailing_newlines_loop_finishes s) as Hdone.
  assert (HasSuffix (while (String.length s) (λ s, HasSuffix s lf_lf)
                       drop_last s) lf = true
          ∧ ∃ q, s = while (String.length s) (λ s, HasSuffix s lf_lf)
                       drop_last s +:+ q) as [Hlf Hpre].
  { apply (while_invariant
             (λ t, HasSuffix t lf = true ∧ ∃ q, s = t +:+ q)).
    - intros t Hc [_ [q Hq]]. apply HasSuffix_spec in Hc as [p ->].
      assert (drop_last (p +:+ lf_lf) = p +:+ lf) as ->.
      { change lf_lf with (lf +:+ String LF "").
        by rewrite <- string_app_assoc, drop_last_snoc. }
      split; [apply HasSuffix_spec; by eexists|].
      exists (lf +:+ q). rewrite Hq.
      change lf_lf with (lf +:+ lf). by rewrite !string_app_assoc.
    - split; [done|]. exists "". by rewrite string_app_nil_r. }
  case_bool_decide as Hone.
  - split; [done|]. split; [by left|]. split; [done|]. by exists s.
  - split; [done|]. split; [by right|]. done.
Qed.

Lemma fixNewLines_spec (s : string) :
  HasSuffix (fixNewLines s) lf_lf = false
  ∧ (fixNewLines s = "" ∨ HasSuffix (fixNewLines s) lf = true)
  ∧ fixNewLines s ≠ lf
  ∧ ∃ q, Replace s crlf lf +:+ lf = fixNewLines s +:+ q.
Proof.
  unfold fixNewLines.
  destruct (trim_newlines_spec (Replace s crlf lf +:+ lf))
    as (H1 & H2 & H3 & H4); [apply HasSuffix_spec; by eexists|].
  done.
Qed.

Lemma fixLineEndings_spec (s : string) :
  HasSuffix (fixLineEndings s) lf_lf = false
  ∧ (fixLineEndings s = "" ∨ HasSuffix (fixLineEndings s) lf = true)
  ∧ fixLineEndings s ≠ lf
  ∧ Contains (fixLineEndings s) space_lf = false.
Proof.
  unfold fixLineEndings.
  set (s1 := Replace s crlf lf +:+ lf).
  set (s2 := while (String.length s1) (λ s, Contains s space_lf)
               (λ s, Replace s space_lf lf) s1).
  assert (HasSuffix s2 lf = true) as Hlf.
  { apply (while_invariant (λ t, HasSuffix t lf = true)).
    - intros t _ [p ->]%HasSuffix_spec.
      destruct (Replace_space_lf_keeps_last_lf p) as [p' ->].
      apply HasSuffix_spec. by eexists.
    - apply HasSuffix_spec. by eexists. }
  pose proof (trailing_spaces_loop_finishes s1) as Hnone. fold s2 in Hnone.
  destruct (trim_newlines_spec s2 Hlf) as (H1 & H2 & H3 & [q Hq]).
  cbv zeta in H1, H2, H3, Hq.
  set (r := if bool_decide _ then "" else _) in *.
  split; [exact H1|]. split; [exact H2|]. split; [exact H3|].
  destruct (Contains r space_lf) eqn:Hc; [|done].
  apply (Contains_app_l r q) in Hc. rewrite <- Hq in Hc. congruence.
Qed.

(** X21. The results of [fixNewLines] and [fixLineEndings] are empty or
    end in a newline, never end in two newlines and are never a lone
    newline.  [fixNewLines] only cuts the end of the text with its CR LF
    replaced and a newline appended; in a result of [fixLineEndings] no
    space stands before a newline.  (The loops of both are run to their
    end.) *)
Theorem fixed_text_ends_in_one_newline (s : string) :
  (HasSuffix (fixNewLines s) lf_lf = false
   ∧ (fixNewLines s = "" ∨ HasSuffix (fixNewLines s) lf = true)
   ∧ fixNewLines s ≠ lf
   ∧ ∃ q, Replace s crlf lf +:+ lf = fixNewLines s +:+ q)
  ∧ (HasSuffix (fixLineEndings s) lf_lf = false
     ∧ (fixLineEndings s = "" ∨ HasSuffix (fixLineEndings s) lf = true)
     ∧ fixLineEndings s ≠ lf
     ∧ Contains (fixLineEndings s) space_lf = false).
Proof. split; [apply fixNewLines_spec | apply fixLineEndings_spec]. Qed.

(** *** Which files keep their trailing spaces *)

Lemma Split_go_break sep cur s :
  Split_go sep cur s
  = match break sep s with
    | (p, None) => [String.rev cur +:+ p]
    | (p, Some r) => (String.rev cur +:+ p) :: Split_go sep "" r
    end.
Proof.
  revert cur. induction s as [|c s IH]; intros cur; simpl.
  - by rewrite string_app_nil_r.
  - case_bool_decide as Hc.
    + by rewrite string_app_nil_r.
    + rewrite IH. destruct (break sep s) as [p [r|]];
        by rewrite string_rev_cons, string_app_assoc.
Qed.

Lemma break_Some_inv d s p r :
  break d s = (p, Some r) → s = p +:+ String d r ∧ has_byte d p = false.
Proof.
  revert p. induction s as [|c s IH]; intros p; simpl; [done|].
  case_bool_decide as Hc.
  - intros [= <- <-]. by subst.
  - destruct (break d s) as [p' q]. intros [= <- ->].
    destruct (IH p' eq_refl) as [-> Hp']. split; [done|].
    simpl. by rewrite bool_decide_false.
Qed.

Lemma raw_directory_lookup (p : string) :
  default false (ProblemStepDirectoryWhitelist !! p)
  = bool_decide (p = "in") || bool_decide (p = "out")
    || bool_decide (p = "_doc").
Proof.
  unfold ProblemStepDirectoryWhitelist.
  repeat case_bool_decide; subst; simplify_map_eq; done.
Qed.

Lemma HasPrefix_dir (name dir pre : string) p q :
  pre = dir +:+ "/" →
  has_byte "/" dir = false →
  break "/" name = (p, q) →
  HasPrefix name pre = bool_decide (p = dir) && bool_decide (is_Some q).
Proof.
  intros -> Hdir Hbreak. unfold HasPrefix.
  destruct (String.prefix (dir +:+ "/") name) eqn:Hpre.
  - apply prefix_spec in Hpre as [r ->].
    rewrite string_app_assoc in Hbreak.
    change ("/" +:+ r) with (String "/" r) in Hbreak.
    rewrite (break_app "/" dir r Hdir) in Hbreak. injection Hbreak as <- <-.
    rewrite bool_decide_true by done. by rewrite bool_decide_true by eauto.
  - symmetry. apply andb_false_iff.
    destruct q as [r|]; [|right; apply bool_decide_false; by intros [? ?]].
    left. apply bool_decide_false. intros ->.
    apply break_Some_inv in Hbreak as [-> _].
    assert (String.prefix (dir +:+ "/") (dir +:+ String "/" r) = true)
      as Hyes; [|congruence].
    apply prefix_spec. exists r. by rewrite string_app_assoc.
Qed.

(** X20. The directory test of [ProblemStep.Normalize], made on the parts
    of the split name, is a test on the prefix of the name: a valid UTF-8
    file keeps its trailing spaces ([fixNewLines]) exactly when its name
    starts with [in/], [out/] or [_doc/]; every other one, a file named
    [in] or [src/in/x] included, loses them ([fixLineEndings]). *)
Theorem trailing_spaces_are_kept_only_under_in_out_doc name contents :
  clean_file name contents
  = if ValidString contents then
      if HasPrefix name "in/" || HasPrefix name "out/"
         || HasPrefix name "_doc/"
      then fixNewLines contents
      else fixLineEndings contents
    else contents.
Proof.
  unfold clean_file, Split. rewrite Split_go_break.
  destruct (break "/" name) as [p q] eqn:Hbreak.
  rewrite (HasPrefix_dir name "in" "in/" p q eq_refl eq_refl Hbreak).
  rewrite (HasPrefix_dir name "out" "out/" p q eq_refl eq_refl Hbreak).
  rewrite (HasPrefix_dir name "_doc" "_doc/" p q eq_refl eq_refl Hbreak).
  destruct (ValidString contents); [|by rewrite andb_false_r].
  rewrite andb_true_r.
  destruct q as [r|].
  - rewrite (bool_decide_true (is_Some _)) by eauto. rewrite !andb_true_r.
    pose proof (length_Split_go "/" "" r) as Hlen.
    cbn [length head default].
    replace (S (length (Split_go "/" "" r)) <? 2)%nat with false
      by (symmetry; apply Nat.ltb_ge; lia).
    change ("" +:+ p) with p.
    rewrite raw_directory_lookup. cbn [orb].
    by destruct (_ || _).
  - rewrite (bool_decide_false (is_Some None)) by (by intros [? ?]).
    by rewrite !andb_false_r.
Qed.

(** X19. [ProblemStep.Normalize] always sets the step number and trims
    the note.  On success the note is not empty, the instructions are those
    built from the files as submitted, a weight that is not positive has
    become 1.0, and the files keep their names: a file that is not valid
    UTF-8 keeps its contents, any other file is empty or ends in exactly one
    newline.  On failure the instructions, weight and files are untouched
    and the error is the missing note or the one from building the
    instructions, both numbered one above the step. *)
Theorem normalised_step_postconditions n step :
  let '(step', err) := ProblemStep_Normalize n step in
  Step step' = n
  ∧ StepNote step' = TrimSpace (StepNote step)
  ∧ ProblemID step' = ProblemID step
  ∧ match err with
    | None =>
        StepNote step' ≠ ""
        ∧ BuildInstructions step = inr (Instructions step')
        ∧ Weight step'
          = (if float64_le_zero (Weight step) then float64_one
             else Weight step)
        ∧ dom (Files step') = dom (Files step)
        ∧ ∀ name contents, Files step !! name = Some contents →
            Files step' !! name = Some (clean_file name contents)
            ∧ (ValidString contents = false →
               clean_file name contents = contents)
            ∧ (ValidString contents = true →
               HasSuffix (clean_file name contents) lf_lf = false
               ∧ (clean_file name contents = ""
                  ∨ HasSuffix (clean_file name contents) lf = true))
    | Some e =>
        Instructions step' = Instructions step
        ∧ Weight step' = Weight step
        ∧ Files step' = Files step
        ∧ (e = ErrMissingStepNote (n + 1) ∧ StepNote step' = ""
           ∨ ∃ cause, e = ErrBuildingInstructions (n + 1) cause
                      ∧ BuildInstructions step = inl cause)
    end.
Proof.
  unfold ProblemStep_Normalize.
  change (BuildInstructions (mkProblemStep _ _ _ _ _ (Files step)))
    with (BuildInstructions step).
  case_bool_decide as Hnote; simpl.
  { repeat split; try done. by left. }
  destruct (BuildInstructions step) as [cause|instructions] eqn:Hbuild; simpl.
  { repeat split; try done. right. by exists cause. }
  do 6 (split; [done|]). split.
  { apply set_eq. intros name. rewrite !elem_of_dom, map_lookup_imap.
    by destruct (Files step !! name). }
  intros name contents Hfile. split; [|split].
  - rewrite map_lookup_imap. by rewrite Hfile.
  - intros Hbad. unfold clean_file. rewrite Hbad. by rewrite andb_false_r.
  - intros Hvalid. unfold clean_file. rewrite Hvalid, andb_true_r.
    destruct (_ || _).
    + destruct (fixLineEndings_spec contents) as (? & ? & _). done.
    + destruct (fixNewLines_spec contents) as (? & ? & _). done.
Qed.

End WithRuntime.

(** *** Problem sets *)

Section WithRuntime.
Context `{Runtime}.

(** X17. [ProblemSet.Normalize] returns [nil] exactly when the trimmed
    [Unique] is not empty and holds unreserved URL characters only, the
    trimmed [Note] is not empty, and
    [BeginningOfTime <= CreatedAt <= UpdatedAt <= now].  The set is then
    left with [Unique] and [Note] trimmed and the trimmed tags in ascending
    order; [ID] and the timestamps are untouched. *)
Theorem problem_set_is_accepted_iff_well_formed now set :
  let set' := fst (ProblemSets.Normalize now set) in
  (snd (ProblemSets.Normalize now set) = None
   ↔ TrimSpace (ProblemSets.Unique set) ≠ ""
     ∧ (∀ c, c ∈ list_ascii_of_string (TrimSpace (ProblemSets.Unique set)) →
             is_unreserved c = true)
     ∧ TrimSpace (ProblemSets.Note set) ≠ ""
     ∧ BeginningOfTime ≤ ProblemSets.CreatedAt set
       ≤ ProblemSets.UpdatedAt set ≤ now)
  ∧ (snd (ProblemSets.Normalize now set) = None →
     ProblemSets.Unique set' = TrimSpace (ProblemSets.Unique set)
     ∧ ProblemSets.Note set' = TrimSpace (ProblemSets.Note set)
     ∧ ProblemSets.Tags set' ≡ₚ TrimSpace <$> ProblemSets.Tags set
     ∧ StronglySorted String.le (ProblemSets.Tags set')
     ∧ ProblemSets.ID set' = ProblemSets.ID set
     ∧ ProblemSets.CreatedAt set' = ProblemSets.CreatedAt set
     ∧ ProblemSets.UpdatedAt set' = ProblemSets.UpdatedAt set).
Proof.
  unfold ProblemSets.Normalize, Before, After. simpl.
  rewrite <- QueryEscape_fixed.
  case_bool_decide as H1; simpl; [split; [split; [done|tauto]|done]|].
  case_bool_decide as H2; simpl; [split; [split; [done|tauto]|done]|].
  case_bool_decide as H3; simpl; [split; [split; [done|tauto]|done]|].
  destruct (Z.ltb_spec (ProblemSets.CreatedAt set) BeginningOfTime); simpl;
    [split; [split; [done|lia]|done]|].
  destruct (Z.ltb_spec now (ProblemSets.CreatedAt set)); simpl;
    [split; [split; [done|lia]|done]|].
  destruct (Z.ltb_spec (ProblemSets.UpdatedAt set) (ProblemSets.CreatedAt set));
    simpl; [split; [split; [done|lia]|done]|].
  destruct (Z.ltb_spec now (ProblemSets.UpdatedAt set)); simpl;
    [split; [split; [done|lia]|done]|].
  split; [split; [intros _; repeat split; (done || lia)|done]|].
  intros _. repeat split; try done.
  - apply merge_sort_Permutation.
  - apply StronglySorted_merge_sort; apply _.
Qed.

(** X18. A problem with at least one step and a problem set that agree on
    [Unique], [Note], [Tags] and the timestamps are judged alike: both
    [Normalize] functions succeed, or both report the same defect, and they
    leave the same [Unique], [Note] and [Tags] behind. *)
Theorem problem_and_problem_set_checks_agree now set problem steps :
  Problems.Unique problem = ProblemSets.Unique set →
  Problems.Note problem = ProblemSets.Note set →
  Problems.Tags problem = ProblemSets.Tags set →
  Problems.CreatedAt problem = ProblemSets.CreatedAt set →
  Problems.UpdatedAt problem = ProblemSets.UpdatedAt set →
  steps ≠ [] →
  let '(problem', _, perr) := Problem_Normalize now problem steps in
  let '(set', serr) := ProblemSets.Normalize now set in
  perr = ProblemSets.as_problem_error <$> serr
  ∧ Problems.Unique problem' = ProblemSets.Unique set'
  ∧ Problems.Note problem' = ProblemSets.Note set'
  ∧ Problems.Tags problem' = ProblemSets.Tags set'.
Proof.
  intros Hu Hn Ht Hc Hup Hsteps.
  unfold Problem_Normalize, ProblemSets.Normalize. simpl.
  rewrite Hu, Hn, Ht, Hc, Hup.
  case_bool_decide; [done|]. case_bool_decide; [done|].
  case_bool_decide; [done|].
  rewrite bool_decide_false by (by destruct steps).
  destruct (_ || _); [done|]. by destruct (_ || _).
Qed.

End WithRuntime.

(** *** Images in the instructions *)

Lemma Node_induction (P : Node → Prop) :
  (∀ type data attr children,
     Forall P children → P (mkNode type data attr children)) →
  ∀ n, P n.
Proof.
  intros Hstep. fix IH 1. intros [type data attr children].
  apply Hstep. induction children as [|c cs IHcs]; constructor.
  - apply IH.
  - exact IHcs.
Qed.

Section WithRuntime.
Context `{Runtime}.
Implicit Types (files : gmap string string) (n : Node).

Lemma Inlining_app files l1 l2 e1 e2 :
  Inlining files l1 e1 →
  (e1 = None → Inlining files l2 e2) →
  Inlining files (l1 ++ l2) (match e1 with Some e => Some e | None => e2 end).
Proof.
  intros [Hall|a v b -> Hpre Hbad] H2.
  - destruct (H2 eq_refl) as [Hall2|a v b -> Hpre Hbad].
    + constructor. by apply Forall_app.
    + apply (FirstBad _ _ (l1 ++ a) v b); [by rewrite <- app_assoc| |done].
      by apply Forall_app.
  - apply (FirstBad _ _ a v (b ++ l2)); [|done..].
    by rewrite <- app_assoc.
Qed.

Lemma src_values_cons (a : Attribute) rest :
  src_values (a :: rest)
  = if bool_decide (Key a = "src") then Val a :: src_values rest
    else src_values rest.
Proof. unfold src_values. cbn [List.filter]. by case_bool_decide. Qed.

Lemma inline_src_spec files attrs :
  match inline_src files attrs with
  | inr attrs' =>
      Inlining files (src_values attrs) None
      ∧ map blank_src attrs' = map blank_src attrs
      ∧ src_values attrs' = data_uri files <$> src_values attrs
  | inl e => Inlining files (src_values attrs) (Some e)
  end.
Proof.
  induction attrs as [|a rest IH]; cbn [inline_src].
  { split; [by constructor; constructor|done]. }
  rewrite src_values_cons.
  case_bool_decide as Hkey.
  - destruct (files !! ("_doc/" +:+ Val a)) as [contents|] eqn:Hfile.
    + destruct (image_mime (Val a)) as [mime|] eqn:Hmime.
      * assert (inlinable files (Val a)) as Hok by (split; by eexists).
        destruct (inline_src files rest) as [e|rest'].
        -- inversion IH as [|l1 v l2 Hvals Hpre Hbad]. subst.
           apply (FirstBad _ _ (Val a :: l1) v l2); [|by constructor|done].
           by rewrite Hvals.
        -- destruct IH as (Hv & Hblank & Hsrc). inversion Hv. subst.
           split; [constructor; by constructor|].
           rewrite src_values_cons. cbn [map Key Val].
           rewrite bool_decide_true by done.
           unfold blank_src at 1 3. cbn [Key Namespace].
           rewrite !bool_decide_true by done. rewrite Hblank.
           split; [done|]. rewrite fmap_cons, Hsrc.
           unfold data_uri at 2. by rewrite Hfile, Hmime.
      * replace (ErrUnknownImageType (Val a))
          with (image_error files (Val a))
          by (unfold image_error; by rewrite Hfile).
        apply (FirstBad _ _ [] (Val a) (src_values rest));
          [done|constructor|].
        intros [_ [? ?]]. congruence.
    + replace (ErrImageNotFound (Val a))
        with (image_error files (Val a))
        by (unfold image_error; by rewrite Hfile).
      apply (FirstBad _ _ [] (Val a) (src_values rest)); [done|constructor|].
      intros [[? ?] _]. congruence.
  - destruct (inline_src files rest) as [e|rest']; [done|].
    destruct IH as (Hv & Hblank & Hsrc). split; [done|].
    rewrite src_values_cons. cbn [map]. rewrite bool_decide_false by done.
    by rewrite Hblank.
Qed.

Lemma walk_spec files n :
  match walk files n with
  | inr n' =>
      Forall (inlinable files) (image_sources n)
      ∧ without_sources n' = without_sources n
      ∧ image_sources n' = data_uri files <$> image_sources n
      ∧ Forall (λ v, HasPrefix v "data:" = true) (image_sources n')
  | inl e =>
      ∃ l1 v l2,
        image_sources n = l1 ++ v :: l2
        ∧ Forall (inlinable files) l1
        ∧ ¬ inlinable files v
        ∧ e = image_error files v
  end.
Proof.
  assert (match walk files n with
          | inr n' =>
              Inlining files (image_sources n) None
              ∧ without_sources n' = without_sources n
              ∧ image_sources n' = data_uri files <$> image_sources n
          | inl e => Inlining files (image_sources n) (Some e)
          end) as Hwalk.
  { induction n as [type data attr children IH] using Node_induction.
    cbn [walk].
    set (walk_children := fix walk_children (cs : list Node) := _).
    assert (match walk_children children with
            | inr cs' =>
                Inlining files (flat_map image_sources children) None
                ∧ map without_sources cs' = map without_sources children
                ∧ flat_map image_sources cs'
                  = data_uri files <$> flat_map image_sources children
            | inl e =>
                Inlining files (flat_map image_sources children) (Some e)
            end) as Hchildren.
    { induction children as [|c cs IHcs]; cbn [walk_children flat_map].
      { split; [by constructor; constructor|done]. }
      apply Forall_cons in IH as [Hc Hcs]. specialize (IHcs Hcs).
      destruct (walk files c) as [e|c'].
      - apply (Inlining_app _ _ _ (Some e) None); [done|done].
      - destruct Hc as (Hvc & Hwc & Hsc).
        destruct (walk_children cs) as [e|cs'].
        + by apply (Inlining_app _ _ _ None (Some e)).
        + destruct IHcs as (Hvcs & Hwcs & Hscs).
          split; [by apply (Inlining_app _ _ _ None None)|].
          cbn [map flat_map]. rewrite Hwc, Hwcs, Hsc, Hscs.
          split; [done|]. by rewrite fmap_app. }
    cbn [image_sources without_sources].
    assert ((match type with
             | ElementNode =>
                 if bool_decide (data = "img") then inline_src files attr
                 else inr attr
             | _ => inr attr
             end) = if is_img type data then inline_src files attr
                    else inr attr) as -> by (by destruct type).
    destruct (is_img type data) eqn:Himg.
    - pose proof (inline_src_spec files attr) as Hattr.
      destruct (inline_src files attr) as [e|attr'].
      + by apply (Inlining_app _ _ _ (Some e) None).
      + destruct Hattr as (Hva & Hba & Hsa).
        destruct (walk_children children) as [e|cs'].
        * by apply (Inlining_app _ _ _ None (Some e)).
        * destruct Hchildren as (Hvc & Hwc & Hsc).
          split; [by apply (Inlining_app _ _ _ None None)|].
          cbn [image_sources without_sources]. rewrite Himg, Hba, Hwc, Hsa, Hsc.
          split; [done|]. by rewrite fmap_app.
    - destruct (walk_children children) as [e|cs'].
      + apply (Inlining_app _ [] _ None (Some e)); [|done].
        constructor. constructor.
      + destruct Hchildren as (Hvc & Hwc & Hsc).
        split; [done|].
        cbn [image_sources without_sources]. rewrite Himg, Hwc, Hsc.
        done. }
  destruct (walk files n) as [e|n'].
  - inversion Hwalk as [|l1 v l2 Hvals Hpre Hbad]. subst.
    by exists l1, v, l2.
  - destruct Hwalk as (Hv & Hw & Hs). inversion Hv as [Hall|]. subst.
    split; [done|]. split; [done|]. split; [done|].
    rewrite Hs. apply Forall_fmap. eapply Forall_impl; [exact Hall|].
    intros v [[contents Hfile] [mime Hmime]]. simpl.
    unfold data_uri. rewrite Hfile, Hmime.
    unfold HasPrefix. apply prefix_spec. by eexists.
Qed.


(** X22. The image walk of [BuildInstructions].  When it succeeds, every
    [src] of every [img] element named a file under [_doc/] of a known image
    type, each of them has been replaced by the [data:] URI of that file, in
    document order, and nothing else in the document has changed.  When it
    fails, the error is the one of the first [img] source, in document
    order, that has no file or no known type. *)
Theorem walk_inlines_every_image_or_reports_the_first_it_cannot files n :
  match walk files n with
  | inr n' =>
      Forall (inlinable files) (image_sources n)
      ∧ without_sources n' = without_sources n
      ∧ image_sources n' = data_uri files <$> image_sources n
      ∧ Forall (λ v, HasPrefix v "data:" = true) (image_sources n')
  | inl e =>
      ∃ l1 v l2,
        image_sources n = l1 ++ v :: l2
        ∧ Forall (inlinable files) l1
        ∧ ¬ inlinable files v
        ∧ e = image_error files v
  end.
Proof. apply walk_spec. Qed.

(** X23. Instructions that [BuildInstructions] returns are the rendering
    of the document parsed from [_doc/index.html] -- or, only when there is
    no such file, from the markdown of [_doc/index.md] -- which was valid
    UTF-8, with every image inlined as a [data:] URI and nothing else
    changed. *)
Theorem built_instructions_have_every_image_inlined step s :
  BuildInstructions step = inr s →
  ∃ source doc doc',
    (Files step !! "_doc/index.html" = Some source
     ∨ Files step !! "_doc/index.html" = None
       ∧ ∃ md, Files step !! "_doc/index.md" = Some md
               ∧ source = Markdown md)
    ∧ ValidString source = true
    ∧ html_Parse source = inr (Some doc)
    ∧ html_Render doc' = inr s
    ∧ without_sources doc' = without_sources doc
    ∧ image_sources doc' = data_uri (Files step) <$> image_sources doc
    ∧ Forall (inlinable (Files step)) (image_sources doc)
    ∧ Forall (λ v, HasPrefix v "data:" = true) (image_sources doc').
Proof.
  unfold BuildInstructions.
  assert (∀ source,
    (if negb (ValidString source) then inl ErrInvalidUTF8
     else match html_Parse source with
          | inl msg => inl (ErrHtmlParse msg)
          | inr None => inl ErrNilDocument
          | inr (Some doc) =>
              match walk (Files step) doc with
              | inl e => inl e
              | inr doc0 =>
                  match html_Render doc0 with
                  | inl msg => inl (ErrHtmlRender msg)
                  | inr s0 => inr s0
                  end
              end
          end) = inr s →
    ∃ doc doc',
      ValidString source = true
      ∧ html_Parse source = inr (Some doc)
      ∧ html_Render doc' = inr s
      ∧ without_sources doc' = without_sources doc
      ∧ image_sources doc' = data_uri (Files step) <$> image_sources doc
      ∧ Forall (inlinable (Files step)) (image_sources doc)
      ∧ Forall (λ v, HasPrefix v "data:" = true) (image_sources doc'))
    as Hrest.
  { intros source. destruct (ValidString source); [|done]. simpl.
    destruct (html_Parse source) as [msg|[doc|]]; [done| |done].
    pose proof (walk_spec (Files step) doc) as Hwalk.
    destruct (walk (Files step) doc) as [e|doc']; [done|].
    destruct (html_Render doc') as [msg|s'] eqn:Hrender; [done|].
    intros [= ->]. destruct Hwalk as (Hall & Hw & Hs & Hdata).
    by exists doc, doc'. }
  destruct (Files step !! "_doc/index.html") as [html|] eqn:Hhtml.
  - intros (doc & doc' & Hdoc)%Hrest. exists html, doc, doc'. auto.
  - destruct (Files step !! "_doc/index.md") as [md|] eqn:Hmd; [|done].
    intros (doc & doc' & Hdoc)%Hrest. exists (Markdown md), doc, doc'.
    split; [|done]. right. split; [done|]. by exists md.
Qed.

End WithRuntime.

(** *** Whitelists and signatures *)

Section WithRuntime.
Context `{Runtime}.

Lemma dom_GetStepWhitelists steps (i : nat) m :
  GetStepWhitelists steps !! i = Some m →
  dom m = ⋃ (root_names <$> take (S i) steps).
Proof.
  revert i m. induction steps as [|s steps IH] using rev_ind; intros i m;
    [done|].
  rewrite GetStepWhitelists_snoc.
  pose proof (length_GetStepWhitelists steps) as Hlen.
  destruct (decide (i < length steps)%nat) as [Hlt|Hge].
  - rewrite lookup_app_l by lia. intros Hm.
    rewrite take_app_le by lia. by apply IH.
  - intros Hm. apply lookup_lt_Some in Hm as Hi. rewrite length_app in Hi.
    simpl in Hi. assert (i = length steps) as -> by lia.
    rewrite lookup_app_r in Hm by lia.
    rewrite Hlen, Nat.sub_diag in Hm. injection Hm as <-.
    rewrite take_ge by (rewrite length_app; simpl; lia).
    rewrite fmap_app, union_list_app_L. simpl. rewrite (right_id_L ∅ (∪)).
    destruct (step_whitelist_spec (GetStepWhitelists steps) s
                (GetStepWhitelists_all_true steps)) as [-> _].
    f_equal. rewrite last_lookup, Hlen.
    destruct (length steps) as [|j] eqn:Hj; simpl.
    + apply length_zero_iff_nil in Hj. subst.
      change (dom (∅ : gmap string bool) = (∅ : gset string)).
      apply dom_empty_L.
    + destruct (GetStepWhitelists steps !! j) as [m0|] eqn:Hm0.
      * simpl. rewrite (IH j m0 Hm0), <- Hj. by rewrite take_ge by lia.
      * apply lookup_ge_None in Hm0. lia.
Qed.

(** X24. [GetStepWhitelists] returns one whitelist per step.  The one of
    step [i] holds exactly the root-level file names of the steps up to and
    including [i], each mapped to [true], and no name with a path separator;
    it is contained in the whitelist of every later step. *)
Theorem whitelists_accumulate_root_level_names steps :
  length (GetStepWhitelists steps) = length steps
  ∧ ∀ (i : nat) m, GetStepWhitelists steps !! i = Some m →
      dom m = ⋃ (root_names <$> take (S i) steps)
      ∧ (∀ name, name ∈ dom m → root_level name ∧ m !! name = Some true)
      ∧ ∀ (j : nat) m', (i ≤ j)%nat →
          GetStepWhitelists steps !! j = Some m' → m ⊆ m'.
Proof.
  split; [apply length_GetStepWhitelists|]. intros i m Hm.
  pose proof (GetStepWhitelists_all_true steps) as Htrue.
  rewrite Forall_forall in Htrue.
  assert (∀ (k : nat) mk, GetStepWhitelists steps !! k = Some mk →
            ∀ name, name ∈ dom mk → mk !! name = Some true) as Hvalues.
  { intros k mk Hk name [b Hb]%elem_of_dom.
    assert (mk ∈ GetStepWhitelists steps) as Hin
      by (apply list_elem_of_lookup; by exists k).
    by rewrite (Htrue mk Hin name b Hb) in Hb. }
  split; [by apply dom_GetStepWhitelists|]. split.
  - intros name Hname. split; [|by apply (Hvalues i m)].
    rewrite (dom_GetStepWhitelists _ _ _ Hm) in Hname.
    apply elem_of_union_list in Hname as (X & HX & Hname).
    apply list_elem_of_fmap in HX as (s & -> & _).
    unfold root_names in Hname. by apply elem_of_filter in Hname as [? _].
  - intros j m' Hij Hm'. apply map_subseteq_spec. intros name b Hb.
    assert (name ∈ dom m) as Hname by (apply elem_of_dom; by exists b).
    rewrite (Hvalues i m Hm name Hname) in Hb. injection Hb as <-.
    apply (Hvalues j m' Hm').
    rewrite (dom_GetStepWhitelists _ _ _ Hm) in Hname.
    rewrite (dom_GetStepWhitelists _ _ _ Hm').
    apply elem_of_union_list in Hname as (X & HX & Hname).
    apply elem_of_union_list. exists X. split; [|done].
    apply list_elem_of_fmap in HX as (s & -> & Hs).
    apply list_elem_of_fmap. exists s. split; [done|].
    apply list_elem_of_lookup in Hs as [k Hk].
    apply lookup_take_Some in Hk as [Hk Hlt].
    apply list_elem_of_lookup. exists k. apply lookup_take_Some.
    split; [done|lia].
Qed.

Lemma add_step_signed_content (v : Values) s1 s2 :
  Step s1 = Step s2 → StepNote s1 = StepNote s2 →
  FormatFloat (Weight s1) = FormatFloat (Weight s2) →
  Files s1 = Files s2 →
  add_step v s1 = add_step v s2.
Proof. unfold add_step. by intros -> -> -> ->. Qed.

(** X25. The signature is a function of the signed content only: two
    problems that agree on [ID], [Unique], [Note], [ProblemType], tags,
    options and the formatted timestamps rounded to the second, with steps
    that agree pairwise on number, note, formatted weight and files, get the
    same signature under the same secret.  The instructions of a step and
    its [ProblemID] are not signed. *)
Theorem signature_depends_on_the_signed_content_only
    secret p1 p2 steps1 steps2 :
  ID p1 = ID p2 → Unique p1 = Unique p2 → Note p1 = Note p2 →
  ProblemType p1 = ProblemType p2 →
  Tags p1 = Tags p2 → Options p1 = Options p2 →
  FormatRFC3339 (Round (CreatedAt p1) Second)
  = FormatRFC3339 (Round (CreatedAt p2) Second) →
  FormatRFC3339 (Round (UpdatedAt p1) Second)
  = FormatRFC3339 (Round (UpdatedAt p2) Second) →
  Forall2 (λ s1 s2,
             Step s1 = Step s2 ∧ StepNote s1 = StepNote s2
             ∧ FormatFloat (Weight s1) = FormatFloat (Weight s2)
             ∧ Files s1 = Files s2) steps1 steps2 →
  ComputeSignature secret p1 steps1 = ComputeSignature secret p2 steps2.
Proof.
  intros Hid Hu Hn Ht Htags Hopts Hc Hup Hsteps.
  unfold ComputeSignature, signed_values.
  rewrite Hid, Hu, Hn, Ht, Htags, Hopts, Hc, Hup.
  match goal with |- context [foldl add_step ?v steps1] =>
    generalize v end.
  induction Hsteps as [|s1 s2 l1 l2 (Hs & Hnote & Hw & Hf) _ IH]; intros v;
    [done|].
  simpl. rewrite (add_step_signed_content v s1 s2) by done.
  specialize (IH (add_step v s2)). simpl in IH.
  congruence.
Qed.

End WithRuntime.

(** Instances of the properties above on the sample problems. *)
Import Samples ProblemSamples.

Lemma normalised_problem_witness :
  let r := Problem_Normalize (H := runtime) t0 problem_raw steps_a in
  Unique r.1.1 = "hello-world"
  ∧ Note r.1.1 = "Hello, world"
  ∧ Tags r.1.1 ≡ₚ ["python"; "intro"]
  ∧ StronglySorted String.le (Tags r.1.1)
  ∧ Options r.1.1 = ["-v"]
  ∧ ∀ (i : nat) step', r.1.2 !! i = Some step' →
      Step step' = Z.of_nat i + 1.
Proof.
  destruct (normalised_problem_is_in_canonical_form (H := runtime) t0
              problem_raw steps_a)
    as ((Hu & _) & (Hn & _) & (Ht & Hs) & Ho & _ & _ & (_ & _ & Hsteps)).
  - vm_compute. reflexivity.
  - split; [exact Hu|]. split; [exact Hn|]. split; [exact Ht|].
    split; [exact Hs|]. split; [exact Ho|]. exact Hsteps.
Defined.

Lemma failed_normalisation_witness :
  let r := Problem_Normalize (H := runtime) t0 problem_unnamed steps_a in
  Unique r.1.1 = "hello-world"
  ∧ Note r.1.1 = ""
  ∧ Tags r.1.1 = [" python"; "intro "]
  ∧ Options r.1.1 = [" -v"]
  ∧ r.1.2 = steps_a.
Proof.
  apply (failed_normalisation_leaves_partial_changes (H := runtime) t0
           problem_unnamed steps_a ErrNoteEmpty).
  vm_compute. reflexivity.
Defined.

Lemma problem_and_problem_set_witness :
  let '(problem', _, perr) :=
    Problem_Normalize (H := runtime) t0 problem_raw steps_a in
  let '(set', serr) := ProblemSets.Normalize (H := runtime) t0 set_raw in
  perr = ProblemSets.as_problem_error <$> serr
  ∧ Unique problem' = ProblemSets.Unique set'
  ∧ Note problem' = ProblemSets.Note set'
  ∧ Tags problem' = ProblemSets.Tags set'.
Proof.
  apply (problem_and_problem_set_checks_agree (H := runtime) t0 set_raw
           problem_raw steps_a); reflexivity || discriminate.
Defined.

Lemma built_instructions_witness :
  ∃ source doc doc',
    (Files step_picture !! "_doc/index.html" = Some source
     ∨ Files step_picture !! "_doc/index.html" = None
       ∧ ∃ md, Files step_picture !! "_doc/index.md" = Some md
               ∧ source = Markdown (Runtime := picture_runtime) md)
    ∧ ValidString (Runtime := picture_runtime) source = true
    ∧ html_Parse (Runtime := picture_runtime) source = inr (Some doc)
    ∧ html_Render (Runtime := picture_runtime) doc'
      = inr "data:image/png;base64,PNG"
    ∧ without_sources doc' = without_sources doc
    ∧ image_sources doc'
      = data_uri (H := picture_runtime) (Files step_picture)
          <$> image_sources doc
    ∧ Forall (inlinable (Files step_picture)) (image_sources doc)
    ∧ Forall (λ v, HasPrefix v "data:" = true) (image_sources doc').
Proof.
  apply (built_instructions_have_every_image_inlined (H := picture_runtime)
           step_picture "data:image/png;base64,PNG").
  vm_compute. reflexivity.
Defined.

Lemma signature_witness :
  ComputeSignature (H := runtime) "secret" problem_a steps_a
  = ComputeSignature (H := runtime) "secret" problem_b steps_a'.
Proof.
  apply (signature_depends_on_the_signed_content_only (H := runtime)
           "secret" problem_a problem_b steps_a steps_a').
  - reflexivity.
  - reflexivity.
  - reflexivity.
  - reflexivity.
  - reflexivity.
  - reflexivity.
  - vm_compute. reflexivity.
  - vm_compute. reflexivity.
  - repeat constructor.
Defined.

End ProblemMore.

(** ** More properties of the [grind] tool *)

Module GrindMore.
Import Go Filepath Grind GrindProps.

(** *** The files of a commit *)

Section Gather.
Context (dotfile : string).

Lemma whitelisted_true info name :
  whitelisted info name = true ↔ Whitelist info !! name = Some true.
Proof.
  unfold whitelisted. destruct (Whitelist info !! name) as [[]|]; naive_solver.
Qed.

Lemma gather_top_level_log_inv info entries st st' v line :
  gather_top_level dotfile info entries st = (st', v) →
  line ∈ log st' →
  line ∈ log st
  ∨ ∃ name, line = LogSkipping name ∧ whitelisted info name = false
            ∧ name ∈ entries.*1.
Proof.
  revert st. induction entries as [|[n e] rest IH]; intros st Hrun Hline.
  - injection Hrun as <- <-. by left.
  - cbn [gather_top_level] in Hrun.
    assert (∀ st0, gather_top_level dotfile info rest st0 = (st', v) →
              log st0 = log st →
              line ∈ log st
              ∨ ∃ name, line = LogSkipping name
                        ∧ whitelisted info name = false
                        ∧ name ∈ ((n, e) :: rest).*1) as Hrest.
    { intros st0 Hst0 Hlog.
      destruct (IH st0 Hst0 Hline) as [Hold|(name & ? & ? & ?)].
      - left. by rewrite <- Hlog.
      - right. exists name. rewrite fmap_cons. split; [done|].
        split; [done|]. by right. }
    destruct e as [r| |sub|err]; try (by apply (Hrest st));
      [|injection Hrun as <- <-; by left].
    case_bool_decide as Hdot; [by apply (Hrest st)|].
    destruct (whitelisted info n) eqn:Hwl.
    + destruct r as [err|contents]; [injection Hrun as <- <-; by left|].
      by apply (Hrest _ Hrun).
    + destruct (IH _ Hrun Hline) as [Hold|(name & ? & ? & ?)].
      * simpl in Hold. apply elem_of_app in Hold as [?|Hnew]; [by left|].
        apply list_elem_of_singleton in Hnew as ->. right. exists n.
        rewrite fmap_cons. split; [done|]. split; [done|]. by left.
      * right. exists name. rewrite fmap_cons. split; [done|].
        split; [done|]. by right.
Qed.

Lemma gather_files_Dir info entries :
  gather_files dotfile (Dir entries) info
  = let '(st, v) :=
      gather_top_level dotfile info entries (mkGathered ∅ []) in
    match v with
    | Abort _ | SkipDir => Fatal (log st)
    | Continue =>
        if bool_decide (size (files st) ≠ size (Whitelist info)) then
          Fatal (log st ++ [LogDidNotFindAll]
                 ++ (LogNotFound <$>
                       filter (λ name, files st !! name = None)
                         (fst <$> map_to_list (Whitelist info))))
        else Files (files st) (log st)
    end.
Proof. unfold gather_files. by rewrite Walk_gather_top_level. Qed.

Lemma gathered_subset info entries st v :
  gather_top_level dotfile info entries (mkGathered ∅ []) = (st, v) →
  dom (files st) ⊆ dom (Whitelist info).
Proof.
  intros Hrun name [c Hc]%elem_of_dom.
  destruct (gather_top_level_sound _ _ _ _ _ _ _ _ Hrun Hc)
    as [Hinit|(_ & _ & Hwl)].
  - simpl in Hinit. by rewrite lookup_empty in Hinit.
  - apply whitelisted_true in Hwl. apply elem_of_dom. by eexists.
Qed.

Lemma gather_files_success info entries fs lg :
  gather_files dotfile (Dir entries) info = Files fs lg →
  dom fs = dom (Whitelist info)
  ∧ (∀ name, name ∈ dom (Whitelist info) →
       Whitelist info !! name = Some true ∧ name ≠ dotfile
       ∧ ∃ c, (name, Regular (inr c)) ∈ entries ∧ fs !! name = Some c)
  ∧ (∀ line, line ∈ lg →
       ∃ name, line = LogSkipping name ∧ whitelisted info name = false
               ∧ name ∈ entries.*1)
  ∧ Forall (passable dotfile info) entries.
Proof.
  rewrite gather_files_Dir.
  destruct (gather_top_level dotfile info entries (mkGathered ∅ []))
    as [st v] eqn:Hrun.
  destruct (gather_top_level_verdict _ _ _ _ _ _ Hrun) as [_ Hpass].
  destruct v as [| |err]; [|done..].
  case_bool_decide as Hsize; [done|]. intros [= <- <-].
  assert (dom (files st) = dom (Whitelist info)) as Hdom.
  { apply set_subseteq_size_eq.
    - by eapply gathered_subset.
    - rewrite !size_dom. lia. }
  split; [done|]. split; [|split; [|by apply Hpass]].
  - intros name Hname. rewrite <- Hdom in Hname.
    apply elem_of_dom in Hname as [c Hc].
    destruct (gather_top_level_sound _ _ _ _ _ _ _ _ Hrun Hc)
      as [Hinit|(Hin & Hdot & Hwl)].
    { simpl in Hinit. by rewrite lookup_empty in Hinit. }
    apply whitelisted_true in Hwl. split; [done|]. split; [done|].
    by exists c.
  - intros line Hline.
    destruct (gather_top_level_log_inv _ _ _ _ _ _ Hrun Hline) as [Hinit|?];
      [|done].
    by apply elem_of_nil in Hinit.
Qed.

(** X26. When the file-gathering part of [gather] succeeds on a problem
    directory, the files it returns are exactly the whitelist: every
    whitelisted name is mapped to [true], is not the per-problem-set file,
    and is a regular file at the top of the directory whose contents were
    read; every log line is about a top-level name that is not whitelisted;
    and no entry of the directory stopped the walk. *)
Theorem gathered_files_are_exactly_the_whitelist info entries fs lg :
  gather_files dotfile (Dir entries) info = Files fs lg →
  dom fs = dom (Whitelist info)
  ∧ (∀ name, name ∈ dom (Whitelist info) →
       Whitelist info !! name = Some true ∧ name ≠ dotfile
       ∧ ∃ c, (name, Regular (inr c)) ∈ entries ∧ fs !! name = Some c)
  ∧ (∀ line, line ∈ lg →
       ∃ name, line = LogSkipping name ∧ whitelisted info name = false
               ∧ name ∈ entries.*1)
  ∧ Forall (passable dotfile info) entries.
Proof. apply gather_files_success. Qed.

(** X27. In a directory without duplicate names the file-gathering part
    of [gather] succeeds exactly when no entry stops the walk and every
    name on the whitelist is mapped to [true], is not the per-problem-set
    file and is a regular file at the top of the directory.  So a whitelist
    with an entry set to [false], one that names the per-problem-set file,
    or one whose file sits in a subdirectory always ends in [log.Fatalf]. *)
Theorem gather_succeeds_iff_the_whitelist_is_at_the_top info entries :
  NoDup entries.*1 →
  (∃ fs lg, gather_files dotfile (Dir entries) info = Files fs lg)
  ↔ Forall (passable dotfile info) entries
    ∧ ∀ name, name ∈ dom (Whitelist info) →
        Whitelist info !! name = Some true ∧ name ≠ dotfile
        ∧ ∃ r, (name, Regular r) ∈ entries.
Proof.
  intros Hnd. split.
  - intros (fs & lg & Hrun).
    destruct (gather_files_success info entries fs lg Hrun)
      as (_ & Hall & _ & Hpass).
    split; [done|]. intros name Hname.
    destruct (Hall name Hname) as (? & ? & c & ? & _). eauto.
  - intros [Hpass Hall]. rewrite gather_files_Dir.
    destruct (gather_top_level dotfile info entries (mkGathered ∅ []))
      as [st v] eqn:Hrun.
    destruct (gather_top_level_verdict _ _ _ _ _ _ Hrun) as [_ Hv].
    apply Hv in Hpass as ->.
    assert (dom (files st) = dom (Whitelist info)) as Hdom.
    { apply set_eq. intros name. split.
      - apply (gathered_subset _ _ _ _ Hrun).
      - intros Hname. destruct (Hall name Hname) as (Hwl & Hdot & r & Hin).
        pose proof (gather_top_level_complete _ _ _ _ _ _ _ Hnd Hrun Hin Hdot)
          as Hc.
        rewrite (proj2 (whitelisted_true info name) Hwl) in Hc.
        destruct Hc as (c & _ & Hc). apply elem_of_dom. by eexists. }
    rewrite bool_decide_false; [by eexists _, _|].
    intros Hne. apply Hne. by rewrite <- !size_dom, Hdom.
Qed.

End Gather.

(** *** Finding the problem set *)

Import Workspace.

Lemma filepath_Dir_root (elems : list string) :
  filepath_Dir elems = elems ↔ elems = [].
Proof.
  unfold filepath_Dir. split; [|by intros ->].
  destruct elems as [|x l] using rev_ind; [done|].
  rewrite removelast_last. intros Heq.
  apply (f_equal length) in Heq. rewrite length_app in Heq. simpl in Heq. lia.
Qed.

Lemma filepath_Dir_snoc (elems : list string) :
  elems ≠ [] → ∃ x, elems = filepath_Dir elems ++ [x].
Proof.
  intros Hne. exists (List.last elems ""). by apply app_removelast_last.
Qed.

Lemma prefix_snoc_inv (d l : list string) x :
  d `prefix_of` l ++ [x] → d = l ++ [x] ∨ d `prefix_of` l.
Proof.
  intros [k Hk]. destruct k as [|y k _] using rev_ind.
  - left. by rewrite app_nil_r in Hk.
  - right. exists k. rewrite app_assoc in Hk.
    by apply app_inj_tail in Hk as [? _].
Qed.

Section WithSystem.
Context (perProblemSetDotFile : string).
Context {Assignment Problem : Type}.
Context (Stat : Location → StatResult)
        (ReadFile : Location → string + string)
        (Abs : string → string + list string)
        (Unmarshal : string → string + DotFileInfo)
        (Tree : Location → Entry)
        (LoadConfig : string + unit)
        (GetAssignment : Z → string + Assignment)
        (GetProblem : Z → string + Problem)
        (PostUnsigned : Commit → string + unit).

Lemma search_S fuel psd pd :
  search Stat Abs (S fuel) psd pd
  = match Stat psd with
    | StatOK => Returns (psd, pd)
    | StatNotExist =>
        bind (match psd with
              | Given dir => must (Abs dir) FatalAbs
              | Absolute elems => Returns elems
              end)
          (λ elems,
             if bool_decide (filepath_Dir elems = elems)
             then Exits FatalNotFound
             else search Stat Abs fuel (Absolute (filepath_Dir elems))
                    (Some elems))
    | StatError err => Exits (FatalStat err)
    end.
Proof. reflexivity. Qed.

Lemma search_absolute fuel elems pd :
  (length elems < fuel)%nat →
  match search Stat Abs fuel (Absolute elems) pd with
  | OutOfFuel => False
  | Returns (psd, pd') =>
      ∃ anc, psd = Absolute anc ∧ anc `prefix_of` elems
             ∧ Stat (Absolute anc) = StatOK
             ∧ none_below Stat anc elems
             ∧ (anc = elems ∧ pd' = pd
                ∨ ∃ x, pd' = Some (anc ++ [x])
                       ∧ anc ++ [x] `prefix_of` elems)
  | Exits cause =>
      cause = FatalNotFound ∧ none_below Stat [] elems
      ∧ Stat (Absolute []) = StatNotExist
      ∨ ∃ err d, cause = FatalStat err ∧ d `prefix_of` elems
                 ∧ Stat (Absolute d) = StatError err ∧ none_below Stat d elems
  end.
Proof.
  revert elems pd. induction fuel as [|fuel IH]; intros elems pd Hlen;
    [lia|].
  cbn [search]. destruct (Stat (Absolute elems)) as [| |err] eqn:Hstat.
  - exists elems. split; [done|]. split; [done|]. split; [done|].
    split; [|by left].
    intros d Hd1 Hd2 Hne. destruct Hne. by apply (anti_symm prefix).
  - cbn [bind]. case_bool_decide as Hroot.
    + apply filepath_Dir_root in Hroot as ->. left.
      split; [done|]. split; [|done].
      intros d _ Hd _. by apply prefix_nil_inv in Hd as ->.
    + assert (elems ≠ []) as Hne by (by rewrite <- filepath_Dir_root).
      destruct (filepath_Dir_snoc elems Hne) as [x Hx].
      assert (∀ anc, anc `prefix_of` filepath_Dir elems →
                none_below Stat anc (filepath_Dir elems) →
                none_below Stat anc elems) as Hnone.
      { intros anc Hanc Hbelow d Hd1 Hd2 Hd3. rewrite Hx in Hd2.
        apply prefix_snoc_inv in Hd2 as [->|Hd2]; [by rewrite <- Hx|].
        by apply Hbelow. }
      assert (length (filepath_Dir elems) < fuel)%nat as Hlen'.
      { rewrite Hx, length_app in Hlen. simpl in Hlen. lia. }
      specialize (IH (filepath_Dir elems) (Some elems) Hlen').
      destruct (search Stat Abs fuel (Absolute (filepath_Dir elems))
                  (Some elems)) as [[psd pd']|cause|]; [| |done].
      * destruct IH as (anc & -> & Hanc & Hok & Hbelow & Hpd).
        exists anc. split; [done|].
        assert (anc `prefix_of` elems) as Hanc'.
        { rewrite Hx. by apply prefix_app_r. }
        split; [done|]. split; [done|]. split; [by apply Hnone|].
        right. destruct Hpd as [[-> ->]|(y & -> & Hy)].
        -- exists x. by rewrite <- Hx.
        -- exists y. split; [done|]. rewrite Hx. by apply prefix_app_r.
      * destruct IH as [(-> & Hbelow & Hrootstat)|(e & d & -> & Hd & He & Hbelow)].
        -- left. split; [done|]. split; [|done].
           apply Hnone; [apply prefix_nil|done].
        -- right. exists e, d. split; [done|].
           split; [rewrite Hx; by apply prefix_app_r|]. split; [done|].
           by apply Hnone.
  - right. exists err, elems. split; [done|]. split; [done|].
    split; [done|].
    intros d Hd1 Hd2 Hne. destruct Hne. by apply (anti_symm prefix).
Qed.

Lemma search_given startDir :
  match search Stat Abs (turns Abs startDir) (Given startDir) None with
  | OutOfFuel => False
  | Returns (psd, pd) =>
      Stat psd = StatOK
      ∧ match pd with
        | None => psd = Given startDir
        | Some child =>
            Stat (Given startDir) = StatNotExist
            ∧ ∃ elems anc x,
                Abs startDir = inr elems ∧ psd = Absolute anc
                ∧ child = anc ++ [x] ∧ child `prefix_of` elems
                ∧ ∀ d, child `prefix_of` d → d `prefix_of` elems →
                       d ≠ elems → Stat (Absolute d) = StatNotExist
        end
  | Exits cause =>
      match cause with
      | FatalAbs err =>
          Stat (Given startDir) = StatNotExist ∧ Abs startDir = inl err
      | FatalNotFound =>
          Stat (Given startDir) = StatNotExist
          ∧ ∃ elems, Abs startDir = inr elems
                     ∧ ∀ d, d `prefix_of` elems → d ≠ elems →
                            Stat (Absolute d) = StatNotExist
      | FatalStat err => ∃ dir, Stat dir = StatError err
      | _ => False
      end
  end.
Proof.
  unfold turns.
  destruct (Abs startDir) as [err|elems] eqn:Habs; rewrite search_S.
  - destruct (Stat (Given startDir)) as [| |e] eqn:Hstat; [done| |by eexists].
    rewrite Habs. done.
  - destruct (Stat (Given startDir)) as [| |e] eqn:Hstat; [done| |by eexists].
    rewrite Habs. cbn [must bind]. case_bool_decide as Hroot.
    { apply filepath_Dir_root in Hroot as ->. split; [done|].
      exists (@nil string). split; [done|]. intros d Hd Hne.
      by apply prefix_nil_inv in Hd. }
    assert (elems ≠ []) as Hne by (by rewrite <- filepath_Dir_root).
    destruct (filepath_Dir_snoc elems Hne) as [x Hx].
    assert (length (filepath_Dir elems) < S (length elems))%nat as Hlen.
    { rewrite Hx at 2. rewrite length_app. simpl. lia. }
    pose proof (search_absolute _ _ (Some elems) Hlen) as Hsearch.
    destruct (search Stat Abs (S (length elems))
                (Absolute (filepath_Dir elems)) (Some elems))
      as [[psd pd']|cause|]; [| |done].
    + destruct Hsearch as (anc & -> & Hanc & Hok & Hbelow & Hpd).
      split; [done|].
      assert (∃ y, pd' = Some (anc ++ [y]) ∧ anc ++ [y] `prefix_of` elems)
        as (y & -> & Hy).
      { destruct Hpd as [[-> ->]|(y & -> & Hy)].
        - exists x. by rewrite <- Hx.
        - exists y. split; [done|]. rewrite Hx. by apply prefix_app_r. }
      split; [done|]. exists elems, anc, y. do 4 (split; [done|]).
      intros d Hd1 Hd2 Hd3. apply Hbelow.
      * by eapply prefix_app_l.
      * rewrite Hx in Hd2. apply prefix_snoc_inv in Hd2 as [->|?]; [|done].
        by rewrite <- Hx in Hd3.
      * intros ->. by apply prefix_snoc_not in Hd1.
    + destruct Hsearch as [(-> & Hbelow & Hrootstat)|(e & d & -> & _ & He & _)];
        [|by eexists].
      split; [done|]. exists elems. split; [done|].
      intros d Hd Hd'. rewrite Hx in Hd.
      apply prefix_snoc_inv in Hd as [->|Hd]; [by rewrite <- Hx in Hd'|].
      destruct (decide (d = [])) as [->|Hdne]; [done|].
      apply Hbelow; [apply prefix_nil|done|done].
Qed.

Lemma findDotFile_spec startDir :
  match findDotFile Stat ReadFile Abs Unmarshal startDir with
  | OutOfFuel => False
  | Returns (dotfile, problemSetDir, problemDir) =>
      Stat problemSetDir = StatOK
      ∧ Path dotfile = Some problemSetDir
      ∧ (∃ contents parsed,
           ReadFile problemSetDir = inr contents
           ∧ Unmarshal contents = inr parsed
           ∧ AssignmentID dotfile = AssignmentID parsed
           ∧ Problems dotfile = Problems parsed)
      ∧ match problemDir with
        | None => problemSetDir = Given startDir
        | Some child =>
            Stat (Given startDir) = StatNotExist
            ∧ ∃ elems anc x,
                Abs startDir = inr elems ∧ problemSetDir = Absolute anc
                ∧ child = anc ++ [x] ∧ child `prefix_of` elems
                ∧ ∀ d, child `prefix_of` d → d `prefix_of` elems →
                       d ≠ elems → Stat (Absolute d) = StatNotExist
        end
  | Exits cause =>
      match cause with
      | FatalAbs err =>
          Stat (Given startDir) = StatNotExist ∧ Abs startDir = inl err
      | FatalNotFound =>
          Stat (Given startDir) = StatNotExist
          ∧ ∃ elems, Abs startDir = inr elems
                     ∧ ∀ d, d `prefix_of` elems → d ≠ elems →
                            Stat (Absolute d) = StatNotExist
      | FatalStat err => ∃ dir, Stat dir = StatError err
      | FatalRead err => ∃ dir, Stat dir = StatOK ∧ ReadFile dir = inl err
      | FatalParse err =>
          ∃ dir contents, Stat dir = StatOK ∧ ReadFile dir = inr contents
                          ∧ Unmarshal contents = inl err
      | _ => False
      end
  end.
Proof.
  unfold findDotFile. pose proof (search_given startDir) as Hsearch.
  destruct (search Stat Abs (turns Abs startDir) (Given startDir) None)
    as [[psd pd]|cause|]; cbn [bind]; [| |done].
  - destruct Hsearch as [Hok Hpd].
    destruct (ReadFile psd) as [err|contents] eqn:Hread; cbn [must bind].
    { by exists psd. }
    destruct (Unmarshal contents) as [err|parsed] eqn:Hparse; cbn [must bind].
    { by exists psd, contents. }
    split; [done|]. split; [done|]. split; [|done].
    by exists contents, parsed.
  - by destruct cause.
Qed.


(** X28. [findDotFile] always comes to an end (the unrolling of its loop
    is long enough).  When it returns with an empty [problemDir], the
    per-problem-set file is in the start directory as given.  Otherwise the
    start directory has none, the file is in the nearest proper ancestor
    [anc] of the absolute start directory that has one, [problemDir] is the
    child of [anc] on the way down to the start directory, and no directory
    between has one.  It exits only for the reasons the source names, each
    with its cause. *)
Theorem findDotFile_finds_the_nearest_per_problem_set_file startDir :
  match findDotFile Stat ReadFile Abs Unmarshal startDir with
  | OutOfFuel => False
  | Returns (dotfile, problemSetDir, problemDir) =>
      Stat problemSetDir = StatOK
      ∧ Path dotfile = Some problemSetDir
      ∧ (∃ contents parsed,
           ReadFile problemSetDir = inr contents
           ∧ Unmarshal contents = inr parsed
           ∧ AssignmentID dotfile = AssignmentID parsed
           ∧ Problems dotfile = Problems parsed)
      ∧ match problemDir with
        | None => problemSetDir = Given startDir
        | Some child =>
            Stat (Given startDir) = StatNotExist
            ∧ ∃ elems anc x,
                Abs startDir = inr elems ∧ problemSetDir = Absolute anc
                ∧ child = anc ++ [x] ∧ child `prefix_of` elems
                ∧ ∀ d, child `prefix_of` d → d `prefix_of` elems →
                       d ≠ elems → Stat (Absolute d) = StatNotExist
        end
  | Exits cause =>
      match cause with
      | FatalAbs err =>
          Stat (Given startDir) = StatNotExist ∧ Abs startDir = inl err
      | FatalNotFound =>
          Stat (Given startDir) = StatNotExist
          ∧ ∃ elems, Abs startDir = inr elems
                     ∧ ∀ d, d `prefix_of` elems → d ≠ elems →
                            Stat (Absolute d) = StatNotExist
      | FatalStat err => ∃ dir, Stat dir = StatError err
      | FatalRead err => ∃ dir, Stat dir = StatOK ∧ ReadFile dir = inl err
      | FatalParse err =>
          ∃ dir contents, Stat dir = StatOK ∧ ReadFile dir = inr contents
                          ∧ Unmarshal contents = inl err
      | _ => False
      end
  end.
Proof. apply findDotFile_spec. Qed.

Lemma gather_files_dom root info fs lg :
  gather_files perProblemSetDotFile root info = Grind.Files fs lg →
  dom fs = dom (Whitelist info).
Proof.
  destruct root as [r| |entries|err].
  - unfold gather_files, Walk. cbn [Filepath.walk]. unfold gather_walkFn.
    rewrite bool_decide_true by done. cbn [files].
    case_bool_decide as Hsize; [done|]. intros [= <- _].
    rewrite map_size_empty in Hsize. symmetry in Hsize.
    apply map_size_empty_iff in Hsize. by rewrite Hsize.
  - unfold gather_files, Walk. cbn [Filepath.walk]. unfold gather_walkFn.
    rewrite bool_decide_true by done. cbn [files].
    case_bool_decide as Hsize; [done|]. intros [= <- _].
    rewrite map_size_empty in Hsize. symmetry in Hsize.
    apply map_size_empty_iff in Hsize. by rewrite Hsize.
  - intros Hrun. by apply (gather_files_success _ _ _ _ _ Hrun).
  - done.
Qed.

(** What [gather] returns, step by step. *)
Lemma gather_spec now startDir problem assignment commit dotfile :
  gather perProblemSetDotFile Stat ReadFile Abs Unmarshal Tree
    GetAssignment GetProblem now startDir
  = Returns (problem, assignment, commit, dotfile) →
  (ID commit = 0 ∧ Commit_AssignmentID commit = AssignmentID dotfile
   ∧ CreatedAt commit = now ∧ UpdatedAt commit = now
   ∧ Action commit = "" ∧ Note commit = "")
  ∧ GetAssignment (AssignmentID dotfile) = inr assignment
  ∧ ∃ unique info,
      Problems dotfile !! unique = Some (Some info)
      ∧ ProblemID commit = Grind.ID info ∧ Step commit = Grind.Step info
      ∧ GetProblem (Grind.ID info) = inr problem
      ∧ dom (Files commit) = dom (Whitelist info)
      ∧ (size (Problems dotfile) = 1%nat
         ∨ ∃ elems anc,
             Abs startDir = inr elems
             ∧ Path dotfile = Some (Absolute anc)
             ∧ anc ++ [unique] `prefix_of` elems).
Proof.
  unfold gather. pose proof (findDotFile_spec startDir) as Hfind.
  destruct (findDotFile Stat ReadFile Abs Unmarshal startDir)
    as [[[found psd] pd]|cause|]; cbn [bind]; [|done..].
  destruct Hfind as (Hok & Hpath & _ & Hpd).
  destruct (GetAssignment (AssignmentID found)) as [err|asg] eqn:Hasg;
    cbn [must bind]; [done|].
  set (choice := if bool_decide (size (Problems found) = 1%nat) then _
                 else _).
  assert (∀ unique dir, choice = Returns (unique, dir) →
            size (Problems found) = 1%nat
            ∨ ∃ elems anc, Abs startDir = inr elems
                           ∧ Path found = Some (Absolute anc)
                           ∧ anc ++ [unique] `prefix_of` elems) as Hchoice.
  { intros unique dir. subst choice. case_bool_decide as Hone; [by left|].
    destruct pd as [child|]; [|done]. intros [= <- <-]. right.
    destruct Hpd as (_ & elems & anc & x & Habs & -> & -> & Hchild & _).
    exists elems, anc. split; [done|]. split; [done|].
    unfold filepath_Split_file. by rewrite last_snoc. }
  destruct choice as [[unique dir]|cause|]; cbn [bind]; [|done..].
  specialize (Hchoice unique dir eq_refl).
  destruct (Problems found !! unique) as [[info|]|] eqn:Hinfo; cbn [bind];
    [|done..].
  destruct (GetProblem (Grind.ID info)) as [err|prob] eqn:Hprob;
    cbn [must bind]; [done|].
  destruct (gather_files perProblemSetDotFile (Tree dir) info)
    as [lg|fs lg] eqn:Hfiles; cbn [bind]; [done|].
  intros [= <- <- <- <-]. cbn.
  split; [done|]. split; [done|]. exists unique, info.
  do 4 (split; [done|]). split; [by eapply gather_files_dom|done].
Qed.

(** X29. The commit that [gather] returns has key 0, the assignment of
    the per-problem-set file, both timestamps at [now], no action and no
    note; its problem and step are those the file records under the name
    of the problem, and its files are exactly the whitelist of that entry.
    The problem is the only one of the set, or else it is named by the
    directory directly below the problem-set directory on the way to the
    start directory, however deep the start directory lies. *)
Theorem gathered_commit_is_the_whitelist_of_the_named_problem
    now startDir problem assignment commit dotfile :
  gather perProblemSetDotFile Stat ReadFile Abs Unmarshal Tree
    GetAssignment GetProblem now startDir
  = Returns (problem, assignment, commit, dotfile) →
  (ID commit = 0 ∧ Commit_AssignmentID commit = AssignmentID dotfile
   ∧ CreatedAt commit = now ∧ UpdatedAt commit = now
   ∧ Action commit = "" ∧ Note commit = "")
  ∧ GetAssignment (AssignmentID dotfile) = inr assignment
  ∧ ∃ unique info,
      Problems dotfile !! unique = Some (Some info)
      ∧ ProblemID commit = Grind.ID info ∧ Step commit = Grind.Step info
      ∧ GetProblem (Grind.ID info) = inr problem
      ∧ dom (Files commit) = dom (Whitelist info)
      ∧ (size (Problems dotfile) = 1%nat
         ∨ ∃ elems anc,
             Abs startDir = inr elems
             ∧ Path dotfile = Some (Absolute anc)
             ∧ anc ++ [unique] `prefix_of` elems).
Proof. apply gather_spec. Qed.

(** X30. [CommandSave] without an argument is [CommandSave] on ["."].
    With two or more arguments it shows the help and neither gathers nor
    posts.  What it posts is the commit that [gather] returned for the
    directory, with an empty action and the note set to
    ["saving from grind tool"], and it returns only when the post
    succeeded. *)
Theorem save_posts_the_gathered_commit_or_nothing now args :
  let save := CommandSave perProblemSetDotFile Stat ReadFile Abs Unmarshal
                Tree LoadConfig GetAssignment GetProblem PostUnsigned now in
  save [] = save ["."]
  ∧ (save args = Returns Help ↔ LoadConfig = inr () ∧ (2 ≤ length args)%nat)
  ∧ ∀ commit, save args = Returns (Posted commit) →
      (length args ≤ 1)%nat
      ∧ Action commit = "" ∧ Note commit = "saving from grind tool"
      ∧ ID commit = 0 ∧ CreatedAt commit = now ∧ UpdatedAt commit = now
      ∧ PostUnsigned commit = inr ()
      ∧ ∃ problem assignment gathered dotfile,
          gather perProblemSetDotFile Stat ReadFile Abs Unmarshal Tree
            GetAssignment GetProblem now (default "." (head args))
          = Returns (problem, assignment, gathered, dotfile)
          ∧ Files commit = Files gathered
          ∧ ProblemID commit = ProblemID gathered
          ∧ Step commit = Step gathered
          ∧ Commit_AssignmentID commit = Commit_AssignmentID gathered.
Proof.
  cbv zeta. split; [done|].
  assert (∀ dir,
    match
      bind (gather perProblemSetDotFile Stat ReadFile Abs Unmarshal Tree
              GetAssignment GetProblem now dir)
        (λ x, let '(_, _, commit, _) := x in
              bind (must (PostUnsigned
                            (mkCommit (ID commit) (Commit_AssignmentID commit)
                               (ProblemID commit) (Step commit) ""
                               "saving from grind tool" (Files commit)
                               (CreatedAt commit) (UpdatedAt commit)))
                      FatalPost)
                (λ _, Returns (Posted
                         (mkCommit (ID commit) (Commit_AssignmentID commit)
                            (ProblemID commit) (Step commit) ""
                            "saving from grind tool" (Files commit)
                            (CreatedAt commit) (UpdatedAt commit)))))
    with
    | Returns Help => False
    | Returns (Posted commit) =>
        Action commit = "" ∧ Note commit = "saving from grind tool"
        ∧ ID commit = 0 ∧ CreatedAt commit = now ∧ UpdatedAt commit = now
        ∧ PostUnsigned commit = inr ()
        ∧ ∃ problem assignment gathered dotfile,
            gather perProblemSetDotFile Stat ReadFile Abs Unmarshal Tree
              GetAssignment GetProblem now dir
            = Returns (problem, assignment, gathered, dotfile)
            ∧ Files commit = Files gathered
            ∧ ProblemID commit = ProblemID gathered
            ∧ Step commit = Step gathered
            ∧ Commit_AssignmentID commit = Commit_AssignmentID gathered
    | _ => True
    end) as Hsave.
  { intros dir.
    destruct (gather _ _ _ _ _ _ _ _ now dir)
      as [[[[problem assignment] gathered] dotfile]|cause|] eqn:Hgather;
      cbn [bind]; [|done..].
    destruct (gather_spec _ _ _ _ _ _ Hgather) as ((Hid & _ & Hc & Hu & _) & _).
    destruct (PostUnsigned _) as [err|[]] eqn:Hpost; cbn [must bind]; [done|].
    cbn. do 5 (split; [done|]). split; [done|].
    by exists problem, assignment, gathered, dotfile. }
  unfold CommandSave. destruct LoadConfig as [err|[]]; cbn [must bind].
  { split; [split; [done|by intros [? _]]|done]. }
  destruct args as [|dir [|dir' rest]]; cbn [bind head default length].
  - specialize (Hsave ".").
    destruct (bind (gather _ _ _ _ _ _ _ _ now ".") _) as [[|c]|cause|];
      (split; [split; [done|intros [_ ?]; lia]|]);
      intros commit; try done.
    intros [= <-]. split; [lia|done].
  - specialize (Hsave dir).
    destruct (bind (gather _ _ _ _ _ _ _ _ now dir) _) as [[|c]|cause|];
      (split; [split; [done|intros [_ ?]; lia]|]);
      intros commit; try done.
    intros [= <-]. split; [lia|done].
  - split; [split; [intros _; split; [done|lia]|done]|done].
Qed.

End WithSystem.

(** Instances of the properties above on the sample workspace. *)
Import Samples.

Lemma gathered_files_witness :
  dom ({[ "main.py" := "print('hello')" ]} : gmap string string)
  = dom (Whitelist info_top)
  ∧ (∀ name, name ∈ dom (Whitelist info_top) →
       Whitelist info_top !! name = Some true ∧ name ≠ ".grind"
       ∧ ∃ c, (name, Regular (inr c)) ∈ problem_entries
              ∧ ({[ "main.py" := "print('hello')" ]} : gmap string string)
                !! name = Some c)
  ∧ (∀ line, line ∈ [LogSkipping "scratch.txt"] →
       ∃ name, line = LogSkipping name ∧ whitelisted info_top name = false
               ∧ name ∈ problem_entries.*1)
  ∧ Forall (passable ".grind" info_top) problem_entries.
Proof.
  apply (gathered_files_are_exactly_the_whitelist ".grind" info_top
           problem_entries {[ "main.py" := "print('hello')" ]}
           [LogSkipping "scratch.txt"]).
  vm_compute. reflexivity.
Defined.

Lemma gather_succeeds_witness :
  (∃ fs lg, gather_files ".grind" (Dir problem_entries) info_top
            = Grind.Files fs lg)
  ↔ Forall (passable ".grind" info_top) problem_entries
    ∧ ∀ name, name ∈ dom (Whitelist info_top) →
        Whitelist info_top !! name = Some true ∧ name ≠ ".grind"
        ∧ ∃ r, (name, Regular r) ∈ problem_entries.
Proof.
  apply (gather_succeeds_iff_the_whitelist_is_at_the_top ".grind" info_top
           problem_entries).
  compute_done.
Defined.

Lemma gathered_commit_witness :
  (ID WorkspaceSamples.gathered = 0
   ∧ Commit_AssignmentID WorkspaceSamples.gathered
     = AssignmentID WorkspaceSamples.dotfile
   ∧ CreatedAt WorkspaceSamples.gathered = t0
   ∧ UpdatedAt WorkspaceSamples.gathered = t0
   ∧ Action WorkspaceSamples.gathered = ""
   ∧ Note WorkspaceSamples.gathered = "")
  ∧ WorkspaceSamples.GetObject (AssignmentID WorkspaceSamples.dotfile)
    = inr 3
  ∧ ∃ unique info,
      Problems WorkspaceSamples.dotfile !! unique = Some (Some info)
      ∧ ProblemID WorkspaceSamples.gathered = Grind.ID info
      ∧ Step WorkspaceSamples.gathered = Grind.Step info
      ∧ WorkspaceSamples.GetObject (Grind.ID info) = inr 7
      ∧ dom (Files WorkspaceSamples.gathered) = dom (Whitelist info)
      ∧ (size (Problems WorkspaceSamples.dotfile) = 1%nat
         ∨ ∃ elems anc,
             WorkspaceSamples.Abs "." = inr elems
             ∧ Path WorkspaceSamples.dotfile = Some (Absolute anc)
             ∧ anc ++ [unique] `prefix_of` elems).
Proof.
  apply (gathered_commit_is_the_whitelist_of_the_named_problem ".grind"
           WorkspaceSamples.Stat WorkspaceSamples.ReadFile
           WorkspaceSamples.Abs WorkspaceSamples.Unmarshal
           WorkspaceSamples.Tree WorkspaceSamples.GetObject
           WorkspaceSamples.GetObject t0 "." 7 3
           WorkspaceSamples.gathered WorkspaceSamples.dotfile).
  vm_compute. reflexivity.
Defined.

End GrindMore.
